(** * Collatz family ABS1 / NON-ABS1 checker (accelerated O± operators)

    A shallow embedding of [collatz_o_operator.py] and the properties of its
    classification core: the 2-adic valuation, the accelerated operators, the
    initial normaliser, the step function, the A1-stable domain gate, the
    cycle canonicaliser, the trajectory walker [worker] and the registry of
    unknown cycles kept by [run_sweep].

    Python integers are unbounded, so they are [Z]; [//] and [%] round towards
    minus infinity like [Z.div] and [Z.modulo].  Lists and tuples of integers
    are [list Z]; the [seen] dictionary is a [gmap Z nat]; the shape and type
    tags and the labels are strings, as in the source. *)

From Stdlib Require Import ZArith Lia List Bool String Ascii.
From stdpp Require Import base option list strings gmap sorting.

Local Open Scope string_scope.
Local Open Scope list_scope.
Local Open Scope Z_scope.

(** ** Outcomes of a Python computation *)

(** The exceptions the operations used by the core can raise. *)
Inductive exn : Type :=
| ZeroDivisionError
| ValueError
| KeyError
| IndexError.

(** A computation returns, raises, or is still running when the fuel given to
    the model of a [while] loop is spent. *)
Inductive run (A : Type) : Type :=
| Done (a : A)
| Raise (e : exn)
| OutOfFuel.

Arguments Done {A} a.
Arguments Raise {A} e.
Arguments OutOfFuel {A}.

#[global] Instance run_ret : MRet run := fun A a => Done a.

#[global] Instance run_bind : MBind run := fun A B k m =>
  match m with
  | Done a => k a
  | Raise e => Raise e
  | OutOfFuel => OutOfFuel
  end.

(** [a << k]: a negative shift count raises [ValueError]. *)
Definition py_lshift (a k : Z) : run Z :=
  if k <? 0 then Raise ValueError else Done (Z.shiftl a k).

(** [a // b]: floor division, [ZeroDivisionError] on a zero divisor. *)
Definition py_floordiv (a b : Z) : run Z :=
  if b =? 0 then Raise ZeroDivisionError else Done (a / b).

(** [l[i]] for a non-negative index. *)
Definition py_index {A : Type} (l : list A) (i : nat) : run A :=
  match l !! i with
  | Some x => Done x
  | None => Raise IndexError
  end.

(** [d[k]] on a dictionary. *)
Definition py_getitem (d : gmap Z nat) (k : Z) : run nat :=
  match d !! k with
  | Some i => Done i
  | None => Raise KeyError
  end.

(** Truth value of an integer. *)
Definition truthy (k : Z) : bool := negb (k =? 0).

(** ** Utilities *)

(** [int.bit_length]: the number of bits of the magnitude. *)
Definition bit_length (x : Z) : Z :=
  if x =? 0 then 0 else Z.log2 (Z.abs x) + 1.

(** [v2]: [(x & -x).bit_length() - 1] on the magnitude, [0] at zero. *)
Definition v2 (x : Z) : Z :=
  let x := Z.abs x in
  if truthy x then bit_length (Z.land x (- x)) - 1 else 0.

Definition O_plus (m : Z) : run Z :=
  if m =? 0 then Done 1
  else
    let x := 3 * m + 1 in
    d ← py_lshift 1 (v2 x);
    py_floordiv x d.

Definition O_minus (m : Z) : run Z :=
  if m =? 0 then Done (-1)
  else
    let x := 3 * m - 1 in
    d ← py_lshift 1 (v2 x);
    py_floordiv x d.

Definition normalize_initial (n0 : Z) (even_type : string) : run Z :=
  if n0 =? 0 then Done 1
  else
    let n := n0 in
    if n mod 2 =? 0 then
      let k := v2 n in
      d ← py_lshift 1 k;
      n ← py_floordiv n d;
      if (even_type =? "B")%string && truthy (Z.land k 1)
      then Done (- n)
      else Done n
    else Done n.

Definition T_step_accel (n : Z) (even_type : string) (odd_sign : Z) : run Z :=
  nxt ← (if odd_sign =? 1 then O_plus n else O_minus n);
  if (even_type =? "W")%string then Done nxt
  else
    let k := v2 (3 * n + (if odd_sign =? 1 then 1 else -1)) in
    Done (if truthy (Z.land k 1) then - nxt else nxt).

(** [s.endswith(suffix)]. *)
Definition endswith (s suffix : string) : bool :=
  let n := String.length s in
  let m := String.length suffix in
  (m <=? n)%nat && (substring (n - m) m s =? suffix)%string.

(** [parse_type]: [type_tag[0]] raises [IndexError] on the empty string. *)
Definition parse_type (type_tag : string) : run (string * Z) :=
  c ← match type_tag with
      | EmptyString => Raise IndexError
      | String c _ => Done (String c EmptyString)
      end;
  let even_type := if (c =? "W")%string then "W" else "B" in
  let odd_sign := if endswith type_tag "+1" then 1 else -1 in
  Done (even_type, odd_sign).

(** ** A1-stable domain gating *)

Definition is_a1_stable_domain (type_tag : string) (fixed_sign : Z) : bool :=
  if (type_tag =? "B+1")%string || (type_tag =? "B-1")%string then true
  else if (type_tag =? "W+1")%string then fixed_sign =? 1
  else if (type_tag =? "W-1")%string then fixed_sign =? -1
  else false.

Definition is_abs1_loop_from_cycle (cycle : list Z) (type_tag : string)
  : run bool :=
  fixed ← (if (length cycle =? 1)%nat
           then c0 ← py_index cycle 0; Done ((c0 =? 1) || (c0 =? -1))
           else Done false);
  if fixed : bool then
    c0 ← py_index cycle 0;
    Done (is_a1_stable_domain type_tag (if c0 =? 1 then 1 else -1))
  else Done (bool_decide (Z.abs <$> cycle = [1; 4; 2; 1])).

Definition is_known_small_loop (cycle : list Z) : run bool :=
  fixed ← (if (length cycle =? 1)%nat
           then c0 ← py_index cycle 0; Done ((c0 =? 1) || (c0 =? -1))
           else Done false);
  if fixed : bool then Done true
  else
    let abs_cyc := Z.abs <$> cycle in
    if (length abs_cyc =? 2)%nat
       && bool_decide (list_to_set abs_cyc =@{gset Z} {[ 1; 2 ]})
    then Done true
    else Done (bool_decide (abs_cyc = [1; 4; 2; 1])).

(** ** Cycle canonicalisation *)

(** [l[s:]] and [l[:s]]: a negative bound counts from the end, and bounds
    outside the list are clamped. *)
Definition slice_bound (l : list Z) (s : Z) : nat :=
  Z.to_nat (if s <? 0 then Z.max 0 (Z.of_nat (length l) + s) else s).

Definition slice_from (l : list Z) (s : Z) : list Z := drop (slice_bound l s) l.
Definition slice_to (l : list Z) (s : Z) : list Z := take (slice_bound l s) l.

(** [cyc[s:] + cyc[:s]]. *)
Definition rotation (cyc : list Z) (s : Z) : list Z :=
  slice_from cyc s ++ slice_to cyc s.

(** [a < b] on tuples of integers: lexicographic, a proper prefix is smaller. *)
Fixpoint tuple_lt (a b : list Z) : bool :=
  match a, b with
  | [], [] => false
  | [], _ :: _ => true
  | _ :: _, [] => false
  | x :: a', y :: b' =>
      if x <? y then true else if y <? x then false else tuple_lt a' b'
  end.

(** [list.sort(key=...)] is a stable sort that compares keys with [<] only.
    Sortedness and stability determine its result, so any stable sort gives
    the same list; insertion of each element before the first element whose
    key is not smaller is one. *)
Fixpoint insert_by_key (x : list Z * list Z) (l : list (list Z * list Z))
  : list (list Z * list Z) :=
  match l with
  | [] => [x]
  | y :: l' => if tuple_lt y.1 x.1 then y :: insert_by_key x l' else x :: l
  end.

Fixpoint sort_by_key (l : list (list Z * list Z)) : list (list Z * list Z) :=
  match l with
  | [] => []
  | x :: l' => insert_by_key x (sort_by_key l')
  end.

Definition candidates_of (cyc : list Z) (by_abs : bool)
  : list (list Z * list Z) :=
  (fun s : nat =>
     let rot := rotation cyc (Z.of_nat s) in
     let key := if by_abs then Z.abs <$> rot else rot in
     (key, rot))
  <$> seq 0 (length cyc).

Definition canonical_cycle (cyc : list Z) (by_abs : bool) : run (list Z) :=
  let L := length cyc in
  if (L =? 0)%nat then Done []
  else
    let candidates := sort_by_key (candidates_of cyc by_abs) in
    c ← py_index candidates 0;
    Done (if by_abs then c.1 else c.2).

(** ** The worker *)

Record worker_args : Type := WorkerArgs {
  n0 : Z;
  type_tag : string;
  even_type : string;
  odd_sign : Z;
  cap : Z;
  want_example : bool;
  report_cycles : bool;
  fp_abs : bool
}.

(** [(lab, example, hit1, unknown_fp, unknown_cyc)]. *)
Definition worker_result : Type :=
  string * option (Z * list Z) * bool * option (list Z) * option (list Z).

(** The local variables of [worker], and three ghost fields that record what
    the loop did: the values tested at the top of an iteration, the number of
    calls of [T_step_accel], and the number of times the safeguard branch
    ([n % 2 == 0]) ran. *)
Record locals : Type := Locals {
  hit1 : bool;
  n : Z;
  seen : gmap Z nat;
  seq_log : list Z;
  steps : Z;
  inspected : list Z;
  accel_calls : nat;
  safeguard_calls : nat
}.

Inductive loop_exit : Type :=
| Closed      (* [return] inside the loop: [n in seen] *)
| Exhausted.  (* the loop condition [steps < cap] failed *)

Definition py_in (k : Z) (d : gmap Z nat) : bool :=
  match d !! k with Some _ => true | None => false end.

(** The [while steps < cap] loop up to its exit. *)
Fixpoint walk (fuel : nat) (a : worker_args) (st : locals)
  : run (loop_exit * locals) :=
  if steps st <? cap a then
    match fuel with
    | O => OutOfFuel
    | S fuel' =>
        let hit1' := if n st =? 1 then true else hit1 st in
        let inspected' := inspected st ++ [n st] in
        if py_in (n st) (seen st) then
          Done (Closed,
                Locals hit1' (n st) (seen st) (seq_log st) (steps st)
                       inspected' (accel_calls st) (safeguard_calls st))
        else
          let seen' := <[ n st := length (seq_log st) ]> (seen st) in
          let seq' := seq_log st ++ [n st] in
          if n st mod 2 =? 0 then
            n' ← normalize_initial (n st) (even_type a);
            walk fuel' a
                 (Locals hit1' n' seen' seq' (steps st + 1) inspected'
                         (accel_calls st) (S (safeguard_calls st)))
          else
            n' ← T_step_accel (n st) (even_type a) (odd_sign a);
            walk fuel' a
                 (Locals hit1' n' seen' seq' (steps st + 1) inspected'
                         (S (accel_calls st)) (safeguard_calls st))
    end
  else Done (Exhausted, st).

(** The body of [if n in seen:]. *)
Definition closure (a : worker_args) (st : locals) : run worker_result :=
  i ← py_getitem (seen st) (n st);
  let cycle := drop i (seq_log st) in
  abs1 ← is_abs1_loop_from_cycle cycle (type_tag a);
  let lab := if abs1 : bool then "ABS1" else "NON-ABS1" in
  unknown ← (if report_cycles a && (lab =? "NON-ABS1")%string
             then known ← is_known_small_loop cycle; Done (negb known)
             else Done false);
  fp_cyc ← (if unknown : bool
            then fp ← canonical_cycle cycle (fp_abs a);
                 Done (Some fp, Some cycle)
            else Done (None, None));
  let ex := if want_example a
               && ((lab =? "ABS1")%string || (lab =? "NON-ABS1")%string)
            then Some (n0 a, cycle) else None in
  Done (lab, ex, hit1 st, fp_cyc.1, fp_cyc.2).

Definition walk_start (a : worker_args) : run locals :=
  n ← normalize_initial (n0 a) (even_type a);
  Done (Locals false n ∅ [] 0 [] 0 0).

Definition worker_trace (fuel : nat) (a : worker_args)
  : run (loop_exit * locals) :=
  st ← walk_start a;
  walk fuel a st.

Definition worker_fuel (fuel : nat) (a : worker_args) : run worker_result :=
  r ← worker_trace fuel a;
  match r.1 with
  | Closed => closure a r.2
  | Exhausted => Done ("CAP", None, hit1 r.2, None, None)
  end.

(** The loop runs at most [cap] times, so [cap] units of fuel are enough
    ([worker_fuel_enough] below). *)
Definition worker (a : worker_args) : run worker_result :=
  worker_fuel (Z.to_nat (cap a)) a.

(** ** The sweep *)

(** The user configuration read by the sweep and the worker. *)
Record settings : Type := Settings {
  MAX_SAMPLES_PER_CYCLE : Z;
  REPORT_CYCLES : bool;
  FINGERPRINT_ABS : bool
}.

(** The values the source file ships with. *)
Definition shipped_settings : settings := Settings 3 true false.

(** An entry of [cycle_registry]. *)
Record cycle_info : Type := CycleInfo {
  count : Z;
  len : nat;
  samples : list Z;
  cycle : list Z
}.

Definition add_unknown_cycle (cfg : settings)
    (cycle_registry : gmap (list Z) cycle_info)
    (fp : option (list Z)) (starter : option Z) (cyc : option (list Z))
  : gmap (list Z) cycle_info :=
  match fp, cyc with
  | Some fp, Some cyc =>
      match cycle_registry !! fp with
      | None =>
          <[ fp := CycleInfo 1 (length cyc)
                     (match starter with Some s => [s] | None => [] end)
                     cyc ]> cycle_registry
      | Some info =>
          let samples' :=
            match starter with
            | Some s =>
                if Z.of_nat (length (samples info)) <? MAX_SAMPLES_PER_CYCLE cfg
                then samples info ++ [s] else samples info
            | None => samples info
            end in
          <[ fp := CycleInfo (count info + 1) (len info) samples' (cycle info) ]>
            cycle_registry
      end
  | _, _ => cycle_registry
  end.

Record sweep_state : Type := SweepState {
  counts : gmap string Z;
  hit1_yes : Z;
  hit1_no : Z;
  examples_found : gmap string (Z * list Z);
  cycle_registry : gmap (list Z) cycle_info
}.

(** The body shared by the two result loops of [run_sweep].  They differ in
    one place: when the worker returned no example, the parallel loop takes
    [None] as the starter and the sequential loop takes [n0]; [no_example] is
    that value. *)
Definition aggregate (cfg : settings) (examples : bool) (no_example : option Z)
    (st : sweep_state) (r : worker_result) : sweep_state :=
  let '(lab, ex, hit1, fp, cyc) := r in
  let counts' := <[ lab := default 0 (counts st !! lab) + 1 ]> (counts st) in
  let hit1_yes' := hit1_yes st + (if hit1 then 1 else 0) in
  let hit1_no' := if negb hit1 then hit1_no st + 1 else hit1_no st in
  let examples_found' :=
    match ex with
    | Some e =>
        if examples && negb (bool_decide (is_Some (examples_found st !! lab)))
        then <[ lab := e ]> (examples_found st) else examples_found st
    | None => examples_found st
    end in
  let cycle_registry' :=
    if REPORT_CYCLES cfg then
      let starter := match ex with Some e => Some e.1 | None => no_example end in
      add_unknown_cycle cfg (cycle_registry st) fp starter cyc
    else cycle_registry st in
  SweepState counts' hit1_yes' hit1_no' examples_found' cycle_registry'.

(** [range(lo, hi)]. *)
Definition py_range (lo hi : Z) : list Z :=
  (fun i : nat => lo + Z.of_nat i) <$> seq 0 (Z.to_nat (hi - lo)).

Fixpoint sweep_loop (cfg : settings) (type_tag even_type : string)
    (odd_sign cap : Z) (examples parallel : bool) (todo : list Z)
    (st : sweep_state) : run sweep_state :=
  match todo with
  | [] => Done st
  | n0 :: todo' =>
      r ← worker (WorkerArgs n0 type_tag even_type odd_sign cap examples
                             (REPORT_CYCLES cfg) (FINGERPRINT_ABS cfg));
      sweep_loop cfg type_tag even_type odd_sign cap examples parallel todo'
                 (aggregate cfg examples (if parallel then None else Some n0)
                            st r)
  end.

(** [run_sweep] up to its report: the aggregates it prints.  Under
    [parallel], [imap_unordered] yields the results in an order the pool
    decides; [arrival] is that order (a permutation of the range).  The
    number of workers bears on that order only and is left out. *)
Definition run_sweep (cfg : settings) (lo hi : Z) (type_tag : string)
    (cap : Z) (examples parallel : bool) (arrival : list Z) : run sweep_state :=
  p ← parse_type type_tag;
  let init :=
    SweepState (<[ "ABS1" := 0 ]> (<[ "NON-ABS1" := 0 ]> (<[ "CAP" := 0 ]> ∅)))
               0 0 ∅ ∅ in
  sweep_loop cfg type_tag p.1 p.2 cap examples parallel
             (if parallel then arrival else py_range lo (hi + 1)) init.

(** ** Notions used in the statements *)

(** The step function of a run. *)
Definition step (a : worker_args) (x : Z) : run Z :=
  T_step_accel x (even_type a) (odd_sign a).

(** Every element of the list is followed by its image under [T]. *)
Fixpoint chain (T : Z → run Z) (l : list Z) : Prop :=
  match l with
  | x :: (y :: _) as tl => T x = Done y ∧ chain T tl
  | _ => True
  end.

(** [l] is an initial segment of the trajectory of the run: it starts at the
    normalised starting value and follows the step function. *)
Definition trajectory (a : worker_args) (l : list Z) : Prop :=
  (∃ start, normalize_initial (n0 a) (even_type a) = Done start
            ∧ head l = Some start)
  ∧ chain (step a) l.

(** [b] is [a] entered at another point. *)
Definition is_rotation (a b : list Z) : Prop := ∃ k : Z, b = rotation a k.

(** The same, as a cut of [a] in two parts that are swapped. *)
Definition rot_split (a b : list Z) : Prop :=
  ∃ u v, a = u ++ v ∧ b = v ++ u.

(** What [canonical_cycle] compares: the values, or their magnitudes. *)
Definition fingerprint_space (by_abs : bool) (l : list Z) : list Z :=
  if by_abs then Z.abs <$> l else l.

(** Structurally distinct cycles, as the specification has them: not
    rotations of one another, and under absolute-collapse not rotations of one
    another after negating every element either. *)
Definition structurally_distinct (by_abs : bool) (a b : list Z) : Prop :=
  ¬ is_rotation a b ∧ (by_abs = true → ¬ is_rotation (Z.opp <$> a) b).

(** A cycle of the step function [T]: every element is followed by its
    image, and the last one by the first. *)
Definition cycle_of (T : Z → run Z) (c : list Z) : Prop :=
  ∃ first, head c = Some first ∧ chain T (c ++ [first]).

(** The configurations [run_sweep] hands to the worker. *)
Definition sweep_config (a : worker_args) : Prop :=
  type_tag a ∈ ["W+1"; "W-1"; "B+1"; "B-1"]
  ∧ parse_type (type_tag a) = Done (even_type a, odd_sign a).

(** The cycle read off the log when the loop closes. *)
Definition closed_cycle (st : locals) : list Z :=
  match seen st !! n st with
  | Some i => drop i (seq_log st)
  | None => []
  end.

(** What the log, the dictionary and the ghost counters satisfy throughout
    the loop. *)
Record log_inv (a : worker_args) (st : locals) : Prop := LogInv {
  inv_traj : trajectory a (seq_log st ++ [n st]);
  inv_nodup : NoDup (seq_log st);
  inv_seen : ∀ v i, seen st !! v = Some i ↔ seq_log st !! i = Some v;
  inv_size : size (seen st) = length (seq_log st);
  inv_odd : Forall (fun v => Z.odd v = true) (seq_log st ++ [n st]);
  inv_steps : steps st = Z.of_nat (length (seq_log st));
  inv_accel : accel_calls st = length (seq_log st);
  inv_safeguard : safeguard_calls st = 0%nat
}.

(** At the top of an iteration nothing but the log has been inspected. *)
Definition walk_inv (a : worker_args) (st : locals) : Prop :=
  log_inv a st
  ∧ inspected st = seq_log st
  ∧ (hit1 st = true ↔ 1 ∈ inspected st).

(** At the exit of the loop. *)
Definition walk_post (a : worker_args) (e : loop_exit) (st : locals) : Prop :=
  log_inv a st
  ∧ (hit1 st = true ↔ 1 ∈ inspected st)
  ∧ match e with
    | Closed =>
        steps st < cap a ∧ n st ∈ seq_log st
        ∧ inspected st = seq_log st ++ [n st]
    | Exhausted => cap a ≤ steps st ∧ inspected st = seq_log st
    end.

(** Domain stability in the words of the specification: under Bridge both
    fixed points are stable whatever the sign; under Wall with sign [+1] only
    [+1] is, and under Wall with sign [-1] only [-1] is. *)
Definition domain_stable (even_type : string) (odd_sign v : Z) : bool :=
  if (even_type =? "B")%string then true
  else if odd_sign =? 1 then v =? 1
  else v =? -1.

(** ** The inverse tree ([figure_tree.py]) *)

(** [preimages_B]: the values the generator yields, in order. *)
Definition preimages_B (y s : Z) (odd_zero : bool) : list Z :=
  [-2 * y]
  ++ (if (y - (-2 * s)) mod 6 =? 0 then [(y - s) / 3] else [])
  ++ (if odd_zero && (y =? s) then [0] else []).

Definition preimages_W (y s : Z) (odd_zero : bool) : list Z :=
  [2 * y]
  ++ (if (y - (-2 * s)) mod 6 =? 0 then [(y - s) / 3] else [])
  ++ (if odd_zero && (y =? s) then [0] else []).

(** The parent [edges_from_levels] computes for a node: one forward step. *)
Definition parent_of (v s : Z) (op : string) : Z :=
  if v mod 2 =? 0
  then (if (op =? "B")%string then v / (-2) else v / 2)
  else 3 * v + s.

Definition edges_from_levels (levels : list (list Z)) (s : Z) (op : string)
  : list (Z * Z) :=
  d ← seq 1 (length levels - 1);
  v ← default [] (levels !! d);
  let parent := parent_of v s op in
  if bool_decide (parent ∈ default [] (levels !! (d - 1)%nat))
  then [(v, parent)] else [].

(** [levels[i].append(n)]: a negative index counts from the end, and an
    index outside the list raises [IndexError]. *)
Definition py_append_at (levels : list (list Z)) (i : Z) (n : Z)
  : run (list (list Z)) :=
  let idx := if i <? 0 then i + Z.of_nat (length levels) else i in
  if idx <? 0 then Raise IndexError
  else match levels !! Z.to_nat idx with
       | Some lv => Done (<[ Z.to_nat idx := lv ++ [n] ]> levels)
       | None => Raise IndexError
       end.

(** The mutable state of [bfs_inverse_levels]: the levels, the set of values
    seen and the queue of [(value, depth)] pairs. *)
Record bfs_state : Type := BfsState {
  bfs_levels : list (list Z);
  bfs_seen : gset Z;
  bfs_queue : list (Z * Z)
}.

(** The [for n in pre(...)] loop of one dequeued node of depth [d]. *)
Fixpoint bfs_visit (d : Z) (ns : list Z) (st : bfs_state) : run bfs_state :=
  match ns with
  | [] => Done st
  | n :: ns' =>
      if bool_decide (n ∈ bfs_seen st) then bfs_visit d ns' st
      else
        levels' ← py_append_at (bfs_levels st) (d + 1) n;
        bfs_visit d ns'
          (BfsState levels' ({[ n ]} ∪ bfs_seen st)
                    (bfs_queue st ++ [(n, d + 1)]))
  end.

(** The [while q] loop. *)
Fixpoint bfs_loop (fuel : nat) (pre : Z → list Z) (depth : Z)
    (st : bfs_state) : run bfs_state :=
  match bfs_queue st with
  | [] => Done st
  | (y, d) :: q' =>
      match fuel with
      | O => OutOfFuel
      | S fuel' =>
          let st := BfsState (bfs_levels st) (bfs_seen st) q' in
          if depth <=? d then bfs_loop fuel' pre depth st
          else
            st' ← bfs_visit d (pre y) st;
            bfs_loop fuel' pre depth st'
      end
  end.

(** [list.sort()] on integers: the sorted permutation of the list. *)
Definition sort_ints (l : list Z) : list Z := merge_sort Z.le l.

Definition bfs_inverse_levels (fuel : nat) (s depth : Z) (op : string)
  : run (list (list Z) * gset Z) :=
  let levels := replicate (Z.to_nat (depth + 1)) [] in
  let seen : gset Z := {[ s ]} in
  let q := [(s, 0)] in
  levels ← py_append_at levels 0 s;
  let pre := fun y => if (op =? "B")%string then preimages_B y s true
                      else preimages_W y s true in
  st ← bfs_loop fuel pre depth (BfsState levels seen q);
  Done (sort_ints <$> bfs_levels st, bfs_seen st).

(** Fuel that suffices for a search of the given depth: the size of the full
    ternary tree of that height. *)
Fixpoint tree_size (j : nat) : nat :=
  match j with
  | O => 1
  | S j' => 3 * tree_size j' + 1
  end.

(** [bfs_unpruned_seen]: the same search from the root [1] under B(+1),
    without the levels. *)
Fixpoint unpruned_visit (d : Z) (ns : list Z) (seen : gset Z)
    (q : list (Z * Z)) : gset Z * list (Z * Z) :=
  match ns with
  | [] => (seen, q)
  | n :: ns' =>
      if bool_decide (n ∈ seen) then unpruned_visit d ns' seen q
      else unpruned_visit d ns' ({[ n ]} ∪ seen) (q ++ [(n, d + 1)])
  end.

Fixpoint unpruned_loop (fuel : nat) (depth : Z) (seen : gset Z)
    (q : list (Z * Z)) : run (gset Z) :=
  match q with
  | [] => Done seen
  | (y, d) :: q' =>
      match fuel with
      | O => OutOfFuel
      | S fuel' =>
          if depth <=? d then unpruned_loop fuel' depth seen q'
          else
            let r := unpruned_visit d (preimages_B y 1 true) seen q' in
            unpruned_loop fuel' depth r.1 r.2
      end
  end.

Definition bfs_unpruned_seen (fuel : nat) (depth : Z) : run (gset Z) :=
  let root := 1 in
  unpruned_loop fuel depth {[ root ]} [(root, 0)].

(** ** Notions used in the further properties *)

(** The arguments of a run with another step cap. *)
Definition with_cap (a : worker_args) (c : Z) : worker_args :=
  WorkerArgs (n0 a) (type_tag a) (even_type a) (odd_sign a) c
             (want_example a) (report_cycles a) (fp_abs a).

(** The type tag of the mirrored dynamics: the sign is flipped. *)
Definition mirror_tag (tag : string) : string :=
  if (tag =? "W+1")%string then "W-1"
  else if (tag =? "W-1")%string then "W+1"
  else if (tag =? "B+1")%string then "B-1"
  else if (tag =? "B-1")%string then "B+1"
  else tag.

(** The run on the negated start under the mirrored dynamics. *)
Definition mirror_args (a : worker_args) : worker_args :=
  WorkerArgs (- n0 a) (mirror_tag (type_tag a)) (even_type a)
             (if odd_sign a =? 1 then -1 else 1) (cap a)
             (want_example a) (report_cycles a) (fp_abs a).

(** The count the sweep holds for a label. *)
Definition label_count (st : sweep_state) (lab : string) : Z :=
  default 0 (counts st !! lab).

(** The starting values a sweep processes, in the order it processes them. *)
Definition sweep_order (lo hi : Z) (parallel : bool) (arrival : list Z)
  : list Z :=
  if parallel then arrival else py_range lo (hi + 1).

(** What a sweep reports up to the choice of examples and samples: the label
    counts, the hit-1 counts and the occurrence count of every fingerprint. *)
Definition sweep_summary (st : sweep_state)
  : gmap string Z * Z * Z * gmap (list Z) Z :=
  (counts st, hit1_yes st, hit1_no st, count <$> cycle_registry st).

(** One more occurrence of a key in a map of counts. *)
Definition bump `{Countable K} (k : K) (m : gmap K Z) : gmap K Z :=
  <[ k := default 0 (m !! k) + 1 ]> m.

(** The effect of one worker result on the summary. *)
Definition summary_step (cfg : settings) (r : worker_result)
    (s : gmap string Z * Z * Z * gmap (list Z) Z)
  : gmap string Z * Z * Z * gmap (list Z) Z :=
  let '(lab, _, hit1, fp, cyc) := r in
  let '(cnt, yes, no, reg) := s in
  (bump lab cnt,
   yes + (if hit1 : bool then 1 else 0),
   no + (if hit1 : bool then 0 else 1),
   if REPORT_CYCLES cfg
   then match fp, cyc with Some f, Some _ => bump f reg | _, _ => reg end
   else reg).

(** What every entry of the registry satisfies. *)
Record registry_entry_ok (cfg : settings) (processed : list Z)
    (fp : list Z) (info : cycle_info) : Prop := RegistryEntryOk {
  entry_key : canonical_cycle (cycle info) (FINGERPRINT_ABS cfg) = Done fp;
  entry_unknown : is_known_small_loop (cycle info) = Done false;
  entry_len : len info = length (cycle info);
  entry_count : 1 ≤ count info;
  entry_samples_count : Z.of_nat (length (samples info)) ≤ count info;
  entry_samples_cap :
    Z.of_nat (length (samples info)) ≤ Z.max 1 (MAX_SAMPLES_PER_CYCLE cfg);
  entry_samples_from : ∀ s, s ∈ samples info → s ∈ processed
}.

(** The preimage generator [bfs_inverse_levels] selects. *)
Definition bfs_pre (op : string) (s : Z) (y : Z) : list Z :=
  if (op =? "B")%string then preimages_B y s true else preimages_W y s true.

(** What the search keeps, with [pending] the nodes still to be expanded. *)
Record bfs_inv (s depth : Z) (pre : Z → list Z) (pending : list (Z * Z))
    (levels : list (list Z)) (seen : gset Z) : Prop := BfsInv {
  bfs_len : length levels = Z.to_nat (depth + 1);
  bfs_root : levels !! 0%nat = Some [s];
  bfs_pending : ∀ y d, (y, d) ∈ pending →
      0 ≤ d ≤ depth ∧ ∃ lv, levels !! Z.to_nat d = Some lv ∧ y ∈ lv;
  bfs_seen_levels : ∀ n, n ∈ seen ↔ n ∈ concat levels;
  bfs_nodup : NoDup (concat levels);
  bfs_sound : ∀ d lv n, levels !! S d = Some lv → n ∈ lv →
      ∃ y lv', levels !! d = Some lv' ∧ y ∈ lv' ∧ n ∈ pre y;
  bfs_complete : ∀ d lv y, levels !! d = Some lv → y ∈ lv →
      Z.of_nat d < depth →
      (y, Z.of_nat d) ∈ pending ∨ ∀ n, n ∈ pre y → n ∈ seen
}.

(** The fuel the pending nodes may still need. *)
Definition bfs_measure (depth : Z) (pending : list (Z * Z)) : nat :=
  sum_list_with (fun p : Z * Z => tree_size (Z.to_nat (depth - p.2))) pending.

(** ** The 2-adic valuation and the operators *)

Lemma land_odd_opp (c : Z) : Z.land (2 * c + 1) (- (2 * c + 1)) = 1.
Proof.
  replace (- (2 * c + 1)) with (2 * Z.lnot c + 1) by (unfold Z.lnot; lia).
  apply Z.bits_inj'. intros i Hi.
  rewrite Z.land_spec.
  destruct (Z.eq_dec i 0) as [->|Hne].
  - rewrite !Z.testbit_odd_0. reflexivity.
  - replace i with (Z.succ (i - 1)) by lia.
    rewrite !Z.testbit_odd_succ by lia.
    rewrite Z.lnot_spec by lia.
    replace 1 with (2 * 0 + 1) by lia.
    rewrite Z.testbit_odd_succ by lia.
    rewrite Z.testbit_0_l. apply andb_negb_r.
Qed.

Lemma land_even_opp (c : Z) :
  Z.land (2 * c) (- (2 * c)) = 2 * Z.land c (- c).
Proof.
  replace (- (2 * c)) with (Z.shiftl (- c) 1)
    by (rewrite Z.shiftl_mul_pow2; lia).
  replace (2 * c) with (Z.shiftl c 1) by (rewrite Z.shiftl_mul_pow2; lia).
  rewrite <- Z.shiftl_land, Z.shiftl_mul_pow2; lia.
Qed.

Lemma lowest_bit_pos (p : positive) :
  ∃ k q, 0 ≤ k ∧ Z.odd q = true ∧
         Z.land (Z.pos p) (- Z.pos p) = 2 ^ k ∧ Z.pos p = q * 2 ^ k.
Proof.
  induction p as [p _ | p IH | ].
  - exists 0, (Z.pos p~1). rewrite Pos2Z.inj_xI, land_odd_opp.
    rewrite <- Pos2Z.inj_xI. split_and!; [lia | reflexivity | lia | lia].
  - destruct IH as (k & q & Hk & Hq & Hland & Hp).
    exists (k + 1), q. rewrite Pos2Z.inj_xO, land_even_opp, Hland.
    rewrite Z.pow_add_r by lia. split_and!; [lia | done | lia | lia].
  - exists 0, 1. split_and!; [lia | reflexivity | reflexivity | lia].
Qed.


Lemma v2_spec (x : Z) :
  x ≠ 0 → ∃ q, 0 ≤ v2 x ∧ Z.odd q = true ∧ x = q * 2 ^ v2 x.
Proof.
  intros Hx. unfold v2, truthy.
  destruct (Z.abs x) as [ | p | p] eqn:Habs; [lia | | lia].
  destruct (lowest_bit_pos p) as (k & q & Hk & Hq & Hland & Hp).
  assert (Hpow : 0 < 2 ^ k) by (apply Z.pow_pos_nonneg; lia).
  cbn [Z.eqb negb]. rewrite Hland. unfold bit_length.
  destruct (Z.eqb_spec (2 ^ k) 0) as [?|_]; [lia|].
  rewrite Z.abs_eq, Z.log2_pow2 by lia.
  replace (k + 1 - 1) with k by lia.
  destruct (Z.abs_spec x) as [[_ Hx']|[_ Hx']].
  - exists q. split_and!; [lia | done | lia].
  - exists (- q). rewrite Z.odd_opp. split_and!; [lia | done | lia].
Qed.

Lemma v2_nonneg (x : Z) : 0 ≤ v2 x.
Proof.
  destruct (Z.eq_dec x 0) as [->|Hx]; [done|].
  destruct (v2_spec x Hx) as (? & ? & _). done.
Qed.

(** Removing the full power of two from a non-zero integer never raises and
    leaves an odd quotient. *)
Lemma strip_twos (x : Z) :
  x ≠ 0 →
  ∃ q, (d ← py_lshift 1 (v2 x); py_floordiv x d) = Done q ∧
       Z.odd q = true ∧ x = q * 2 ^ v2 x.
Proof.
  intros Hx. destruct (v2_spec x Hx) as (q & Hk & Hq & Heq).
  assert (Hpow : 0 < 2 ^ v2 x) by (apply Z.pow_pos_nonneg; lia).
  exists q. unfold py_lshift.
  destruct (Z.ltb_spec (v2 x) 0) as [?|_]; [lia|].
  cbn. unfold py_floordiv. rewrite Z.shiftl_1_l.
  destruct (Z.eqb_spec (2 ^ v2 x) 0) as [?|_]; [lia|].
  split_and!; [|done..].
  f_equal. rewrite Heq at 1. apply Z.div_mul. lia.
Qed.

Lemma odd_mod2 (x : Z) : Z.odd x = true ↔ x mod 2 ≠ 0.
Proof. rewrite Zmod_odd. destruct (Z.odd x); split; (done || lia). Qed.

Lemma O_plus_odd (m : Z) : ∃ q, O_plus m = Done q ∧ Z.odd q = true.
Proof.
  unfold O_plus. destruct (Z.eqb_spec m 0) as [->|Hm]; [by exists 1|].
  destruct (strip_twos (3 * m + 1)) as (q & Hq & Hodd & _); [lia|].
  cbn zeta. eauto.
Qed.

Lemma O_minus_odd (m : Z) : ∃ q, O_minus m = Done q ∧ Z.odd q = true.
Proof.
  unfold O_minus. destruct (Z.eqb_spec m 0) as [->|Hm]; [by exists (-1)|].
  destruct (strip_twos (3 * m - 1)) as (q & Hq & Hodd & _); [lia|].
  cbn zeta. eauto.
Qed.

Lemma T_step_accel_odd (x : Z) (e : string) (s : Z) :
  ∃ q, T_step_accel x e s = Done q ∧ Z.odd q = true.
Proof.
  unfold T_step_accel.
  assert (∃ q, (if s =? 1 then O_plus x else O_minus x) = Done q
               ∧ Z.odd q = true) as (q & -> & Hq).
  { destruct (s =? 1); [apply O_plus_odd | apply O_minus_odd]. }
  cbn. destruct (e =? "W")%string; [eauto|].
  destruct (truthy _); [|eauto].
  exists (- q). by rewrite Z.odd_opp.
Qed.

Lemma normalize_initial_odd (x : Z) (e : string) :
  ∃ q, normalize_initial x e = Done q ∧ Z.odd q = true.
Proof.
  unfold normalize_initial.
  destruct (Z.eqb_spec x 0) as [->|Hx]; [by exists 1|].
  destruct (Z.eqb_spec (x mod 2) 0) as [Hev|Hodd].
  - destruct (strip_twos x Hx) as (q & Hq & Hodd & _).
    unfold mbind, run_bind in *.
    destruct (py_lshift 1 (v2 x)) as [d| |]; [|done..].
    rewrite Hq. destruct (_ && _); [|eauto].
    exists (- q). by rewrite Z.odd_opp.
  - exists x. split; [done|]. by apply odd_mod2.
Qed.

(** ** The order on tuples and the sort *)

Lemma tuple_lt_irrefl (a : list Z) : tuple_lt a a = false.
Proof.
  induction a as [|x a IH]; [done|]. cbn. by rewrite Z.ltb_irrefl.
Qed.

Lemma tuple_lt_trichotomy (a b : list Z) :
  tuple_lt a b = true ∨ a = b ∨ tuple_lt b a = true.
Proof.
  revert b. induction a as [|x a IH]; intros [|y b]; cbn; auto.
  destruct (Z.ltb_spec x y), (Z.ltb_spec y x); auto; try lia.
  assert (x = y) as -> by lia.
  destruct (IH b) as [?|[->|?]]; auto.
Qed.

Lemma tuple_lt_trans (a b c : list Z) :
  tuple_lt a b = true → tuple_lt b c = true → tuple_lt a c = true.
Proof.
  revert b c. induction a as [|x a IH]; intros [|y b] [|z c]; cbn; try done.
  destruct (Z.ltb_spec x y), (Z.ltb_spec y x), (Z.ltb_spec y z),
    (Z.ltb_spec z y), (Z.ltb_spec x z), (Z.ltb_spec z x);
    try done; try lia.
  apply IH.
Qed.

Lemma tuple_lt_asym (a b : list Z) :
  tuple_lt a b = true → tuple_lt b a = false.
Proof.
  intros Hab. destruct (tuple_lt b a) eqn:Hba; [|done].
  by rewrite <- (tuple_lt_irrefl a), <- (tuple_lt_trans a b a Hab Hba).
Qed.

Lemma tuple_lt_antisym (a b : list Z) :
  tuple_lt a b = false → tuple_lt b a = false → a = b.
Proof.
  intros Hab Hba. destruct (tuple_lt_trichotomy a b) as [?|[?|?]]; congruence.
Qed.

(** [a <= b] and [b <= c] give [a <= c], with [x <= y] read as [¬ y < x]. *)
Lemma tuple_le_trans (a b c : list Z) :
  tuple_lt b a = false → tuple_lt c b = false → tuple_lt c a = false.
Proof.
  intros Hab Hbc. destruct (tuple_lt c a) eqn:Hca; [|done].
  destruct (tuple_lt_trichotomy b c) as [Hlt|[->|Hlt]]; [|congruence..].
  by rewrite (tuple_lt_trans b c a Hlt Hca) in Hab.
Qed.

Lemma insert_by_key_head (x : list Z * list Z) (l : list (list Z * list Z)) :
  head (insert_by_key x l)
  = Some (match head l with
          | Some y => if tuple_lt y.1 x.1 then y else x
          | None => x
          end).
Proof. destruct l as [|y l]; cbn; [done|]. by destruct (tuple_lt _ _). Qed.

(** The first element of the sorted list is an element of the list whose key
    no other key is smaller than. *)
Lemma sort_by_key_head (l : list (list Z * list Z)) :
  l ≠ [] →
  ∃ c, head (sort_by_key l) = Some c ∧ c ∈ l
       ∧ ∀ x, x ∈ l → tuple_lt x.1 c.1 = false.
Proof.
  induction l as [|x l IH]; [done|]. intros _. cbn [sort_by_key].
  rewrite insert_by_key_head.
  destruct l as [|y l].
  { exists x. cbn. split_and!; [done|apply list_elem_of_here|].
    intros ? ->%list_elem_of_singleton. apply tuple_lt_irrefl. }
  destruct IH as (c & -> & Hmem & Hmin); [done|].
  destruct (tuple_lt c.1 x.1) eqn:Hcx.
  - exists c. split_and!; [done|by apply list_elem_of_further|].
    intros z [->|Hz]%elem_of_cons; [by apply tuple_lt_asym | by apply Hmin].
  - exists x. split_and!; [done|apply list_elem_of_here|].
    intros z [->|Hz]%elem_of_cons; [apply tuple_lt_irrefl|].
    apply tuple_le_trans with c.1; [done | by apply Hmin].
Qed.


(** ** Rotations and the canonical rotation *)

Lemma rotation_cut (l : list Z) (k : Z) :
  rotation l k = drop (slice_bound l k) l ++ take (slice_bound l k) l.
Proof. done. Qed.

Lemma rotation_rot_split (l : list Z) (k : Z) : rot_split l (rotation l k).
Proof.
  exists (take (slice_bound l k) l), (drop (slice_bound l k) l).
  by rewrite take_drop.
Qed.

Lemma rotation_of_nat (l : list Z) (s : nat) :
  rotation l (Z.of_nat s) = drop s l ++ take s l.
Proof.
  unfold rotation, slice_from, slice_to, slice_bound.
  destruct (Z.ltb_spec (Z.of_nat s) 0); [lia|]. by rewrite Nat2Z.id.
Qed.

(** Every cut of a non-empty list is one of the rotations that
    [canonical_cycle] enumerates. *)
Lemma rot_split_rotation (l r : list Z) :
  rot_split l r → l ≠ [] →
  ∃ s : nat, (s < length l)%nat ∧ r = rotation l (Z.of_nat s).
Proof.
  intros (u & v & -> & ->) Hne. destruct v as [|x v].
  - exists 0%nat. rewrite rotation_of_nat, app_nil_r in *. cbn.
    rewrite app_nil_r. split; [|done].
    destruct u; [done|cbn; lia].
  - exists (length u). rewrite rotation_of_nat, length_app.
    rewrite drop_app_length, take_app_length. split; [cbn; lia|done].
Qed.

Lemma is_rotation_rot_split (a b : list Z) : is_rotation a b ↔ rot_split a b.
Proof.
  split.
  - intros [k ->]. apply rotation_rot_split.
  - intros H. destruct a as [|x a].
    + destruct H as (u & v & Huv & ->). exists 0.
      symmetry in Huv. apply app_eq_nil in Huv as [-> ->]. done.
    + destruct (rot_split_rotation _ _ H) as (s & _ & ->); [done|].
      by exists (Z.of_nat s).
Qed.

Lemma rot_split_refl (a : list Z) : rot_split a a.
Proof. exists [], a. by rewrite app_nil_r. Qed.

Lemma rot_split_sym (a b : list Z) : rot_split a b → rot_split b a.
Proof. intros (u & v & -> & ->). by exists v, u. Qed.

Lemma rot_split_trans (a b c : list Z) :
  rot_split a b → rot_split b c → rot_split a c.
Proof.
  intros (u & v & -> & ->) (u' & v' & Hcut & ->).
  apply app_eq_inv in Hcut as [(k & -> & ->)|(k & -> & ->)].
  - exists (u ++ u'), k. by rewrite <- !(assoc_L (++)).
  - exists k, (v' ++ v). by rewrite <- !(assoc_L (++)).
Qed.

Lemma rot_split_fmap (f : Z → Z) (a b : list Z) :
  rot_split a b → rot_split (f <$> a) (f <$> b).
Proof.
  intros (u & v & -> & ->). exists (f <$> u), (f <$> v).
  by rewrite !fmap_app.
Qed.

Lemma rot_split_space (by_abs : bool) (a b : list Z) :
  rot_split a b →
  rot_split (fingerprint_space by_abs a) (fingerprint_space by_abs b).
Proof. destruct by_abs; [apply rot_split_fmap | done]. Qed.

Lemma rot_split_nil (r : list Z) : rot_split [] r → r = [].
Proof.
  intros (u & v & Huv & ->). symmetry in Huv.
  by apply app_eq_nil in Huv as [-> ->].
Qed.

Lemma rot_split_elem_of (a b : list Z) (x : Z) :
  rot_split a b → x ∈ a → x ∈ b.
Proof.
  intros (u & v & -> & ->). rewrite !elem_of_app. tauto.
Qed.

Lemma rotation_fmap (f : Z → Z) (l : list Z) (k : Z) :
  rotation (f <$> l) k = f <$> rotation l k.
Proof.
  rewrite !rotation_cut. unfold slice_bound.
  by rewrite length_fmap, fmap_app, fmap_drop, fmap_take.
Qed.

(** The key of a candidate is a rotation of the cycle seen in the
    fingerprint space, and the value returned is that key. *)
Lemma candidates_of_spec (cyc : list Z) (by_abs : bool) (c : list Z * list Z) :
  c ∈ candidates_of cyc by_abs ↔
  ∃ s : nat, (s < length cyc)%nat
    ∧ c = (fingerprint_space by_abs (rotation cyc (Z.of_nat s)),
           rotation cyc (Z.of_nat s)).
Proof.
  unfold candidates_of. rewrite list_elem_of_fmap.
  split.
  - intros (s & -> & Hs%elem_of_seq). exists s. split; [lia|].
    by destruct by_abs.
  - intros (s & Hs & ->). exists s. rewrite elem_of_seq.
    split; [by destruct by_abs|lia].
Qed.

(** [canonical_cycle] never raises; it returns the least rotation of the
    cycle in the fingerprint space. *)
Lemma canonical_cycle_least (cyc : list Z) (by_abs : bool) :
  ∃ m, canonical_cycle cyc by_abs = Done m
       ∧ rot_split (fingerprint_space by_abs cyc) m
       ∧ ∀ r, rot_split (fingerprint_space by_abs cyc) r → tuple_lt r m = false.
Proof.
  unfold canonical_cycle. destruct cyc as [|x cyc].
  { exists []. cbn. split_and!; [done| |].
    - destruct by_abs; apply rot_split_refl.
    - intros r Hr. assert (r = []) as ->; [|done].
      destruct by_abs; by apply rot_split_nil. }
  set (l := x :: cyc). cbn [length Nat.eqb].
  destruct (sort_by_key_head (candidates_of l by_abs))
    as (c & Hhd & Hc & Hmin).
  { unfold candidates_of. done. }
  unfold py_index. rewrite <- head_lookup, Hhd. cbn.
  apply candidates_of_spec in Hc as (s & Hs & ->).
  exists (fingerprint_space by_abs (rotation l (Z.of_nat s))).
  split_and!.
  - by destruct by_abs.
  - apply rot_split_space, rotation_rot_split.
  - intros r Hr. apply rot_split_rotation in Hr as (s' & Hs' & ->).
    2:{ by destruct by_abs. }
    assert (Hlen : length (fingerprint_space by_abs l) = length l).
    { destruct by_abs; [apply length_fmap|done]. }
    rewrite Hlen in Hs'.
    replace (rotation (fingerprint_space by_abs l) (Z.of_nat s'))
      with (fingerprint_space by_abs (rotation l (Z.of_nat s')))
      by (destruct by_abs; [symmetry; apply rotation_fmap|done]).
    apply (Hmin (_, rotation l (Z.of_nat s'))).
    apply candidates_of_spec. eauto.
Qed.

(** Two cycles get the same fingerprint exactly when they are rotations of
    one another in the fingerprint space. *)
Lemma canonical_cycle_eq_iff (a b : list Z) (by_abs : bool) :
  canonical_cycle a by_abs = canonical_cycle b by_abs
  ↔ rot_split (fingerprint_space by_abs a) (fingerprint_space by_abs b).
Proof.
  destruct (canonical_cycle_least a by_abs) as (ma & -> & Ha & Hmina).
  destruct (canonical_cycle_least b by_abs) as (mb & -> & Hb & Hminb).
  split.
  - intros [= ->]. eapply rot_split_trans; [done|]. by apply rot_split_sym.
  - intros Hab. f_equal. apply tuple_lt_antisym.
    + apply Hminb. eapply rot_split_trans; [by apply rot_split_sym|done].
    + apply Hmina. eapply rot_split_trans; done.
Qed.


(** ** Gating and the closure of a walk *)

Lemma is_abs1_loop_from_cycle_total (cycle : list Z) (tag : string) :
  ∃ b, is_abs1_loop_from_cycle cycle tag = Done b.
Proof.
  unfold is_abs1_loop_from_cycle.
  destruct cycle as [|x [|y l]]; cbn; eauto.
  destruct ((x =? 1) || (x =? -1)); cbn; eauto.
Qed.

Lemma is_known_small_loop_total (cycle : list Z) :
  ∃ b, is_known_small_loop cycle = Done b.
Proof.
  unfold is_known_small_loop.
  destruct cycle as [|x [|y l]]; cbn; eauto.
  - destruct ((x =? 1) || (x =? -1)); cbn; eauto.
  - destruct (_ && _); eauto.
Qed.

(** The gate on a fixed point [[v]] with [v] one of [1] and [-1]. *)
Lemma is_abs1_fixed_point (v : Z) (tag : string) :
  v = 1 ∨ v = -1 →
  is_abs1_loop_from_cycle [v] tag = Done (is_a1_stable_domain tag v).
Proof. by intros [-> | ->]. Qed.

(** The closure never raises once the current value is in the dictionary, and
    its label is the gate's verdict on the cycle read off the log. *)
Lemma closure_spec (a : worker_args) (st : locals) (i : nat) :
  seen st !! n st = Some i →
  ∃ abs1 fp,
    is_abs1_loop_from_cycle (drop i (seq_log st)) (type_tag a) = Done abs1
    ∧ closure a st
      = Done (if abs1 : bool then "ABS1" else "NON-ABS1",
              if want_example a then Some (n0 a, drop i (seq_log st)) else None,
              hit1 st, fp,
              if fp is Some _ then Some (drop i (seq_log st)) else None).
Proof.
  intros Hi. unfold closure, py_getitem. rewrite Hi. cbn.
  destruct (is_abs1_loop_from_cycle_total (drop i (seq_log st)) (type_tag a))
    as [abs1 ->].
  cbn. exists abs1.
  destruct (is_known_small_loop_total (drop i (seq_log st))) as [known Hk].
  destruct (canonical_cycle_least (drop i (seq_log st)) (fp_abs a))
    as (m & Hm & _).
  destruct abs1, (report_cycles a), (want_example a); cbn;
    rewrite ?Hk; cbn; try (by exists None);
    destruct known; cbn; rewrite ?Hm; cbn;
    (by exists None) || (by exists (Some m)).
Qed.

(** ** Chains *)

Lemma chain_tail (T : Z → run Z) (x : Z) (l : list Z) :
  chain T (x :: l) → chain T l.
Proof. destruct l; [done|]. by intros [_ ?]. Qed.

Lemma chain_snoc (T : Z → run Z) (l : list Z) (x y : Z) :
  chain T (l ++ [x]) → T x = Done y → chain T ((l ++ [x]) ++ [y]).
Proof.
  intros Hl Hxy. induction l as [|z l IH]; [done|].
  destruct l as [|z' l]; cbn in *; [tauto|].
  split; [tauto|]. apply IH. tauto.
Qed.

Lemma chain_lookup (T : Z → run Z) (l : list Z) (i : nat) (x y : Z) :
  chain T l → l !! i = Some x → l !! S i = Some y → T x = Done y.
Proof.
  revert i. induction l as [|z l IH]; intros i Hl Hx Hy; [done|].
  destruct i as [|i].
  - destruct l; simplify_eq/=. tauto.
  - apply (IH i); [by eapply chain_tail|done..].
Qed.

Lemma chain_app_r (T : Z → run Z) (l1 l2 : list Z) :
  chain T (l1 ++ l2) → chain T l2.
Proof.
  induction l1 as [|x l1 IH]; [done|]. intros H. by eapply IH, chain_tail.
Qed.

Lemma chain_prefix (T : Z → run Z) (l1 l2 : list Z) :
  chain T l1 → chain T l2 → head l1 = head l2 → l1 ≠ [] →
  (length l1 ≤ length l2)%nat → l1 `prefix_of` l2.
Proof.
  revert l2. induction l1 as [|x l1 IH]; intros l2 H1 H2 Hhd Hne Hlen; [done|].
  destruct l2 as [|y l2]; [done|]. cbn in Hhd. injection Hhd as <-.
  destruct l1 as [|x1 l1]; [by exists l2|].
  destruct l2 as [|y1 l2]; [cbn in Hlen; lia|].
  destruct H1 as [Hx1 H1], H2 as [Hy1 H2].
  rewrite Hx1 in Hy1. injection Hy1 as <-.
  destruct (IH (x1 :: l2)) as [k Hk]; [done..|cbn in *; lia|].
  exists k. by rewrite Hk.
Qed.

Lemma chain_app (T : Z → run Z) (l1 l2 : list Z) (x : Z) :
  chain T (l1 ++ x :: l2) ↔ chain T (l1 ++ [x]) ∧ chain T (x :: l2).
Proof.
  induction l1 as [|y [|z l1] IH].
  - cbn [app]. split; [by split|by intros [_ ?]].
  - cbn. destruct l2; tauto.
  - change (chain T ((y :: z :: l1) ++ x :: l2))
      with (T y = Done z ∧ chain T ((z :: l1) ++ x :: l2)).
    change (chain T ((y :: z :: l1) ++ [x]))
      with (T y = Done z ∧ chain T ((z :: l1) ++ [x])).
    rewrite IH. tauto.
Qed.

Lemma chain_deterministic (T : Z → run Z) (l l' : list Z) :
  chain T l → chain T l' → head l = head l' → length l = length l' → l = l'.
Proof.
  intros H1 H2 Hhd Hlen.
  destruct l as [|x l].
  { by destruct l'. }
  destruct (chain_prefix T (x :: l) l') as [k Hk]; [done..|lia|].
  rewrite Hk in Hlen. rewrite length_app in Hlen.
  destruct k; [|cbn in Hlen; lia]. by rewrite app_nil_r in Hk.
Qed.

(** ** The walk and the worker *)

Section Walk.

Context (a : worker_args).

Lemma walk_start_inv :
  ∃ st, walk_start a = Done st ∧ walk_inv a st ∧ steps st = 0.
Proof.
  unfold walk_start.
  destruct (normalize_initial_odd (n0 a) (even_type a)) as (q & Hq & Hodd).
  rewrite Hq. cbn. eexists. split; [done|]. split; [|done].
  split_and!; [|done|by rewrite elem_of_nil].
  split; cbn; try done.
  - split; [|done]. by exists q.
  - apply NoDup_nil_2.
  - by apply Forall_singleton.
Qed.

Lemma head_snoc_snoc (l : list Z) (x y : Z) :
  head ((l ++ [x]) ++ [y]) = head (l ++ [x]).
Proof. by destruct l. Qed.

Lemma trajectory_snoc (l : list Z) (x y : Z) :
  trajectory a (l ++ [x]) → step a x = Done y →
  trajectory a ((l ++ [x]) ++ [y]).
Proof.
  intros [Hstart Hchain] Hxy. split.
  - by rewrite head_snoc_snoc.
  - by apply chain_snoc.
Qed.

(** Recording a fresh value keeps the dictionary the inverse of the log. *)
Lemma seen_snoc (seen : gmap Z nat) (log : list Z) (x : Z) :
  (∀ v i, seen !! v = Some i ↔ log !! i = Some v) →
  x ∉ log →
  ∀ v i, <[ x := length log ]> seen !! v = Some i
         ↔ (log ++ [x]) !! i = Some v.
Proof.
  intros Hseen Hx v i. rewrite lookup_snoc_Some.
  destruct (decide (v = x)) as [->|Hne].
  - rewrite lookup_insert_eq. split.
    + intros [= <-]. by right.
    + intros [[_ Hin]|[-> _]]; [|done].
      destruct Hx. apply list_elem_of_lookup. eauto.
  - rewrite lookup_insert_ne by done. rewrite Hseen.
    split; [intros; left; split; [by eapply lookup_lt_Some|done]|].
    intros [[_ ?]|[_ ?]]; done.
Qed.

(** One pass of the loop keeps the invariant, and [cap - steps] units of
    fuel bring the walk to its exit. *)
Lemma walk_spec (fuel : nat) (st : locals) :
  walk_inv a st →
  (Z.to_nat (cap a - steps st) ≤ fuel)%nat →
  ∃ e st', walk fuel a st = Done (e, st') ∧ walk_post a e st'
           ∧ steps st' ≤ Z.max (steps st) (cap a).
Proof.
  revert st.
  induction fuel as [|fuel IH]; intros st (Hlog & Hinsp & Hhit) Hfuel;
    cbn [walk]; destruct (Z.ltb_spec (steps st) (cap a)) as [Hlt|Hge];
    try lia.
  1, 3: by exists Exhausted, st; split; [|split; [|lia]].
  destruct Hlog as [Htraj Hnd Hseen Hsize Hodd Hsteps Haccel Hsafe].
  assert (Hhit' : (if n st =? 1 then true else hit1 st) = true
                  ↔ 1 ∈ seq_log st ++ [n st]).
  { rewrite elem_of_app, list_elem_of_singleton, <- Hinsp, <- Hhit.
    destruct (Z.eqb_spec (n st) 1); split; auto; try lia.
    intros [?|?]; [done|lia]. }
  unfold py_in. destruct (seen st !! n st) as [i|] eqn:Hlook.
  - eexists Closed, _. split; [done|]. rewrite Hinsp.
    split; [|cbn; lia]. unfold walk_post. cbn.
    split_and!; [by split|done|done| |done].
    apply Hseen in Hlook. apply list_elem_of_lookup. eauto.
  - assert (Hfresh : n st ∉ seq_log st).
    { intros [i Hi]%list_elem_of_lookup. apply Hseen in Hi. congruence. }
    assert (Hn : Z.odd (n st) = true).
    { apply Forall_app in Hodd as [_ Hn]. by rewrite Forall_singleton in Hn. }
    pose proof (proj1 (odd_mod2 _) Hn) as Hmod.
    destruct (Z.eqb_spec (n st mod 2) 0) as [?|_]; [by destruct Hmod|].
    destruct (T_step_accel_odd (n st) (even_type a) (odd_sign a))
      as (q & Hq & Hqodd).
    rewrite Hq. cbn [mbind run_bind].
    edestruct IH as (e & st' & Hwalk & Hpost & Hle); last first.
    { exists e, st'. split; [exact Hwalk|]. split; [exact Hpost|].
      cbn in Hle. lia. }
    + cbn. lia.
    + split; [|by cbn; rewrite Hinsp].
      split; cbn.
      * by apply trajectory_snoc.
      * apply NoDup_app. split_and!; [done| |apply NoDup_singleton].
        intros x Hx ->%list_elem_of_singleton. done.
      * by apply seen_snoc.
      * rewrite map_size_insert_None, length_app by done. cbn. lia.
      * apply Forall_app. split; [done|]. by apply Forall_singleton.
      * rewrite length_app. cbn. lia.
      * rewrite length_app. cbn. lia.
      * done.
Qed.

(** Fuel beyond [cap - steps] changes nothing. *)
Lemma walk_fuel_irrelevant (fuel fuel' : nat) (st : locals) :
  (Z.to_nat (cap a - steps st) ≤ fuel)%nat →
  (Z.to_nat (cap a - steps st) ≤ fuel')%nat →
  walk fuel a st = walk fuel' a st.
Proof.
  revert fuel' st.
  induction fuel as [|fuel IH]; intros [|fuel'] st H1 H2; cbn [walk];
    destruct (Z.ltb_spec (steps st) (cap a)); try done; try lia.
  destruct (py_in _ _); [done|].
  destruct (_ =? 0).
  - destruct (normalize_initial _ _); cbn; [|done..].
    apply IH; cbn; lia.
  - destruct (T_step_accel _ _ _); cbn; [|done..].
    apply IH; cbn; lia.
Qed.

(** The trace of the worker: it always reaches an exit of the loop. *)
Lemma worker_trace_spec (fuel : nat) :
  (Z.to_nat (cap a) ≤ fuel)%nat →
  ∃ e st, worker_trace fuel a = Done (e, st) ∧ walk_post a e st
          ∧ steps st ≤ Z.max 0 (cap a).
Proof.
  intros Hfuel. unfold worker_trace.
  destruct walk_start_inv as (st0 & -> & Hinv & Hsteps). cbn.
  destruct (walk_spec fuel st0 Hinv) as (e & st & Hwalk & Hpost & Hle).
  { rewrite Hsteps. by replace (cap a - 0) with (cap a) by lia. }
  exists e, st. rewrite Hsteps in Hle. done.
Qed.


(** What the worker returns, read off the exit of its loop. *)
Lemma worker_fuel_spec (fuel : nat) :
  (Z.to_nat (cap a) ≤ fuel)%nat →
  ∃ e st,
    worker_trace fuel a = Done (e, st) ∧ walk_post a e st
    ∧ steps st ≤ Z.max 0 (cap a)
    ∧ match e with
      | Closed =>
          ∃ i abs1 fp,
            seen st !! n st = Some i
            ∧ is_abs1_loop_from_cycle (drop i (seq_log st)) (type_tag a)
              = Done abs1
            ∧ worker_fuel fuel a
              = Done (if abs1 : bool then "ABS1" else "NON-ABS1",
                      if want_example a
                      then Some (n0 a, drop i (seq_log st)) else None,
                      hit1 st, fp,
                      if fp is Some _ then Some (drop i (seq_log st)) else None)
      | Exhausted => worker_fuel fuel a = Done ("CAP", None, hit1 st, None, None)
      end.
Proof.
  intros Hfuel.
  destruct (worker_trace_spec fuel Hfuel) as (e & st & Htrace & Hpost & Hle).
  exists e, st. split_and!; [done..|].
  unfold worker_fuel. rewrite Htrace. cbn.
  destruct e; [|done].
  destruct Hpost as (Hlog & _ & _ & Hin & _).
  apply list_elem_of_lookup in Hin as [i Hi].
  apply (inv_seen _ _ Hlog) in Hi.
  destruct (closure_spec a st i Hi) as (abs1 & fp & Habs & Hclo).
  by exists i, abs1, fp.
Qed.

Lemma worker_fuel_enough (fuel : nat) :
  (Z.to_nat (cap a) ≤ fuel)%nat → worker_fuel fuel a = worker a.
Proof.
  intros Hfuel. unfold worker, worker_fuel, worker_trace.
  destruct walk_start_inv as (st0 & -> & _ & Hsteps). cbn.
  rewrite (walk_fuel_irrelevant fuel (Z.to_nat (cap a)) st0);
    [done|rewrite Hsteps..]; replace (cap a - 0) with (cap a) by lia; lia.
Qed.

End Walk.

(** ** Cycles of a step function and their fingerprints *)

(** A cycle entered at another point is a cycle of the same step function. *)
Lemma cycle_of_rot_split (T : Z → run Z) (a b : list Z) :
  cycle_of T a → rot_split a b → cycle_of T b.
Proof.
  intros (f & Hhd & Hch) (u & v & -> & ->).
  destruct u as [|x u]; [by exists f; rewrite app_nil_r|].
  destruct v as [|y v]; [by exists f; rewrite app_nil_r in *|].
  cbn in Hhd. injection Hhd as <-.
  exists y. split; [done|].
  rewrite <- (assoc_L (++)) in Hch. cbn [app] in Hch.
  change (chain T ((x :: u) ++ y :: (v ++ [x]))) in Hch.
  apply chain_app in Hch as [Hu Hv].
  rewrite <- (assoc_L (++)).
  change (chain T ((y :: v) ++ x :: (u ++ [y]))).
  apply chain_app. split; done.
Qed.

(** Two cycles of one step function that agree at one position are equal. *)
Lemma cycles_agree (T : Z → run Z) (a b : list Z) (i : nat) (x : Z) :
  cycle_of T a → cycle_of T b → length a = length b →
  a !! i = Some x → b !! i = Some x → a = b.
Proof.
  intros Ha Hb Hlen Hai Hbi.
  pose proof (take_drop_middle _ _ _ Hai) as Hsa.
  pose proof (take_drop_middle _ _ _ Hbi) as Hsb.
  assert (Hra : cycle_of T (x :: drop (S i) a ++ take i a)).
  { apply (cycle_of_rot_split T a); [done|].
    exists (take i a), (x :: drop (S i) a). by rewrite Hsa. }
  assert (Hrb : cycle_of T (x :: drop (S i) b ++ take i b)).
  { apply (cycle_of_rot_split T b); [done|].
    exists (take i b), (x :: drop (S i) b). by rewrite Hsb. }
  destruct Hra as (? & [= <-] & Hca), Hrb as (? & [= <-] & Hcb).
  assert (Heq : (x :: drop (S i) a ++ take i a) ++ [x]
                = (x :: drop (S i) b ++ take i b) ++ [x]).
  { apply (chain_deterministic T); [done..|].
    rewrite !length_app. cbn. rewrite !length_app, !length_drop, !length_take.
    lia. }
  apply app_inj_tail in Heq as [Heq _]. injection Heq as Heq.
  apply app_inj_1 in Heq as [Hd Ht]; [|rewrite !length_drop; lia].
  by rewrite <- Hsa, <- Hsb, Hd, Ht.
Qed.

(** Lists with the same magnitudes agree at some position or are each other's
    negation. *)
Lemma abs_eq_dichotomy (a b : list Z) :
  Z.abs <$> a = Z.abs <$> b →
  (∃ i x, a !! i = Some x ∧ b !! i = Some x) ∨ b = Z.opp <$> a.
Proof.
  revert b. induction a as [|x a IH]; intros [|y b] Habs; try done.
  { by right. }
  injection Habs as Hxy Habs.
  destruct (decide (x = y)) as [->|Hne].
  { left. by exists 0%nat, y. }
  destruct (IH b Habs) as [(i & z & ? & ?)| ->].
  - left. by exists (S i), z.
  - right. cbn. f_equal. lia.
Qed.

(** Cycles of one step function with the same fingerprint are rotations of
    one another, up to the negation of every element under
    absolute-collapse. *)
Lemma closed_cycles_same_fingerprint (T : Z → run Z) (by_abs : bool)
    (a b : list Z) :
  cycle_of T a → cycle_of T b →
  canonical_cycle a by_abs = canonical_cycle b by_abs →
  is_rotation a b ∨ (by_abs = true ∧ is_rotation (Z.opp <$> a) b).
Proof.
  intros Ha Hb Heq. apply canonical_cycle_eq_iff in Heq.
  destruct by_abs; [|left; by apply is_rotation_rot_split].
  destruct Heq as (u & v & Hu & Hv). cbn in Hu, Hv.
  apply fmap_app_inv in Hu as (a1 & a2 & -> & -> & ->).
  apply fmap_app_inv in Hv as (b2 & b1 & Hb2 & Hb1 & ->).
  assert (Hb' : cycle_of T (b1 ++ b2)).
  { apply (cycle_of_rot_split T (b2 ++ b1)); [done|]. by exists b2, b1. }
  assert (Habs : Z.abs <$> (a1 ++ a2) = Z.abs <$> (b1 ++ b2)).
  { by rewrite !fmap_app, Hb1, Hb2. }
  destruct (abs_eq_dichotomy _ _ Habs) as [(i & x & Hai & Hbi)|Hopp].
  - left. apply is_rotation_rot_split.
    assert (a1 ++ a2 = b1 ++ b2) as ->.
    { apply (cycles_agree T _ _ i x); [done..| |done|done].
      apply (f_equal length) in Habs. by rewrite !length_fmap in Habs. }
    by exists b1, b2.
  - right. split; [done|]. apply is_rotation_rot_split.
    rewrite <- Hopp. by exists b1, b2.
Qed.

(** On lists that are not cycles of a step function the fingerprint by
    magnitudes tells less: [[1; -2]] and [[1; 2]], which no step of a run
    joins into a cycle, are not rotations of one another, with or without a
    negation, and have the same magnitudes. *)
Remark fingerprint_of_arbitrary_lists :
  structurally_distinct true [1; -2] [1; 2]
  ∧ canonical_cycle [1; -2] true = canonical_cycle [1; 2] true
  ∧ ∀ e s, ¬ cycle_of (fun x => T_step_accel x e s) [1; 2].
Proof.
  split_and!; [|reflexivity|].
  - split; [|intros _]; intros Hrot%is_rotation_rot_split.
    + apply (rot_split_elem_of _ _ (-2)) in Hrot.
      * rewrite !elem_of_cons, elem_of_nil in Hrot. lia.
      * rewrite !elem_of_cons. auto.
    + apply (rot_split_elem_of _ _ (-1)) in Hrot.
      * rewrite !elem_of_cons, elem_of_nil in Hrot. lia.
      * cbn. rewrite !elem_of_cons. auto.
  - intros e s (f & _ & H1 & _).
    destruct (T_step_accel_odd 1 e s) as (q & Hq & Hodd).
    rewrite Hq in H1. injection H1 as ->. done.
Qed.

(** A cycle the worker hands to [canonical_cycle] is a cycle of the step
    function of its run. *)
Lemma worker_cycle_closed (a : worker_args) (lab : string)
    (ex : option (Z * list Z)) (h : bool) (fp : option (list Z)) (c : list Z) :
  worker a = Done (lab, ex, h, fp, Some c) → cycle_of (step a) c.
Proof.
  intros Hw.
  destruct (worker_fuel_spec a (Z.to_nat (cap a)))
    as (e & st & _ & Hpost & _ & Hres); [done|].
  fold (worker a) in Hres. rewrite Hw in Hres.
  destruct e; [|simplify_eq].
  destruct Hres as (i & abs1 & fp' & Hi & _ & [= -> Hex -> -> Hcyc]).
  destruct fp'; [|done]. injection Hcyc as ->.
  destruct Hpost as ([[_ Hchain] _ Hseen _ _ _ _ _] & _).
  apply Hseen in Hi. exists (n st). split.
  - by rewrite head_lookup, lookup_drop, Nat.add_0_r.
  - rewrite <- (take_drop i (seq_log st)), <- (assoc_L (++)) in Hchain.
    by apply chain_app_r in Hchain.
Qed.

(** ** The values inspected along the trajectory *)

Lemma trajectory_prefix (a : worker_args) (l1 l2 : list Z) :
  trajectory a l1 → trajectory a l2 → (length l1 ≤ length l2)%nat →
  l1 `prefix_of` l2.
Proof.
  intros [(s1 & Hn1 & Hh1) Hc1] [(s2 & Hn2 & Hh2) Hc2] Hlen.
  apply (chain_prefix (step a)); [done..| |by destruct l1|done].
  congruence.
Qed.

(** A value of the trajectory that comes within the first [cap] and after
    pairwise distinct values is tested at the top of an iteration. *)
Lemma inspected_prefix (a : worker_args) (e : loop_exit) (st : locals)
    (l : list Z) (x : Z) :
  walk_post a e st → steps st ≤ Z.max 0 (cap a) →
  trajectory a (l ++ [x]) → Z.of_nat (length l) < cap a → NoDup l →
  (l ++ [x]) `prefix_of` inspected st.
Proof.
  intros (Hlog & _ & Hexit) Hle Htraj Hlen Hnd.
  pose proof (inv_steps _ _ Hlog) as Hsteps.
  pose proof (inv_traj _ _ Hlog) as Hlogtraj.
  destruct e.
  - destruct Hexit as (Hlt & Hin & ->).
    destruct (decide (length (l ++ [x]) ≤ length (seq_log st ++ [n st]))%nat)
      as [Hsmall|Hbig]; [by apply (trajectory_prefix a)|].
    destruct (trajectory_prefix a (seq_log st ++ [n st]) (l ++ [x]))
      as [k Hk]; [done|done|lia|].
    destruct (exists_last (l := k)) as (k' & y & ->).
    { intros ->. rewrite app_nil_r in Hk. by rewrite Hk in Hbig. }
    rewrite !(assoc_L (++)) in Hk. apply app_inj_tail in Hk as [-> _].
    apply NoDup_app in Hnd as (Hnd & _ & _).
    apply NoDup_app in Hnd as (_ & Hnd & _).
    destruct (Hnd (n st) Hin). apply list_elem_of_here.
  - destruct Hexit as (Hge & ->).
    apply (trajectory_prefix a _ (seq_log st ++ [n st])) in Htraj as [k Hk];
      [|exact Hlogtraj|].
    + assert (k ≠ []) as Hk'.
      { intros ->. rewrite app_nil_r in Hk. apply (f_equal length) in Hk.
        rewrite !length_app in Hk. cbn in Hk. lia. }
      destruct (exists_last Hk') as (k' & y & ->).
      rewrite (assoc_L (++)) in Hk. apply app_inj_tail in Hk as [-> _].
      by exists k'.
    + rewrite !length_app. cbn. lia.
Qed.

(** ** Properties of the specification *)

(** C3. From an odd integer, [T_step_accel] returns an odd integer without
    raising, in every configuration; every value the worker records in its
    log is odd, each advance of the walk is a call of [T_step_accel], and
    the safeguard branch for an even value is never taken. *)
Theorem accelerated_walk_stays_odd (a : worker_args) (x : Z) :
  Z.odd x = true →
  (∃ q, T_step_accel x (even_type a) (odd_sign a) = Done q ∧ Z.odd q = true)
  ∧ ∃ e st,
      worker_trace (Z.to_nat (cap a)) a = Done (e, st)
      ∧ Forall (fun v => Z.odd v = true) (seq_log st)
      ∧ accel_calls st = length (seq_log st)
      ∧ safeguard_calls st = 0%nat.
Proof.
  intros _. split; [apply T_step_accel_odd|].
  destruct (worker_trace_spec a (Z.to_nat (cap a))) as (e & st & Htr & Hpost & _);
    [done|].
  exists e, st. destruct Hpost as ([_ _ _ _ Hodd _ Haccel Hsafe] & _).
  apply Forall_app in Hodd as [Hodd _]. done.
Qed.

Lemma accelerated_walk_stays_odd_witness :
  (∃ q, T_step_accel 27 "B" (-1) = Done q ∧ Z.odd q = true)
  ∧ ∃ e st,
      worker_trace 40 (WorkerArgs 27 "B-1" "B" (-1) 40 true true false)
      = Done (e, st)
      ∧ Forall (fun v => Z.odd v = true) (seq_log st)
      ∧ accel_calls st = length (seq_log st)
      ∧ safeguard_calls st = 0%nat.
Proof.
  apply (accelerated_walk_stays_odd
           (WorkerArgs 27 "B-1" "B" (-1) 40 true true false) 27).
  reflexivity.
Defined.

(** C5. For a positive cap the worker returns without raising, with any fuel
    of at least [cap]; its loop calls the step function at most [cap] times,
    the dictionary and the log hold at most [cap] values, and the label is
    one of ABS1, NON-ABS1 and CAP. *)
Theorem worker_total_and_bounded (a : worker_args) :
  0 < cap a →
  ∃ lab ex h fp cyc e st,
    worker a = Done (lab, ex, h, fp, cyc)
    ∧ (∀ fuel, (Z.to_nat (cap a) ≤ fuel)%nat → worker_fuel fuel a = worker a)
    ∧ worker_trace (Z.to_nat (cap a)) a = Done (e, st)
    ∧ Z.of_nat (accel_calls st + safeguard_calls st) ≤ cap a
    ∧ Z.of_nat (size (seen st)) ≤ cap a
    ∧ Z.of_nat (length (seq_log st)) ≤ cap a
    ∧ (lab = "ABS1" ∨ lab = "NON-ABS1" ∨ lab = "CAP").
Proof.
  intros Hcap.
  destruct (worker_fuel_spec a (Z.to_nat (cap a)))
    as (e & st & Htr & Hpost & Hle & Hres); [done|].
  destruct Hpost as ([_ _ _ Hsize _ Hsteps Haccel Hsafe] & _).
  assert (Hbound : Z.of_nat (length (seq_log st)) ≤ cap a) by lia.
  destruct e.
  - destruct Hres as (i & abs1 & fp & _ & _ & Hw).
    eexists _, _, _, _, _, Closed, st. split; [exact Hw|].
    split_and!; [apply worker_fuel_enough|done|lia..|].
    destruct abs1; auto.
  - eexists _, _, _, _, _, Exhausted, st. split; [exact Hres|].
    split_and!; [apply worker_fuel_enough|done|lia..|auto].
Qed.

Lemma worker_total_and_bounded_witness :
  ∃ lab ex h fp cyc e st,
    worker (WorkerArgs 27 "W+1" "W" 1 200 false true false)
    = Done (lab, ex, h, fp, cyc)
    ∧ (∀ fuel, (Z.to_nat 200 ≤ fuel)%nat →
        worker_fuel fuel (WorkerArgs 27 "W+1" "W" 1 200 false true false)
        = worker (WorkerArgs 27 "W+1" "W" 1 200 false true false))
    ∧ worker_trace (Z.to_nat 200)
        (WorkerArgs 27 "W+1" "W" 1 200 false true false) = Done (e, st)
    ∧ Z.of_nat (accel_calls st + safeguard_calls st) ≤ 200
    ∧ Z.of_nat (size (seen st)) ≤ 200
    ∧ Z.of_nat (length (seq_log st)) ≤ 200
    ∧ (lab = "ABS1" ∨ lab = "NON-ABS1" ∨ lab = "CAP").
Proof.
  apply (worker_total_and_bounded
           (WorkerArgs 27 "W+1" "W" 1 200 false true false)).
  reflexivity.
Defined.

(** C4. A cycle returned by the worker, as the example or as the unknown
    cycle, is the part of the trajectory from the earlier occurrence of the
    first repeated value up to, and without, its second occurrence: the
    trajectory is [pre ++ c ++ [first]] with no repetition in [pre ++ c] and
    [first] the head of [c].  Its elements are pairwise distinct, and the step
    function takes its last element to its first. *)
Theorem closed_cycle_is_minimal_period (a : worker_args) (lab : string)
    (ex : option (Z * list Z)) (h : bool) (fp cyc : option (list Z))
    (c : list Z) :
  worker a = Done (lab, ex, h, fp, cyc) →
  (∃ s, ex = Some (s, c)) ∨ cyc = Some c →
  ∃ pre first lst,
    trajectory a (pre ++ c ++ [first])
    ∧ NoDup (pre ++ c)
    ∧ head c = Some first
    ∧ NoDup c
    ∧ last c = Some lst
    ∧ T_step_accel lst (even_type a) (odd_sign a) = Done first.
Proof.
  intros Hw Hc.
  destruct (worker_fuel_spec a (Z.to_nat (cap a)))
    as (e & st & _ & Hpost & _ & Hres); [done|].
  fold (worker a) in Hres. rewrite Hw in Hres.
  destruct e; [|destruct Hc as [[s ->]| ->]; simplify_eq].
  destruct Hres as (i & abs1 & fp' & Hi & _ & [= -> Hex -> -> Hcyc]).
  destruct Hpost as ([[Hstart Hchain] Hnd Hseen _ _ _ _ _] & _).
  assert (c = drop i (seq_log st)) as ->.
  { destruct Hc as [[s ->]| ->].
    - by destruct (want_example a); simplify_eq.
    - by destruct fp'; simplify_eq. }
  clear Hc Hex Hcyc Hw. apply Hseen in Hi.
  assert (Hsplit : ∃ pre, seq_log st = pre ++ drop i (seq_log st))
    by (exists (take i (seq_log st)); by rewrite take_drop).
  destruct Hsplit as [pre Hsplit].
  assert (Hhd : head (drop i (seq_log st)) = Some (n st)).
  { by rewrite head_lookup, lookup_drop, Nat.add_0_r. }
  destruct (drop i (seq_log st)) as [|x c] eqn:Hdrop; [done|].
  destruct (exists_last (l := x :: c)) as (c' & lst & Hlast); [done|].
  exists pre, (n st), lst.
  rewrite (assoc_L (++)), <- Hsplit.
  split_and!; [split| | | | |]; try done.
  - by rewrite Hsplit in Hnd; apply NoDup_app in Hnd as (_ & _ & ?).
  - rewrite Hlast. apply last_snoc.
  - apply (chain_lookup (step a) (seq_log st ++ [n st])
                        (length (pre ++ c')));
      [done|rewrite Hsplit, Hlast..].
    + rewrite !(assoc_L (++)), <- (assoc_L (++)).
      apply list_lookup_middle. done.
    + rewrite !(assoc_L (++)).
      rewrite (list_lookup_middle _ [] (n st)); [done|].
      rewrite !length_app. cbn. lia.
Qed.

Lemma closed_cycle_is_minimal_period_witness :
  ∃ pre first lst,
    trajectory (WorkerArgs 34 "W-1" "W" (-1) 100 true true false)
               (pre ++ [17; 25; 37; 55; 41; 61; 91] ++ [first])
    ∧ NoDup (pre ++ [17; 25; 37; 55; 41; 61; 91])
    ∧ head [17; 25; 37; 55; 41; 61; 91] = Some first
    ∧ NoDup [17; 25; 37; 55; 41; 61; 91]
    ∧ last [17; 25; 37; 55; 41; 61; 91] = Some lst
    ∧ T_step_accel lst "W" (-1) = Done first.
Proof.
  apply (closed_cycle_is_minimal_period
           (WorkerArgs 34 "W-1" "W" (-1) 100 true true false)
           "NON-ABS1" (Some (34, [17; 25; 37; 55; 41; 61; 91])) false
           (Some [17; 25; 37; 55; 41; 61; 91])
           (Some [17; 25; 37; 55; 41; 61; 91])).
  - vm_compute. reflexivity.
  - right. reflexivity.
Defined.

(** C1. Attractor gating.  In each of the four configurations, on a cycle
    [[v]] with [v] one of [1] and [-1] the gate answers whether the fixed
    point is domain-stable, and a walk that closes on [[v]] is labelled ABS1
    when it is stable and NON-ABS1 otherwise: under Bridge both fixed points
    give ABS1; under Wall only the fixed point equal to the sign does. *)
Theorem attractor_gating (a : worker_args) (v : Z) :
  sweep_config a →
  v = 1 ∨ v = -1 →
  is_abs1_loop_from_cycle [v] (type_tag a)
  = Done (domain_stable (even_type a) (odd_sign a) v)
  ∧ ∃ e st,
      worker_trace (Z.to_nat (cap a)) a = Done (e, st)
      ∧ (e = Closed → closed_cycle st = [v] →
         ∃ ex fp cyc,
           worker a
           = Done (if domain_stable (even_type a) (odd_sign a) v
                   then "ABS1" else "NON-ABS1",
                   ex, hit1 st, fp, cyc)).
Proof.
  intros [Htag Hparse] Hv.
  assert (Hgate : is_abs1_loop_from_cycle [v] (type_tag a)
                  = Done (domain_stable (even_type a) (odd_sign a) v)).
  { rewrite is_abs1_fixed_point by done.
    repeat (apply elem_of_cons in Htag as [Htag|Htag]);
      [..|by apply elem_of_nil in Htag];
      rewrite Htag in *; injection Hparse as <- <-;
      by destruct Hv as [-> | ->]. }
  split; [done|].
  destruct (worker_fuel_spec a (Z.to_nat (cap a)))
    as (e & st & Htr & _ & _ & Hres); [done|].
  exists e, st. split; [done|]. intros -> Hcyc.
  destruct Hres as (i & abs1 & fp & Hi & Habs & Hw).
  unfold closed_cycle in Hcyc. rewrite Hi in Hcyc.
  rewrite Hcyc, Hgate in Habs. injection Habs as <-.
  unfold worker. rewrite Hw. eauto.
Qed.

Lemma attractor_gating_witness :
  is_abs1_loop_from_cycle [-1] "W+1" = Done (domain_stable "W" 1 (-1))
  ∧ ∃ e st,
      worker_trace (Z.to_nat 50)
        (WorkerArgs (-1) "W+1" "W" 1 50 false true false) = Done (e, st)
      ∧ (e = Closed → closed_cycle st = [-1] →
         ∃ ex fp cyc,
           worker (WorkerArgs (-1) "W+1" "W" 1 50 false true false)
           = Done (if domain_stable "W" 1 (-1) then "ABS1" else "NON-ABS1",
                   ex, hit1 st, fp, cyc)).
Proof.
  apply (attractor_gating
           (WorkerArgs (-1) "W+1" "W" 1 50 false true false) (-1)).
  - split; [apply list_elem_of_here | reflexivity].
  - right. reflexivity.
Defined.

(** C9. Under Bridge with sign [+1] and cap 50, the start 1 is normalised to
    1, the walk closes at once on the cycle [[1]], and the worker returns
    ABS1 with hit1 true; the start 0 is normalised to 1 and gives the same
    label, cycle and flag. *)
Theorem bridge_plus_one_scenario (want report by_abs : bool) :
  normalize_initial 1 "B" = Done 1
  ∧ normalize_initial 0 "B" = Done 1
  ∧ parse_type "B+1" = Done ("B", 1)
  ∧ worker (WorkerArgs 1 "B+1" "B" 1 50 want report by_abs)
    = Done ("ABS1", if want then Some (1, [1]) else None, true, None, None)
  ∧ worker (WorkerArgs 0 "B+1" "B" 1 50 want report by_abs)
    = Done ("ABS1", if want then Some (0, [1]) else None, true, None, None)
  ∧ (∃ st, worker_trace (Z.to_nat 50)
             (WorkerArgs 1 "B+1" "B" 1 50 want report by_abs)
           = Done (Closed, st)
           ∧ seq_log st = [1] ∧ closed_cycle st = [1] ∧ steps st = 1)
  ∧ (∃ st, worker_trace (Z.to_nat 50)
             (WorkerArgs 0 "B+1" "B" 1 50 want report by_abs)
           = Done (Closed, st)
           ∧ seq_log st = [1] ∧ closed_cycle st = [1] ∧ steps st = 1).
Proof.
  split_and!; try reflexivity.
  - destruct want, report, by_abs; vm_compute; reflexivity.
  - destruct want, report, by_abs; vm_compute; reflexivity.
  - eexists; (split; [vm_compute; reflexivity|]);
      split_and!; vm_compute; reflexivity.
  - eexists; (split; [vm_compute; reflexivity|]);
      split_and!; vm_compute; reflexivity.
Qed.

(** C10. The flag hit1 is true exactly when 1 is among the values inspected
    at the top of the loop iterations.  When the loop closes these are the
    log followed by the repeated value, at most [cap] values of the
    trajectory; when it runs out of steps they are the log, exactly [cap]
    pairwise distinct values, one per call of the step function, and the
    value the last call produced follows them on the trajectory without
    having been inspected.  So a value 1 of the trajectory that is inspected
    (it comes within the first [cap] values, after pairwise distinct ones)
    sets the flag, and a trajectory of [cap] distinct values other than 1
    gives CAP with hit1 false whatever the value after them is. *)
Theorem hit1_ignores_final_value (a : worker_args) :
  ∃ e st,
    worker_trace (Z.to_nat (cap a)) a = Done (e, st)
    ∧ (hit1 st = true ↔ 1 ∈ inspected st)
    ∧ Z.of_nat (length (inspected st)) ≤ Z.max 0 (cap a)
    ∧ (∃ lab ex fp cyc, worker a = Done (lab, ex, hit1 st, fp, cyc))
    ∧ (e = Exhausted →
       inspected st = seq_log st
       ∧ trajectory a (inspected st ++ [n st])
       ∧ worker a = Done ("CAP", None, hit1 st, None, None)
       ∧ (1 ∉ inspected st →
          worker a = Done ("CAP", None, false, None, None)))
    ∧ (e = Exhausted →
       Z.of_nat (length (inspected st)) = Z.max 0 (cap a)
       ∧ NoDup (inspected st)
       ∧ accel_calls st = length (inspected st))
    ∧ (e = Closed →
       inspected st = seq_log st ++ [n st]
       ∧ trajectory a (inspected st)
       ∧ NoDup (seq_log st) ∧ n st ∈ seq_log st
       ∧ accel_calls st = length (seq_log st))
    ∧ (∀ l x, trajectory a (l ++ [x]) → Z.of_nat (length l) < cap a →
         NoDup l → 1 ∈ l ++ [x] →
         ∃ lab ex fp cyc, worker a = Done (lab, ex, true, fp, cyc))
    ∧ (∀ l v, trajectory a (l ++ [v]) → Z.of_nat (length l) = cap a →
         NoDup l → 1 ∉ l →
         worker a = Done ("CAP", None, false, None, None)).
Proof.
  destruct (worker_fuel_spec a (Z.to_nat (cap a)))
    as (e & st & Htr & Hpost & Hle & Hres); [done|].
  exists e, st. pose proof Hpost as (Hlog & Hhit & Hexit).
  pose proof (inv_steps _ _ Hlog) as Hsteps.
  assert (Hret : ∃ lab ex fp cyc, worker a = Done (lab, ex, hit1 st, fp, cyc)).
  { destruct e; [destruct Hres as (? & ? & ? & _ & _ & Hw)|]; eauto. }
  split_and!; [done|done| |done| | | | |].
  - destruct e; destruct Hexit as (? & Hinsp); [destruct Hinsp as [_ Hinsp]|];
      rewrite Hinsp, ?length_app; cbn; lia.
  - intros ->. destruct Hexit as [_ Hinsp]. rewrite Hinsp.
    split_and!; [done|apply Hlog|done|].
    intros Hno. fold (worker a) in Hres. rewrite Hres.
    destruct (hit1 st); [|done].
    destruct Hno. rewrite <- Hinsp. by apply Hhit.
  - intros ->. destruct Hexit as [Hge Hinsp]. rewrite Hinsp.
    split_and!; [lia|apply Hlog|apply Hlog].
  - intros ->. destruct Hexit as (Hlt & Hin & Hinsp). rewrite Hinsp.
    split_and!; [done|apply Hlog|apply Hlog|done|apply Hlog].
  - intros l x Htraj Hlen Hnd H1.
    destruct (inspected_prefix a e st l x Hpost Hle Htraj Hlen Hnd) as [k Hk].
    assert (Hh : hit1 st = true).
    { apply Hhit. rewrite Hk. apply elem_of_app. by left. }
    by rewrite <- Hh.
  - intros l v Htraj Hlen Hnd H1.
    assert (Hinsp : e = Exhausted ∧ inspected st = l).
    { destruct (decide (l = [])) as [->|Hne].
      - cbn in Hlen. destruct e.
        + destruct Hexit as (Hlt & _). lia.
        + destruct Hexit as (_ & Hinsp). split; [done|].
          rewrite Hinsp. apply nil_length_inv. lia.
      - destruct (exists_last Hne) as (l0 & x & ->).
        assert (Htraj0 : trajectory a (l0 ++ [x])).
        { destruct Htraj as [(s & Hs & Hhd) Hch]. split.
          - exists s. split; [done|]. by destruct l0.
          - rewrite <- (assoc_L (++)) in Hch.
            apply chain_app in Hch as [Hch _]. done. }
        rewrite length_app in Hlen. cbn in Hlen.
        apply NoDup_app in Hnd as (Hnd0 & Hx & _).
        destruct (inspected_prefix a e st l0 x Hpost Hle Htraj0) as [k Hk];
          [lia|done|].
        destruct e.
        + destruct Hexit as (Hlt & Hin & Hinsp).
          assert (k = []) as ->.
          { apply (f_equal length) in Hk. rewrite Hinsp in Hk.
            rewrite !length_app in Hk. cbn in Hk.
            destruct k; [done|cbn in Hk; lia]. }
          rewrite app_nil_r, Hinsp in Hk.
          apply app_inj_tail in Hk as [Hk <-].
          rewrite Hk in Hin. destruct (Hx (n st) Hin). apply list_elem_of_here.
        + destruct Hexit as (Hge & Hinsp). split; [done|].
          assert (k = []) as ->; [|by rewrite app_nil_r in Hk].
          apply (f_equal length) in Hk. rewrite Hinsp in Hk.
          rewrite !length_app in Hk. cbn in Hk.
          destruct k; [done|cbn in Hk; lia]. }
    destruct Hinsp as [-> Hinsp]. fold (worker a) in Hres. rewrite Hres.
    destruct (hit1 st) eqn:Hh; [|done].
    destruct H1. rewrite <- Hinsp. by apply Hhit.
Qed.

Lemma hit1_ignores_final_value_witness :
  worker (WorkerArgs 5 "W+1" "W" 1 1 true true false)
  = Done ("CAP", None, false, None, None)
  ∧ T_step_accel 5 "W" 1 = Done 1
  ∧ ∃ lab ex fp cyc,
      worker (WorkerArgs 5 "W+1" "W" 1 2 true true false)
      = Done (lab, ex, true, fp, cyc).
Proof.
  split_and!; [|reflexivity|].
  - destruct (hit1_ignores_final_value
                (WorkerArgs 5 "W+1" "W" 1 1 true true false))
      as (e & st & _ & _ & _ & _ & _ & _ & _ & _ & Hcap).
    apply (Hcap [5] 1).
    + split; [by exists 5|]. cbn. split; reflexivity.
    + reflexivity.
    + apply NoDup_singleton.
    + intros [H|H]%elem_of_cons; [lia|by apply elem_of_nil in H].
  - destruct (hit1_ignores_final_value
                (WorkerArgs 5 "W+1" "W" 1 2 true true false))
      as (e & st & _ & _ & _ & _ & _ & _ & _ & Hhit & _).
    apply (Hhit [5] 1).
    + split; [by exists 5|]. cbn. split; reflexivity.
    + reflexivity.
    + apply NoDup_singleton.
    + cbn. rewrite !elem_of_cons. auto.
Defined.

(** C6. [canonical_cycle] gives a cycle and each of its rotations the same
    fingerprint, for every rotation amount (negative and out-of-range amounts
    included, as Python slices take them) and either value of [by_abs]. *)
Theorem canonical_cycle_rotation_invariant (cyc : list Z) (k : Z)
    (by_abs : bool) :
  canonical_cycle cyc by_abs = canonical_cycle (rotation cyc k) by_abs.
Proof.
  apply canonical_cycle_eq_iff, rot_split_space, rotation_rot_split.
Qed.

(** C7. With [by_abs] set, a cycle and its element-wise negation have the
    same fingerprint. *)
Theorem canonical_cycle_mirror_invariant (cyc : list Z) :
  canonical_cycle cyc true = canonical_cycle (Z.opp <$> cyc) true.
Proof.
  apply canonical_cycle_eq_iff. cbn.
  rewrite <- list_fmap_compose.
  rewrite (list_fmap_ext (Z.abs ∘ Z.opp) Z.abs cyc).
  - apply rot_split_refl.
  - intros _ x _. apply Z.abs_opp.
Qed.

(** C2. Two structurally distinct cycles of one step function (not rotations
    of one another and, under absolute-collapse, not rotations of one another
    after negating every element) get different fingerprints, and every
    rotation of a cycle gets the fingerprint of the cycle. *)
Theorem fingerprint_uniqueness (T : Z → run Z) (by_abs : bool)
    (a b : list Z) (k : Z) :
  cycle_of T a → cycle_of T b →
  structurally_distinct by_abs a b →
  canonical_cycle a by_abs ≠ canonical_cycle b by_abs
  ∧ canonical_cycle (rotation a k) by_abs = canonical_cycle a by_abs.
Proof.
  intros Ha Hb [Hrot Hneg]. split.
  - intros Heq.
    destruct (closed_cycles_same_fingerprint T by_abs a b Ha Hb Heq)
      as [?|[? ?]]; [done|by apply Hneg].
  - apply canonical_cycle_eq_iff, rot_split_space, rot_split_sym,
      rotation_rot_split.
Qed.

Lemma fingerprint_uniqueness_witness :
  canonical_cycle [5; 7] true
  ≠ canonical_cycle [17; 25; 37; 55; 41; 61; 91] true
  ∧ canonical_cycle (rotation [5; 7] 1) true = canonical_cycle [5; 7] true.
Proof.
  apply (fingerprint_uniqueness (fun x => T_step_accel x "W" (-1)) true
           [5; 7] [17; 25; 37; 55; 41; 61; 91] 1).
  - exists 5. split; [reflexivity|]. cbn. repeat split; reflexivity.
  - exists 17. split; [reflexivity|]. cbn. repeat split; reflexivity.
  - split; [|intros _]; intros Hrot%is_rotation_rot_split.
    + apply (rot_split_elem_of _ _ 5) in Hrot.
      * rewrite !elem_of_cons, elem_of_nil in Hrot. lia.
      * rewrite !elem_of_cons. auto.
    + apply (rot_split_elem_of _ _ (-5)) in Hrot.
      * rewrite !elem_of_cons, elem_of_nil in Hrot. lia.
      * cbn. rewrite !elem_of_cons. auto.
Defined.

(** C8.  A parallel sweep without examples over the single start 5 under
    W-1 finds the unknown cycle [[5; 7]] and registers it with an empty
    sample list, and a second discovery (from the start 7) raises the count
    and still adds no sample, where the sequential sweep over the same range
    registers the start 5; and with a capacity of zero the first discovery
    still stores one sample. *)
Theorem parallel_sweep_registers_no_sample :
  (st ← run_sweep shipped_settings 5 5 "W-1" 1000 false true [5];
   Done (cycle_registry st !! [5; 7]))
  = Done (Some (CycleInfo 1 2 [] [5; 7]))
  ∧ (st ← run_sweep shipped_settings 5 7 "W-1" 1000 false true [5; 6; 7];
     Done (cycle_registry st !! [5; 7]))
    = Done (Some (CycleInfo 2 2 [] [5; 7]))
  ∧ (st ← run_sweep shipped_settings 5 5 "W-1" 1000 false false [];
     Done (cycle_registry st !! [5; 7]))
    = Done (Some (CycleInfo 1 2 [5] [5; 7]))
  ∧ (st ← run_sweep (Settings 0 true false) 5 5 "W-1" 1000 false false [];
     Done (cycle_registry st !! [5; 7]))
    = Done (Some (CycleInfo 1 2 [5] [5; 7])).
Proof. split_and!; vm_compute; reflexivity. Qed.

(** ** Further properties: arithmetic *)

Lemma pow2_pos (k : Z) : 0 ≤ k → 0 < 2 ^ k.
Proof. intros. apply Z.pow_pos_nonneg; lia. Qed.

Lemma odd_not_even_multiple (q c : Z) : Z.odd q = true → q ≠ 2 * c.
Proof. intros Hq ->. by rewrite Z.odd_mul in Hq. Qed.

(** X1. [v2] is the 2-adic valuation of its docstring: for a non-zero [x],
    [2^k] divides [x] exactly when [k <= v2(x)]. *)
Theorem v2_largest_power (x k : Z) :
  x ≠ 0 → 0 ≤ k → ((2 ^ k | x) ↔ k ≤ v2 x).
Proof.
  intros Hx Hk. destruct (v2_spec x Hx) as (q & Hv & Hq & Heq).
  remember (v2 x) as v eqn:Ev. clear Ev.
  split.
  - intros [c Hc]. destruct (Z.le_gt_cases k v) as [?|Hgt]; [done|].
    exfalso. apply (odd_not_even_multiple q (c * 2 ^ (k - v - 1)) Hq).
    pose proof (pow2_pos v Hv) as Hpos.
    apply (Z.mul_reg_r _ _ (2 ^ v)); [lia|].
    rewrite <- Heq, Hc.
    replace k with ((k - v - 1) + 1 + v) at 1 by lia.
    rewrite !Z.pow_add_r by lia. change (2 ^ 1) with 2. ring.
  - intros Hle. exists (q * 2 ^ (v - k)).
    rewrite Heq at 1. rewrite <- Z.mul_assoc, <- Z.pow_add_r by lia.
    do 2 f_equal. lia.
Qed.

Lemma v2_largest_power_witness : (2 ^ 3 | -40) ↔ 3 ≤ v2 (-40).
Proof. apply (v2_largest_power (-40) 3); lia. Defined.

Lemma v2_opp (x : Z) : v2 (- x) = v2 x.
Proof. unfold v2. by rewrite Z.abs_opp. Qed.

Lemma truthy_land_1 (k : Z) : truthy (Z.land k 1) = Z.odd k.
Proof.
  unfold truthy. change 1 with (Z.ones 1). rewrite Z.land_ones by lia.
  change (2 ^ 1) with 2. rewrite Zmod_odd. by destruct (Z.odd k).
Qed.

Lemma pow_opp_2 (k : Z) :
  0 ≤ k → (-2) ^ k = if Z.odd k then - 2 ^ k else 2 ^ k.
Proof.
  intros Hk. change (-2) with (Z.opp 2). destruct (Z.odd k) eqn:Hodd.
  - apply Z.pow_opp_odd. by apply Z.odd_spec.
  - apply Z.pow_opp_even. apply Z.even_spec. by rewrite <- Z.negb_odd, Hodd.
Qed.

(** The operators with their zero case: the full power of two is removed
    from [3m + 1] and [3m - 1], zero included. *)
Lemma O_plus_exact (m : Z) :
  ∃ q, O_plus m = Done q ∧ Z.odd q = true
       ∧ 3 * m + 1 = q * 2 ^ v2 (3 * m + 1).
Proof.
  unfold O_plus. destruct (Z.eqb_spec m 0) as [->|Hm]; [by exists 1|].
  apply strip_twos. lia.
Qed.

Lemma O_minus_exact (m : Z) :
  ∃ q, O_minus m = Done q ∧ Z.odd q = true
       ∧ 3 * m - 1 = q * 2 ^ v2 (3 * m - 1).
Proof.
  unfold O_minus. destruct (Z.eqb_spec m 0) as [->|Hm]; [by exists (-1)|].
  apply strip_twos. lia.
Qed.

(** The sign the step function works with: [+1] for [odd_sign == +1], and
    [-1] for every other value. *)
Lemma step_operator (n s : Z) :
  ∃ q, (if s =? 1 then O_plus n else O_minus n) = Done q
       ∧ Z.odd q = true
       ∧ 3 * n + (if s =? 1 then 1 else -1)
         = q * 2 ^ v2 (3 * n + (if s =? 1 then 1 else -1)).
Proof.
  destruct (s =? 1); [apply O_plus_exact|].
  replace (3 * n + -1) with (3 * n - 1) by lia. apply O_minus_exact.
Qed.

Lemma T_step_accel_exact (n : Z) (e : string) (s : Z) :
  ∃ q, T_step_accel n e s = Done q ∧ Z.odd q = true
       ∧ 3 * n + (if s =? 1 then 1 else -1)
         = q * (if (e =? "W")%string then 2 else -2)
               ^ v2 (3 * n + (if s =? 1 then 1 else -1)).
Proof.
  unfold T_step_accel.
  destruct (step_operator n s) as (q & -> & Hq & Heq). cbn.
  set (x := 3 * n + (if s =? 1 then 1 else -1)) in *.
  destruct (e =? "W")%string; [by exists q|].
  rewrite truthy_land_1, pow_opp_2 by apply v2_nonneg.
  destruct (Z.odd (v2 x)).
  - exists (- q). rewrite Z.odd_opp. split_and!; [done..|lia].
  - by exists q.
Qed.

(** X2. Each accelerated operator returns the odd part of its argument's
    image: [O_plus(m)] is [(3m+1) / 2^v2(3m+1)] and [O_minus(m)] is
    [(3m-1) / 2^v2(3m-1)], exactly and for every integer; the zero cases of
    the odd-zero convention agree with the formula. *)
Theorem accelerated_operators_exact (m : Z) :
  (∃ q, O_plus m = Done q ∧ Z.odd q = true
        ∧ 3 * m + 1 = q * 2 ^ v2 (3 * m + 1))
  ∧ (∃ q, O_minus m = Done q ∧ Z.odd q = true
          ∧ 3 * m - 1 = q * 2 ^ v2 (3 * m - 1)).
Proof. split; [apply O_plus_exact | apply O_minus_exact]. Qed.

(** X3. One accelerated step undoes one odd step and all the even steps that
    follow: with [s] the sign used and [k = v2(3n + s)], the result [q] is odd
    and [3n + s = q * 2^k] under Wall, [3n + s = q * (-2)^k] under Bridge
    (every shape other than ["W"] steps as Bridge, every sign other than
    [+1] as [-1]). *)
Theorem T_step_accel_factorisation (n : Z) (e : string) (s : Z) :
  ∃ q, T_step_accel n e s = Done q ∧ Z.odd q = true
       ∧ 3 * n + (if s =? 1 then 1 else -1)
         = q * (if (e =? "W")%string then 2 else -2)
               ^ v2 (3 * n + (if s =? 1 then 1 else -1)).
Proof. apply T_step_accel_exact. Qed.

(** X4. [normalize_initial] strips the even phase of a non-zero start: the
    result [q] is odd, [n0 = q * 2^v2(n0)] under Wall (every shape other than
    ["B"]) and [n0 = q * (-2)^v2(n0)] under Bridge, and normalising [q] again
    returns [q]. *)
Theorem normalize_initial_factorisation (n0 : Z) (e : string) :
  n0 ≠ 0 →
  ∃ q, normalize_initial n0 e = Done q ∧ Z.odd q = true
       ∧ n0 = q * (if (e =? "B")%string then -2 else 2) ^ v2 n0
       ∧ normalize_initial q e = Done q.
Proof.
  intros Hn0.
  assert (Hidem : ∀ q, Z.odd q = true → normalize_initial q e = Done q).
  { intros q Hq. unfold normalize_initial.
    destruct (Z.eqb_spec q 0) as [->|_]; [done|].
    apply odd_mod2 in Hq. by destruct (Z.eqb_spec (q mod 2) 0). }
  unfold normalize_initial at 1.
  destruct (Z.eqb_spec n0 0) as [?|_]; [done|].
  destruct (strip_twos n0 Hn0) as (q & Hstrip & Hq & Heq).
  destruct (Z.eqb_spec (n0 mod 2) 0) as [Hev|Hodd].
  - unfold mbind, run_bind in *.
    destruct (py_lshift 1 (v2 n0)) as [d| |]; [|done..].
    rewrite Hstrip, truthy_land_1.
    destruct (e =? "B")%string; cbn.
    + rewrite pow_opp_2 by apply v2_nonneg. destruct (Z.odd (v2 n0)).
      * exists (- q). rewrite Z.odd_opp.
        split_and!; [done..|lia|apply Hidem; by rewrite Z.odd_opp].
      * exists q. split_and!; auto.
    + exists q. split_and!; auto.
  - assert (Hn0odd : Z.odd n0 = true) by by apply odd_mod2.
    assert (Hv : v2 n0 = 0).
    { destruct (Z.eq_dec (v2 n0) 0) as [?|Hne]; [done|].
      pose proof (v2_nonneg n0). exfalso.
      apply (odd_not_even_multiple n0 (q * 2 ^ (v2 n0 - 1)) Hn0odd).
      rewrite Heq at 1. replace (v2 n0) with ((v2 n0 - 1) + 1) at 1 by lia.
      rewrite Z.pow_add_r by lia. change (2 ^ 1) with 2. ring. }
    exists n0. rewrite Hv, Z.pow_0_r. split_and!; [done..|lia|by apply Hidem].
Qed.

Lemma normalize_initial_factorisation_witness :
  ∃ q, normalize_initial (-40) "B" = Done q ∧ Z.odd q = true
       ∧ -40 = q * (if ("B" =? "B")%string then -2 else 2) ^ v2 (-40)
       ∧ normalize_initial q "B" = Done q.
Proof. apply (normalize_initial_factorisation (-40) "B"). lia. Defined.

(** The odd part of a non-zero integer changes sign with the integer. *)
Lemma strip_twos_opp (x q : Z) :
  x ≠ 0 →
  (d ← py_lshift 1 (v2 x); py_floordiv x d) = Done q →
  (d ← py_lshift 1 (v2 (- x)); py_floordiv (- x) d) = Done (- q).
Proof.
  intros Hx Hq.
  destruct (strip_twos x Hx) as (q1 & Hq1 & _ & Heq1).
  destruct (strip_twos (- x)) as (q2 & Hq2 & _ & Heq2); [lia|].
  rewrite Hq1 in Hq. injection Hq as ->. rewrite Hq2. f_equal.
  rewrite v2_opp in Heq2. pose proof (pow2_pos (v2 x) (v2_nonneg x)).
  apply (Z.mul_reg_r _ _ (2 ^ v2 x)); lia.
Qed.

Lemma O_minus_mirror (m q : Z) : O_plus m = Done q → O_minus (- m) = Done (- q).
Proof.
  unfold O_plus, O_minus.
  destruct (Z.eqb_spec m 0) as [->|Hm]; [by intros [= <-]|].
  destruct (Z.eqb_spec (- m) 0) as [?|_]; [lia|].
  cbn zeta. replace (3 * - m - 1) with (- (3 * m + 1)) by lia.
  apply strip_twos_opp. lia.
Qed.

Lemma O_plus_mirror (m q : Z) : O_minus m = Done q → O_plus (- m) = Done (- q).
Proof.
  unfold O_plus, O_minus.
  destruct (Z.eqb_spec m 0) as [->|Hm]; [by intros [= <-]|].
  destruct (Z.eqb_spec (- m) 0) as [?|_]; [lia|].
  cbn zeta. replace (3 * - m + 1) with (- (3 * m - 1)) by lia.
  apply strip_twos_opp. lia.
Qed.

(** The sign a mirrored run uses. *)
Lemma T_step_accel_mirror (n : Z) (e : string) (s q : Z) :
  T_step_accel n e s = Done q →
  T_step_accel (- n) e (if s =? 1 then -1 else 1) = Done (- q).
Proof.
  unfold T_step_accel. destruct (Z.eqb_spec s 1) as [->|Hs]; cbn [Z.eqb].
  - destruct (O_plus n) as [p| |] eqn:Hp; [|done..].
    rewrite (O_minus_mirror _ _ Hp). cbn.
    replace (3 * - n + -1) with (- (3 * n + 1)) by lia. rewrite v2_opp.
    destruct (e =? "W")%string; [by intros [= <-]|].
    destruct (truthy _); intros [= <-]; f_equal; lia.
  - destruct (O_minus n) as [p| |] eqn:Hp; [|done..].
    rewrite (O_plus_mirror _ _ Hp). cbn.
    replace (3 * - n + 1) with (- (3 * n + -1)) by lia. rewrite v2_opp.
    destruct (e =? "W")%string; [by intros [= <-]|].
    destruct (truthy _); intros [= <-]; f_equal; lia.
Qed.

(** X5. The two signs are mirror images: [O_minus(-m) = -O_plus(m)], and a
    step from [-n] with the sign flipped is the negation of the step from
    [n], under either shape. *)
Theorem accelerated_step_mirror (n : Z) (e : string) :
  ∃ p q,
    O_plus n = Done p ∧ O_minus (- n) = Done (- p)
    ∧ T_step_accel n e 1 = Done q ∧ T_step_accel (- n) e (-1) = Done (- q).
Proof.
  destruct (O_plus_exact n) as (p & Hp & _).
  destruct (T_step_accel_exact n e 1) as (q & Hq & _).
  exists p, q. split_and!; [done| |done|].
  - by apply O_minus_mirror.
  - by apply (T_step_accel_mirror n e 1).
Qed.

(** The fixed points of the step function. *)
Lemma T_step_accel_fixed_point (n : Z) (e : string) (s : Z) :
  T_step_accel n e s = Done n ↔
  (n = 1 ∨ n = -1)
  ∧ ((e =? "W")%string = true ∨ n = (if s =? 1 then 1 else -1)).
Proof.
  split.
  - intros Hfix.
    destruct (T_step_accel_exact n e s) as (q & Hq & _ & Heq).
    rewrite Hfix in Hq. injection Hq as <-.
    assert (Hdiv : (n | 1)).
    { set (b := (if (e =? "W")%string then 2 else -2) ^ _) in Heq.
      destruct (s =? 1).
      - exists (b - 3). lia.
      - exists (3 - b). lia. }
    apply Z.divide_1_r in Hdiv. split; [done|].
    destruct (e =? "W")%string eqn:He; [by left|right].
    unfold T_step_accel in Hfix. rewrite He in Hfix.
    destruct Hdiv as [-> | ->], (s =? 1); vm_compute in Hfix;
      congruence || reflexivity.
  - intros [Hn Hcfg]. unfold T_step_accel.
    destruct (e =? "W")%string.
    + by destruct Hn as [-> | ->], (s =? 1).
    + destruct Hcfg as [? | ->]; [done|]. by destruct (s =? 1).
Qed.

(** X6. The step function has no fixed point besides [1] and [-1]: under
    Wall both are fixed, for either sign; under Bridge only the one equal to
    the sign is. *)
Theorem accelerated_fixed_points (n : Z) (e : string) (s : Z) :
  T_step_accel n e s = Done n ↔
  (n = 1 ∨ n = -1)
  ∧ ((e =? "W")%string = true ∨ n = (if s =? 1 then 1 else -1)).
Proof. apply T_step_accel_fixed_point. Qed.

(** ** Further properties: known loops and fingerprints *)

Lemma pair_set_12 (x y : Z) :
  list_to_set [x; y] =@{gset Z} {[ 1; 2 ]}
  ↔ (x = 1 ∧ y = 2) ∨ (x = 2 ∧ y = 1).
Proof.
  cbn. split.
  - intros Hset.
    assert (Hx : x ∈ ({[ 1; 2 ]} : gset Z)) by (rewrite <- Hset; set_solver).
    assert (Hy : y ∈ ({[ 1; 2 ]} : gset Z)) by (rewrite <- Hset; set_solver).
    assert (H1 : 1 ∈ ({[x]} ∪ ({[y]} ∪ ∅) : gset Z)) by (rewrite Hset; set_solver).
    assert (H2 : 2 ∈ ({[x]} ∪ ({[y]} ∪ ∅) : gset Z)) by (rewrite Hset; set_solver).
    set_unfold. lia.
  - intros [[-> ->]|[-> ->]]; set_solver.
Qed.

Lemma is_known_small_loop_spec (c : list Z) :
  ∃ b, is_known_small_loop c = Done b
       ∧ (b = true ↔
          c = [1] ∨ c = [-1]
          ∨ Z.abs <$> c = [1; 2] ∨ Z.abs <$> c = [2; 1]
          ∨ Z.abs <$> c = [1; 4; 2; 1]).
Proof.
  unfold is_known_small_loop.
  destruct c as [|x [|y [|z c]]]; cbn.
  - eexists. split; [done|]. rewrite bool_decide_eq_true. naive_solver.
  - destruct (Z.eqb_spec x 1) as [->|?]; cbn.
    { exists true. split; [done|]. split; auto. }
    destruct (Z.eqb_spec x (-1)) as [->|?]; cbn.
    { exists true. split; [done|]. split; auto. }
    eexists. split; [done|]. rewrite bool_decide_eq_true. naive_solver.
  - destruct (bool_decide _) eqn:Hset.
    + apply bool_decide_eq_true_1, (pair_set_12 (Z.abs x) (Z.abs y)) in Hset.
      exists true. split; [done|]. split; [|done]. intros _.
      destruct Hset as [[-> ->]|[-> ->]]; auto 6.
    + apply bool_decide_eq_false_1 in Hset.
      rewrite (pair_set_12 (Z.abs x) (Z.abs y)) in Hset.
      eexists. split; [done|]. rewrite bool_decide_eq_true.
      split; [auto 6|]. intros [?|[?|[?|[?|?]]]]; simplify_eq; tauto.
  - eexists. split; [done|]. rewrite bool_decide_eq_true.
    split; [auto 6|]. by intros [?|[?|[?|[?|?]]]].
Qed.

(** X7. [is_known_small_loop] never raises and accepts exactly the cycles
    [[1]] and [[-1]], the cycles of magnitudes [[1, 2]] and [[2, 1]], and the
    cycles of magnitudes [[1, 4, 2, 1]]; every cycle the ABS1 gate accepts,
    whatever the type tag, is among them. *)
Theorem known_small_loops (c : list Z) (tag : string) :
  ∃ known abs1,
    is_known_small_loop c = Done known
    ∧ is_abs1_loop_from_cycle c tag = Done abs1
    ∧ (known = true ↔
       c = [1] ∨ c = [-1]
       ∨ Z.abs <$> c = [1; 2] ∨ Z.abs <$> c = [2; 1]
       ∨ Z.abs <$> c = [1; 4; 2; 1])
    ∧ (abs1 = true → known = true).
Proof.
  destruct (is_known_small_loop_spec c) as (known & Hk & Hspec).
  destruct (is_abs1_loop_from_cycle_total c tag) as [abs1 Ha].
  exists known, abs1. split_and!; [done..|].
  intros ->. apply Hspec. unfold is_abs1_loop_from_cycle in Ha.
  destruct c as [|x [|y c]]; cbn in Ha.
  - done.
  - destruct (Z.eqb_spec x 1) as [->|?]; [auto|].
    destruct (Z.eqb_spec x (-1)) as [->|?]; [auto|].
    cbn in Ha. injection Ha as Ha. by apply bool_decide_eq_true_1 in Ha.
  - injection Ha as Ha. apply bool_decide_eq_true_1 in Ha. auto 6.
Qed.

(** X8. The fingerprint is the lexicographically least rotation, as the
    docstring says: [canonical_cycle] never raises, its result is a rotation
    of the cycle in the fingerprint space, of the same length, and no
    rotation is smaller. *)
Theorem canonical_cycle_is_least_rotation (cyc : list Z) (by_abs : bool) :
  ∃ m, canonical_cycle cyc by_abs = Done m
       ∧ is_rotation (fingerprint_space by_abs cyc) m
       ∧ length m = length cyc
       ∧ ∀ k, tuple_lt (rotation (fingerprint_space by_abs cyc) k) m = false.
Proof.
  destruct (canonical_cycle_least cyc by_abs) as (m & Hm & Hrot & Hmin).
  exists m. split_and!; [done|by apply is_rotation_rot_split| |].
  - destruct Hrot as (u & v & Hcyc & ->).
    transitivity (length (fingerprint_space by_abs cyc)).
    + rewrite Hcyc, !length_app. lia.
    + destruct by_abs; [apply length_fmap|done].
  - intros k. apply Hmin, rotation_rot_split.
Qed.

(** X9. Canonicalisation is idempotent: the fingerprint of a fingerprint is
    the fingerprint itself, in either mode. *)
Theorem canonical_cycle_idempotent (cyc : list Z) (by_abs : bool) :
  ∃ m, canonical_cycle cyc by_abs = Done m
       ∧ canonical_cycle m by_abs = Done m.
Proof.
  destruct (canonical_cycle_least cyc by_abs) as (m & Hm & Hrot & Hmin).
  exists m. split; [done|]. rewrite <- Hm. symmetry.
  apply canonical_cycle_eq_iff.
  assert (Hfix : fingerprint_space by_abs m = m).
  { destruct by_abs; [|done]. destruct Hrot as (u & v & Hcyc & ->). cbn in *.
    apply fmap_app_inv in Hcyc as (u' & v' & -> & -> & _).
    rewrite fmap_app, <- !list_fmap_compose.
    f_equal; apply list_fmap_ext; intros; cbn; apply Z.abs_idemp. }
  by rewrite Hfix.
Qed.

(** ** Further properties: the worker *)

(** The cycle read off the log at a closure. *)
Lemma closed_walk_cycle (a : worker_args) (st : locals) (i : nat) :
  walk_post a Closed st →
  seen st !! n st = Some i →
  head (drop i (seq_log st)) = Some (n st)
  ∧ (∃ lst, last (drop i (seq_log st)) = Some lst ∧ step a lst = Done (n st))
  ∧ Forall (fun v => Z.odd v = true) (drop i (seq_log st))
  ∧ NoDup (drop i (seq_log st))
  ∧ (∀ x, x ∈ drop i (seq_log st) → x ∈ inspected st).
Proof.
  intros ([[_ Hchain] Hnd Hseen _ Hodd _ _ _] & _ & _ & _ & Hinsp) Hi.
  apply Hseen in Hi.
  assert (Hsplit : ∃ pre, seq_log st = pre ++ drop i (seq_log st))
    by (exists (take i (seq_log st)); by rewrite take_drop).
  destruct Hsplit as [pre Hsplit].
  assert (Hhd : head (drop i (seq_log st)) = Some (n st)).
  { by rewrite head_lookup, lookup_drop, Nat.add_0_r. }
  apply Forall_app in Hodd as [Hodd _].
  rewrite Hinsp.
  destruct (drop i (seq_log st)) as [|x c] eqn:Hdrop; [done|].
  destruct (exists_last (l := x :: c)) as (c' & lst & Hlast); [done|].
  rewrite Hsplit in Hnd, Hodd.
  apply NoDup_app in Hnd as (_ & _ & Hnd).
  apply Forall_app in Hodd as [_ Hodd].
  split_and!; [done| |done|done|].
  - exists lst. split; [rewrite Hlast; apply last_snoc|].
    apply (chain_lookup (step a) (seq_log st ++ [n st]) (length (pre ++ c')));
      [done|rewrite Hsplit, Hlast..].
    + rewrite !(assoc_L (++)), <- (assoc_L (++)).
      by apply list_lookup_middle.
    + rewrite !(assoc_L (++)).
      rewrite (list_lookup_middle _ [] (n st)); [done|].
      rewrite !length_app. cbn. lia.
  - intros y Hy. rewrite Hsplit, !elem_of_app. auto.
Qed.

(** A cycle of one element is a fixed point of the step function. *)
Lemma closed_walk_singleton (a : worker_args) (st : locals) (i : nat) (v : Z) :
  walk_post a Closed st →
  seen st !! n st = Some i →
  drop i (seq_log st) = [v] →
  n st = v ∧ T_step_accel v (even_type a) (odd_sign a) = Done v.
Proof.
  intros Hpost Hi Hc.
  destruct (closed_walk_cycle a st i Hpost Hi)
    as (Hhd & (lst & Hlast & Hstep) & _).
  rewrite Hc in Hhd, Hlast. cbn in Hhd, Hlast. by simplify_eq.
Qed.

(** The gate on a list of odd values: the raw-form pattern [1, 4, 2, 1]
    cannot match. *)
Lemma is_abs1_on_odd_cycle (c : list Z) (tag : string) :
  Forall (fun v => Z.odd v = true) c →
  is_abs1_loop_from_cycle c tag = Done true →
  ∃ v, c = [v] ∧ (v = 1 ∨ v = -1) ∧ is_a1_stable_domain tag v = true.
Proof.
  intros Hodd Ha. unfold is_abs1_loop_from_cycle in Ha.
  destruct c as [|x [|y c]]; cbn in Ha.
  - done.
  - destruct (Z.eqb_spec x 1) as [->|?]; cbn in Ha.
    { exists 1. split_and!; auto. by injection Ha. }
    destruct (Z.eqb_spec x (-1)) as [->|?]; cbn in Ha.
    { exists (-1). split_and!; auto. by injection Ha. }
    injection Ha as Ha. by apply bool_decide_eq_true_1 in Ha.
  - injection Ha as Ha. apply bool_decide_eq_true_1 in Ha.
    injection Ha as _ Hy _. exfalso.
    apply Forall_cons in Hodd as [_ Hodd]. apply Forall_cons in Hodd as [Hy' _].
    assert (y = 4 ∨ y = -4) as [-> | ->] by lia; done.
Qed.

(** The closure in full: the label, the example and the unknown-cycle
    fields. *)
Lemma closure_full_spec (a : worker_args) (st : locals) (i : nat) :
  seen st !! n st = Some i →
  ∃ abs1 known m,
    is_abs1_loop_from_cycle (drop i (seq_log st)) (type_tag a) = Done abs1
    ∧ is_known_small_loop (drop i (seq_log st)) = Done known
    ∧ canonical_cycle (drop i (seq_log st)) (fp_abs a) = Done m
    ∧ closure a st
      = Done (if abs1 : bool then "ABS1" else "NON-ABS1",
              if want_example a then Some (n0 a, drop i (seq_log st)) else None,
              hit1 st,
              if report_cycles a && negb abs1 && negb known
              then Some m else None,
              if report_cycles a && negb abs1 && negb known
              then Some (drop i (seq_log st)) else None).
Proof.
  intros Hi. unfold closure, py_getitem. rewrite Hi. cbn.
  destruct (is_abs1_loop_from_cycle_total (drop i (seq_log st)) (type_tag a))
    as [abs1 ->].
  destruct (is_known_small_loop_total (drop i (seq_log st))) as [known Hk].
  destruct (canonical_cycle_least (drop i (seq_log st)) (fp_abs a))
    as (m & Hm & _).
  exists abs1, known, m. rewrite Hk, Hm. split_and!; [done..|].
  destruct abs1, (report_cycles a), (want_example a), known; cbn;
    rewrite ?Hk; cbn; rewrite ?Hm; done.
Qed.

(** The worker's result in full, read off the exit of its loop. *)
Lemma worker_full_spec (a : worker_args) :
  ∃ e st,
    worker_trace (Z.to_nat (cap a)) a = Done (e, st) ∧ walk_post a e st
    ∧ steps st ≤ Z.max 0 (cap a)
    ∧ match e with
      | Closed =>
          ∃ i abs1 known m,
            seen st !! n st = Some i
            ∧ is_abs1_loop_from_cycle (drop i (seq_log st)) (type_tag a)
              = Done abs1
            ∧ is_known_small_loop (drop i (seq_log st)) = Done known
            ∧ canonical_cycle (drop i (seq_log st)) (fp_abs a) = Done m
            ∧ worker a
              = Done (if abs1 : bool then "ABS1" else "NON-ABS1",
                      if want_example a
                      then Some (n0 a, drop i (seq_log st)) else None,
                      hit1 st,
                      if report_cycles a && negb abs1 && negb known
                      then Some m else None,
                      if report_cycles a && negb abs1 && negb known
                      then Some (drop i (seq_log st)) else None)
      | Exhausted => worker a = Done ("CAP", None, hit1 st, None, None)
      end.
Proof.
  destruct (worker_trace_spec a (Z.to_nat (cap a)))
    as (e & st & Htrace & Hpost & Hle); [done|].
  exists e, st. split_and!; [done..|].
  unfold worker, worker_fuel. rewrite Htrace. cbn.
  destruct e; [|done].
  destruct Hpost as (Hlog & _ & _ & Hin & _).
  apply list_elem_of_lookup in Hin as [i Hi].
  apply (inv_seen _ _ Hlog) in Hi.
  destruct (closure_full_spec a st i Hi) as (abs1 & known & m & ? & ? & ? & ?).
  by exists i, abs1, known, m.
Qed.

(** X10. The worker labels a run ABS1 exactly when its loop closes on a
    one-element cycle [[v]] with [v] one of [1] and [-1] that the gate holds
    stable for the type tag: the raw-form pattern [1, 4, 2, 1] never decides
    the label of a walk, whose values are all odd. *)
Theorem abs1_means_stable_unit_cycle (a : worker_args) :
  ∃ lab ex h fp cyc e st,
    worker a = Done (lab, ex, h, fp, cyc)
    ∧ worker_trace (Z.to_nat (cap a)) a = Done (e, st)
    ∧ (lab = "ABS1" ↔
       e = Closed
       ∧ ∃ v, closed_cycle st = [v] ∧ (v = 1 ∨ v = -1)
              ∧ is_a1_stable_domain (type_tag a) v = true).
Proof.
  destruct (worker_full_spec a) as (e & st & Htr & Hpost & _ & Hres).
  destruct e.
  - destruct Hres as (i & abs1 & known & m & Hi & Habs & _ & _ & Hw).
    eexists _, _, _, _, _, Closed, st. split; [exact Hw|]. split; [done|].
    unfold closed_cycle. rewrite Hi.
    destruct (closed_walk_cycle a st i Hpost Hi) as (_ & _ & Hodd & _).
    split.
    + destruct abs1; [|done]. intros _. split; [done|].
      by apply (is_abs1_on_odd_cycle _ (type_tag a)).
    + intros (_ & v & Hc & Hv & Hstable).
      rewrite Hc, is_abs1_fixed_point, Hstable in Habs by done.
      by injection Habs as <-.
  - eexists _, _, _, _, _, Exhausted, st. split; [exact Hres|].
    split; [done|]. split; [done|]. by intros [? _].
Qed.

(** X11. With a type tag other than the four known ones the gate holds no
    fixed point stable, and the worker never returns ABS1: every run is
    NON-ABS1 or CAP. *)
Theorem unknown_tag_never_abs1 (a : worker_args) :
  type_tag a ∉ ["W+1"; "W-1"; "B+1"; "B-1"] →
  ∃ lab ex h fp cyc,
    worker a = Done (lab, ex, h, fp, cyc)
    ∧ (lab = "NON-ABS1" ∨ lab = "CAP").
Proof.
  intros Htag.
  assert (Hgate : ∀ v, is_a1_stable_domain (type_tag a) v = false).
  { intros v. unfold is_a1_stable_domain.
    rewrite !not_elem_of_cons in Htag.
    destruct Htag as (H1 & H2 & H3 & H4 & _).
    apply String.eqb_neq in H1, H2, H3, H4. by rewrite H1, H2, H3, H4. }
  destruct (worker_full_spec a) as (e & st & Htr & Hpost & _ & Hres).
  destruct e; [|eauto 10].
  destruct Hres as (i & abs1 & known & m & Hi & Habs & _ & _ & Hw).
  do 5 eexists. split; [exact Hw|].
  destruct abs1; [|auto].
  destruct (closed_walk_cycle a st i Hpost Hi) as (_ & _ & Hodd & _).
  destruct (is_abs1_on_odd_cycle _ _ Hodd Habs) as (v & _ & _ & Hstable).
  by rewrite Hgate in Hstable.
Qed.

Lemma unknown_tag_never_abs1_witness :
  ∃ lab ex h fp cyc,
    worker (WorkerArgs 7 "w+1" "B" 1 100 true true false)
    = Done (lab, ex, h, fp, cyc)
    ∧ (lab = "NON-ABS1" ∨ lab = "CAP").
Proof.
  apply (unknown_tag_never_abs1 (WorkerArgs 7 "w+1" "B" 1 100 true true false)).
  cbn. rewrite !not_elem_of_cons. split_and!; [done..|apply not_elem_of_nil].
Defined.

(** X12. The unknown-cycle fields come together, and only for a NON-ABS1 run
    with reporting on: the fingerprint is then [canonical_cycle] of the
    returned cycle, which is not a known small loop, has at least two
    elements, all odd and pairwise distinct.  Conversely a NON-ABS1 run with
    reporting on whose cycle is not a known small loop has them. *)
Theorem unknown_cycle_fields (a : worker_args) :
  ∃ lab ex h fp cyc,
    worker a = Done (lab, ex, h, fp, cyc)
    ∧ (fp = None ↔ cyc = None)
    ∧ (∀ f c, fp = Some f → cyc = Some c →
         report_cycles a = true ∧ lab = "NON-ABS1"
         ∧ canonical_cycle c (fp_abs a) = Done f
         ∧ is_known_small_loop c = Done false
         ∧ (2 ≤ length c)%nat
         ∧ Forall (fun v => Z.odd v = true) c
         ∧ NoDup c)
    ∧ (∀ s c, report_cycles a = true → lab = "NON-ABS1" →
         ex = Some (s, c) → is_known_small_loop c = Done false →
         cyc = Some c).
Proof.
  destruct (worker_full_spec a) as (e & st & Htr & Hpost & _ & Hres).
  destruct e; [|do 5 eexists; split; [exact Hres|]; by split_and!].
  destruct Hres as (i & abs1 & known & m & Hi & Habs & Hknown & Hm & Hw).
  do 5 eexists. split; [exact Hw|].
  destruct (closed_walk_cycle a st i Hpost Hi)
    as (Hhd & _ & Hodd & Hnd & _).
  split_and!.
  - by destruct (_ && _).
  - intros f c Hf Hc.
    destruct (report_cycles a), abs1, known; cbn in Hf, Hc; try done.
    injection Hf as <-. injection Hc as <-. split_and!; try done.
    destruct (drop i (seq_log st)) as [|x [|y c]] eqn:Hdrop;
      [done| |cbn; lia].
    exfalso.
    destruct (closed_walk_singleton a st i x Hpost Hi Hdrop) as [_ Hfix].
    apply T_step_accel_fixed_point in Hfix as [Hx _].
    destruct (is_known_small_loop_spec [x]) as (b & Hb & Hspec).
    rewrite Hknown in Hb. injection Hb as <-.
    destruct Hspec as [_ Hspec].
    by destruct Hx as [-> | ->]; discriminate Hspec; auto.
  - intros s c Hrep Hlab Hex Hk.
    destruct (want_example a); [|done]. injection Hex as _ <-.
    rewrite Hknown in Hk. injection Hk as ->.
    rewrite Hrep. by destruct abs1.
Qed.

(** X13. A cap of at most one never lets the walk close: the worker returns
    CAP, with hit1 true only when the cap is one and the normalised start is
    [1]. *)
Theorem cap_at_most_one_gives_cap (a : worker_args) :
  cap a ≤ 1 →
  ∃ h, worker a = Done ("CAP", None, h, None, None)
       ∧ (h = true ↔
          cap a = 1 ∧ normalize_initial (n0 a) (even_type a) = Done 1).
Proof.
  intros Hcap.
  destruct (worker_full_spec a) as (e & st & Htr & Hpost & Hle & Hres).
  destruct Hpost as ([[Hstart _] _ _ _ _ Hsteps _ _] & Hhit & Hexit).
  destruct e.
  { destruct Hexit as (Hlt & Hin & _).
    destruct (seq_log st); [by apply elem_of_nil in Hin|cbn in Hsteps; lia]. }
  destruct Hexit as [Hge Hinsp]. exists (hit1 st). split; [done|].
  rewrite Hhit, Hinsp. destruct Hstart as (start & Hnorm & Hhd).
  destruct (seq_log st) as [|x [|y l]]; cbn in Hsteps, Hhd.
  - rewrite elem_of_nil. split; [done|]. lia.
  - injection Hhd as ->. rewrite list_elem_of_singleton, Hnorm.
    split; [intros <-; split; [lia|done]|by intros [_ [= <-]]].
  - lia.
Qed.

Lemma cap_at_most_one_gives_cap_witness :
  ∃ h, worker (WorkerArgs 1 "B+1" "B" 1 1 true true false)
       = Done ("CAP", None, h, None, None)
       ∧ (h = true ↔ 1 = 1 ∧ normalize_initial 1 "B" = Done 1).
Proof.
  apply (cap_at_most_one_gives_cap (WorkerArgs 1 "B+1" "B" 1 1 true true false)).
  cbn. lia.
Defined.

(** A walk that closes under one cap closes in the same state under every
    larger cap. *)
Lemma walk_closed_cap_mono (a : worker_args) (c : Z) (fuel fuel' : nat)
    (st st' : locals) :
  cap a ≤ c → (fuel ≤ fuel')%nat →
  walk fuel a st = Done (Closed, st') →
  walk fuel' (with_cap a c) st = Done (Closed, st').
Proof.
  intros Hc. revert fuel' st.
  induction fuel as [|fuel IH]; intros fuel' st Hfuel; cbn [walk].
  - by destruct (steps st <? cap a).
  - destruct (Z.ltb_spec (steps st) (cap a)) as [Hlt|Hge]; [|done].
    destruct fuel' as [|fuel']; [lia|]. cbn [walk with_cap cap].
    destruct (Z.ltb_spec (steps st) c) as [_|?]; [|lia].
    destruct (py_in _ _); [done|].
    change (even_type (with_cap a c)) with (even_type a).
    change (odd_sign (with_cap a c)) with (odd_sign a).
    destruct (_ =? 0).
    + destruct (normalize_initial _ _); cbn; [|done..].
      apply IH. lia.
    + destruct (T_step_accel _ _ _); cbn; [|done..].
      apply IH. lia.
Qed.

(** X14. Raising the cap never changes a classification already reached: a
    run that returns ABS1 or NON-ABS1 returns the very same result (label,
    example, hit1 and unknown-cycle fields) under every larger cap. *)
Theorem closed_result_stable_under_larger_cap (a : worker_args) (c : Z)
    (lab : string) (ex : option (Z * list Z)) (h : bool)
    (fp cyc : option (list Z)) :
  cap a ≤ c →
  worker a = Done (lab, ex, h, fp, cyc) →
  lab = "ABS1" ∨ lab = "NON-ABS1" →
  worker (with_cap a c) = Done (lab, ex, h, fp, cyc).
Proof.
  intros Hc Hw Hlab. unfold worker, worker_fuel, worker_trace in *.
  change (walk_start (with_cap a c)) with (walk_start a).
  destruct (walk_start a) as [st0| |]; [|done..]. cbn in *.
  destruct (walk (Z.to_nat (cap a)) a st0) as [[e st]| |] eqn:Hwalk; [|done..].
  cbn in Hw. destruct e.
  - rewrite (walk_closed_cap_mono a c (Z.to_nat (cap a)) (Z.to_nat c) st0 st);
      [done|done|lia|done].
  - injection Hw as <- _ _ _ _. by destruct Hlab.
Qed.

Lemma closed_result_stable_under_larger_cap_witness :
  worker (with_cap (WorkerArgs 27 "W+1" "W" 1 50 true true false) 1000)
  = Done ("ABS1", Some (27, [1]), true, None, None).
Proof.
  apply (closed_result_stable_under_larger_cap
           (WorkerArgs 27 "W+1" "W" 1 50 true true false) 1000).
  - cbn. lia.
  - vm_compute. reflexivity.
  - left. reflexivity.
Defined.

(** A value fixed by the step function that the walk inspects before it
    closes is the value it closes on, and the cycle is that value alone. *)
Lemma closed_on_inspected_fixed_point (a : worker_args) (st : locals)
    (i : nat) (v : Z) :
  walk_post a Closed st →
  seen st !! n st = Some i →
  step a v = Done v →
  v ∈ inspected st →
  drop i (seq_log st) = [v].
Proof.
  intros Hpost Hi Hfix Hv.
  destruct (closed_walk_cycle a st i Hpost Hi) as (Hhd & _ & _ & Hndc & _).
  destruct Hpost as ([[_ Hchain] Hnd Hseen _ _ _ _ _] & _ & _ & Hin & Hinsp).
  rewrite Hinsp in Hv.
  assert (Hn : n st = v).
  { apply list_elem_of_lookup in Hv as [j Hj].
    destruct (decide (j = length (seq_log st))) as [->|Hne].
    { rewrite (list_lookup_middle _ [] (n st)) in Hj by done. by injection Hj. }
    assert (Hlt : (j < length (seq_log st))%nat).
    { apply lookup_lt_Some in Hj. rewrite length_app in Hj. cbn in Hj. lia. }
    destruct ((seq_log st ++ [n st]) !! S j) as [y|] eqn:Hy.
    2:{ apply lookup_ge_None in Hy. rewrite length_app in Hy. cbn in Hy. lia. }
    pose proof (chain_lookup _ _ _ _ _ Hchain Hj Hy) as Hstep.
    rewrite Hfix in Hstep. injection Hstep as <-.
    destruct (decide (S j = length (seq_log st))) as [Heq|Hne'].
    { rewrite Heq, (list_lookup_middle _ [] (n st)) in Hy by done.
      by injection Hy. }
    rewrite lookup_app_l in Hj, Hy by lia.
    pose proof (NoDup_lookup _ _ _ _ Hnd Hj Hy). lia. }
  assert (Hchc : chain (step a) (drop i (seq_log st))).
  { apply (chain_app_r _ (take i (seq_log st))).
    rewrite take_drop. apply (chain_app_r _ []) in Hchain.
    clear -Hchain. induction (seq_log st) as [|x [|y l] IH]; cbn in *; tauto. }
  destruct (drop i (seq_log st)) as [|x [|y c]]; [done| |].
  - cbn in Hhd. congruence.
  - cbn in Hhd. injection Hhd as ->. destruct Hchc as [Hxy _].
    rewrite Hn, Hfix in Hxy. injection Hxy as <-.
    apply NoDup_cons in Hndc as [Hnotin _]. destruct Hnotin. rewrite Hn. left.
Qed.

(** X15. Under the sign [+1] (type tags W+1 and B+1) the labels and the hit-1
    flag agree on closed runs: an ABS1 run has visited [1], and a run that
    visited [1] is ABS1 unless it ran out of steps. *)
Theorem hit1_matches_abs1_under_plus_sign (a : worker_args) :
  sweep_config a →
  odd_sign a = 1 →
  ∃ lab ex h fp cyc,
    worker a = Done (lab, ex, h, fp, cyc)
    ∧ (lab = "ABS1" → h = true)
    ∧ (h = true → lab = "ABS1" ∨ lab = "CAP").
Proof.
  intros [Htag Hparse] Hsign.
  assert (Hone : step a 1 = Done 1).
  { apply T_step_accel_fixed_point. rewrite Hsign. auto. }
  assert (Hstable : is_a1_stable_domain (type_tag a) 1 = true).
  { repeat (apply elem_of_cons in Htag as [Htag|Htag]);
      [..|by apply elem_of_nil in Htag];
      rewrite Htag in *; try done; [injection Hparse as _ Hs; lia]. }
  destruct (worker_full_spec a) as (e & st & Htr & Hpost & _ & Hres).
  destruct e; [|do 5 eexists; split; [exact Hres|]; split; [done|auto]].
  destruct Hres as (i & abs1 & known & m & Hi & Habs & _ & _ & Hw).
  do 5 eexists. split; [exact Hw|].
  pose proof Hpost as (_ & Hhit & _).
  destruct (closed_walk_cycle a st i Hpost Hi) as (_ & _ & Hodd & _ & Hsub).
  split.
  - destruct abs1; [|done]. intros _. apply Hhit.
    destruct (is_abs1_on_odd_cycle _ _ Hodd Habs) as (v & Hc & Hv & Hst).
    apply Hsub. rewrite Hc. apply list_elem_of_singleton.
    destruct (closed_walk_singleton a st i v Hpost Hi Hc) as [_ Hfix].
    apply T_step_accel_fixed_point in Hfix as [_ Hcfg].
    rewrite Hsign in Hcfg. destruct Hcfg as [HW|?]; [|done].
    destruct Hv as [-> | ->]; [done|].
    apply String.eqb_eq in HW.
    repeat (apply elem_of_cons in Htag as [Htag|Htag]);
      [..|by apply elem_of_nil in Htag];
      rewrite Htag in *; try done; injection Hparse as He Hs;
      congruence || lia.
  - intros Hh%Hhit. left.
    rewrite (closed_on_inspected_fixed_point a st i 1 Hpost Hi Hone Hh) in Habs.
    rewrite is_abs1_fixed_point, Hstable in Habs by auto.
    by injection Habs as <-.
Qed.

Lemma hit1_matches_abs1_under_plus_sign_witness :
  ∃ lab ex h fp cyc,
    worker (WorkerArgs (-5) "W+1" "W" 1 100 true true false)
    = Done (lab, ex, h, fp, cyc)
    ∧ (lab = "ABS1" → h = true)
    ∧ (h = true → lab = "ABS1" ∨ lab = "CAP").
Proof.
  apply (hit1_matches_abs1_under_plus_sign
           (WorkerArgs (-5) "W+1" "W" 1 100 true true false)).
  - split; [apply list_elem_of_here | reflexivity].
  - reflexivity.
Defined.

(** ** Further properties: the mirror symmetry of the runs *)

Lemma chain_mirror (e : string) (s : Z) (l : list Z) :
  chain (fun x => T_step_accel x e s) l →
  chain (fun x => T_step_accel x e (if s =? 1 then -1 else 1)) (Z.opp <$> l).
Proof.
  induction l as [|x [|y l] IH]; [done..|].
  intros [Hxy Hl]. split; [by apply T_step_accel_mirror|by apply IH].
Qed.

Lemma normalize_initial_mirror (n0 q : Z) (e : string) :
  n0 ≠ 0 →
  normalize_initial n0 e = Done q →
  normalize_initial (- n0) e = Done (- q).
Proof.
  intros Hn0. unfold normalize_initial.
  destruct (Z.eqb_spec n0 0) as [?|_]; [done|].
  destruct (Z.eqb_spec (- n0) 0) as [?|_]; [lia|].
  replace ((- n0) mod 2) with (n0 mod 2) by (Z.div_mod_to_equations; lia).
  destruct (n0 mod 2 =? 0); [|by intros [= <-]].
  rewrite v2_opp.
  destruct (strip_twos n0 Hn0) as (p & Hp & _).
  pose proof (strip_twos_opp n0 p Hn0 Hp) as Hp'. rewrite v2_opp in Hp'.
  unfold mbind, run_bind in *.
  destruct (py_lshift 1 (v2 n0)) as [d| |]; [|done..].
  rewrite Hp, Hp'.
  destruct (_ && _); intros [= <-]; f_equal; lia.
Qed.

Lemma gate_mirror (c : list Z) (tag : string) :
  tag ∈ ["W+1"; "W-1"; "B+1"; "B-1"] →
  is_abs1_loop_from_cycle (Z.opp <$> c) (mirror_tag tag)
  = is_abs1_loop_from_cycle c tag.
Proof.
  intros Htag. unfold is_abs1_loop_from_cycle.
  assert (Habs : Z.abs <$> (Z.opp <$> c) = Z.abs <$> c).
  { rewrite <- list_fmap_compose. apply list_fmap_ext.
    intros _ x _. apply Z.abs_opp. }
  rewrite Habs, length_fmap.
  destruct c as [|x [|y c]]; [done| |done]. cbn.
  destruct (Z.eqb_spec x 1) as [->|H1]; cbn.
  { repeat (apply elem_of_cons in Htag as [->|Htag]); try done.
    by apply elem_of_nil in Htag. }
  destruct (Z.eqb_spec x (-1)) as [->|H2]; cbn.
  { repeat (apply elem_of_cons in Htag as [->|Htag]); try done.
    by apply elem_of_nil in Htag. }
  destruct (Z.eqb_spec (- x) 1); [lia|].
  destruct (Z.eqb_spec (- x) (-1)); [lia|]. done.
Qed.

Lemma known_mirror (c : list Z) :
  is_known_small_loop (Z.opp <$> c) = is_known_small_loop c.
Proof.
  unfold is_known_small_loop.
  assert (Habs : Z.abs <$> (Z.opp <$> c) = Z.abs <$> c).
  { rewrite <- list_fmap_compose. apply list_fmap_ext.
    intros _ x _. apply Z.abs_opp. }
  rewrite Habs, length_fmap.
  destruct c as [|x [|y c]]; [done| |done]. cbn.
  destruct (Z.eqb_spec x 1) as [->|H1]; [done|].
  destruct (Z.eqb_spec x (-1)) as [->|H2]; [done|].
  destruct (Z.eqb_spec (- x) 1); [lia|].
  destruct (Z.eqb_spec (- x) (-1)); [lia|]. done.
Qed.

Lemma canonical_mirror_abs (c : list Z) :
  canonical_cycle (Z.opp <$> c) true = canonical_cycle c true.
Proof.
  apply canonical_cycle_eq_iff. cbn.
  rewrite <- list_fmap_compose.
  rewrite (list_fmap_ext (Z.abs ∘ Z.opp) Z.abs c).
  - apply rot_split_refl.
  - intros _ x _. apply Z.abs_opp.
Qed.

Lemma mirror_args_involutive (a : worker_args) :
  sweep_config a → mirror_args (mirror_args a) = a.
Proof.
  intros [Htag Hparse]. destruct a as [n0 tag e s c w r f]. cbn in *.
  unfold mirror_args. cbn. rewrite Z.opp_involutive.
  repeat (apply elem_of_cons in Htag as [->|Htag]);
    [..|by apply elem_of_nil in Htag];
    injection Hparse as <- <-; done.
Qed.

Lemma mirror_sweep_config (a : worker_args) :
  sweep_config a → sweep_config (mirror_args a).
Proof.
  intros [Htag Hparse]. destruct a as [n0 tag e s c w r f]. cbn in *.
  unfold sweep_config. cbn.
  repeat (apply elem_of_cons in Htag as [->|Htag]);
    [..|by apply elem_of_nil in Htag];
    injection Hparse as <- <-; cbn; (split; [|done]);
    rewrite !elem_of_cons; auto.
Qed.

(** A run that closes is mirrored by a run that closes on the negated log. *)
Lemma mirror_closed (a : worker_args) (st : locals) :
  n0 a ≠ 0 →
  worker_trace (Z.to_nat (cap a)) a = Done (Closed, st) →
  ∃ st',
    worker_trace (Z.to_nat (cap a)) (mirror_args a) = Done (Closed, st')
    ∧ seq_log st' = Z.opp <$> seq_log st
    ∧ n st' = - n st.
Proof.
  intros Hn0 Htr.
  destruct (worker_trace_spec a (Z.to_nat (cap a))) as (e & st0 & Htr0 & Hpost & _);
    [done|].
  rewrite Htr in Htr0. injection Htr0 as <- <-.
  destruct (worker_trace_spec (mirror_args a) (Z.to_nat (cap a)))
    as (e' & st' & Htr' & Hpost' & _); [done|].
  destruct Hpost as ([[Hstart Hchain] Hnd _ _ _ Hsteps _ _] & _ & Hlt & Hin & _).
  destruct Hpost' as ([[Hstart' Hchain'] Hnd' _ _ _ Hsteps' _ _] & _ & Hexit').
  destruct Hstart as (start & Hnorm & Hhd).
  destruct Hstart' as (start' & Hnorm' & Hhd').
  cbn [mirror_args n0 even_type cap] in *.
  rewrite (normalize_initial_mirror _ _ _ Hn0 Hnorm) in Hnorm'.
  injection Hnorm' as <-.
  assert (HM : chain (step (mirror_args a)) (Z.opp <$> (seq_log st ++ [n st])))
    by (apply (chain_mirror (even_type a) (odd_sign a)), Hchain).
  assert (HhdM : head (Z.opp <$> (seq_log st ++ [n st])) = Some (- start)).
  { destruct (seq_log st ++ [n st]); cbn in *; by simplify_eq. }
  assert (Hdup : ¬ NoDup (seq_log st ++ [n st])).
  { intros (_ & Hdisj & _)%NoDup_app. apply (Hdisj _ Hin). left. }
  assert (Hlen : length (seq_log st') = length (seq_log st)).
  { destruct (Nat.lt_trichotomy (length (seq_log st')) (length (seq_log st)))
      as [Hlt'|[?|Hgt]]; [|done|]; exfalso.
    - destruct (chain_prefix _ (seq_log st' ++ [n st'])
                  (Z.opp <$> (seq_log st ++ [n st])) Hchain' HM) as [k Hk].
      { by rewrite Hhd', HhdM. }
      { by destruct (seq_log st'). }
      { rewrite length_fmap, !length_app. cbn. lia. }
      destruct e'.
      + destruct Hexit' as (_ & Hin' & _).
        assert (Hnd1 : NoDup (seq_log st' ++ [n st'])).
        { rewrite fmap_app in Hk. cbn in Hk.
          assert (Hpre : (seq_log st' ++ [n st']) `prefix_of` (Z.opp <$> seq_log st)).
          { destruct k as [|z k _] using rev_ind.
            - rewrite app_nil_r in Hk. apply (f_equal length) in Hk.
              rewrite !length_app, length_fmap in Hk. cbn in Hk. lia.
            - exists k. rewrite (assoc_L (++)) in Hk.
              by apply app_inj_tail in Hk as [-> _]. }
          destruct Hpre as [k' Hk'].
          assert (Hnd2 : NoDup (Z.opp <$> seq_log st)).
          { apply NoDup_fmap; [|done]. intros ? ? ?. lia. }
          rewrite Hk' in Hnd2. by apply NoDup_app in Hnd2 as [? _]. }
        apply NoDup_app in Hnd1 as (_ & Hdisj & _).
        apply (Hdisj _ Hin'). left.
      + destruct Hexit' as [Hge _]. lia.
    - destruct (chain_prefix _ (Z.opp <$> (seq_log st ++ [n st]))
                  (seq_log st' ++ [n st']) HM Hchain') as [k Hk].
      { by rewrite Hhd', HhdM. }
      { by destruct (seq_log st). }
      { rewrite length_fmap, !length_app. cbn. lia. }
      assert (Hpre : (Z.opp <$> (seq_log st ++ [n st])) `prefix_of` seq_log st').
      { destruct k as [|z k _] using rev_ind.
        - rewrite app_nil_r in Hk. apply (f_equal length) in Hk.
          rewrite !length_app, length_fmap, length_app in Hk. cbn in Hk. lia.
        - exists k. rewrite (assoc_L (++)) in Hk.
          by apply app_inj_tail in Hk as [-> _]. }
      destruct Hpre as [k' Hk']. rewrite Hk' in Hnd'.
      apply NoDup_app in Hnd' as [Hnd' _].
      apply NoDup_fmap in Hnd'; [done|]. intros ? ? ?. lia. }
  destruct (chain_prefix _ (seq_log st' ++ [n st'])
              (Z.opp <$> (seq_log st ++ [n st])) Hchain' HM) as [k Hk].
  { by rewrite Hhd', HhdM. }
  { by destruct (seq_log st'). }
  { rewrite length_fmap, !length_app. cbn. lia. }
  assert (k = []) as ->.
  { apply (f_equal length) in Hk.
    rewrite length_fmap, !length_app, Hlen in Hk. cbn in Hk.
    destruct k; [done|cbn in Hk; lia]. }
  rewrite app_nil_r, fmap_app in Hk. cbn in Hk.
  apply app_inj_tail in Hk as [Hseq Hn].
  exists st'. split_and!; [|done..].
  destruct e'; [done|]. destruct Hexit' as [Hge _]. lia.
Qed.

(** X27. The sign [-1] is the mirror image of the sign [+1]: for a non-zero
    start and any of the four configurations, the run on [-n0] under the type
    tag with the sign flipped gets the same label as the run on [n0]; the
    example and the unknown cycle it returns are the negations of the
    original ones, and under absolute-collapse the fingerprint is the same. *)
Theorem worker_mirror_symmetry (a : worker_args) :
  sweep_config a →
  n0 a ≠ 0 →
  ∃ (lab : string) (ex : option (Z * list Z)) (h : bool)
    (fp cyc : option (list Z)) (h' : bool) (fp' : option (list Z)),
    worker a = Done (lab, ex, h, fp, cyc)
    ∧ worker (mirror_args a)
      = Done (lab, fmap (M:=option)
                (fun e : Z * list Z => (- e.1, fmap (M:=list) Z.opp e.2)) ex,
              h',
              fp', fmap (M:=option) (fmap (M:=list) Z.opp) cyc)
    ∧ (fp_abs a = true → fp' = fp).
Proof.
  intros Hcfg Hn0.
  destruct (worker_full_spec a) as (e & st & Htr & Hpost & _ & Hres).
  destruct (worker_full_spec (mirror_args a))
    as (e' & st' & Htr' & Hpost' & _ & Hres').
  change (cap (mirror_args a)) with (cap a) in Htr'.
  destruct e.
  - destruct (mirror_closed a st Hn0 Htr) as (st1 & Htr1 & Hseq & Hn).
    rewrite Htr1 in Htr'. injection Htr' as <- <-.
    destruct Hres as (i & abs1 & known & m & Hi & Habs & Hk & Hm & Hw).
    destruct Hres' as (i' & abs1' & known' & m' & Hi' & Habs' & Hk' & Hm' & Hw').
    assert (i' = i) as ->.
    { destruct Hpost as ([_ _ Hseen _ _ _ _ _] & _).
      destruct Hpost' as ([_ Hnd' Hseen' _ _ _ _ _] & _).
      apply Hseen in Hi. apply Hseen' in Hi'.
      rewrite Hseq, Hn in Hi'.
      assert (Hi2 : (Z.opp <$> seq_log st) !! i = Some (- n st))
        by (by rewrite list_lookup_fmap, Hi).
      rewrite Hseq in Hnd'. by eapply NoDup_lookup. }
    rewrite Hseq, <- fmap_drop in Habs', Hk', Hm', Hw'.
    cbn [mirror_args type_tag fp_abs want_example report_cycles n0] in *.
    rewrite gate_mirror, Habs in Habs' by apply Hcfg. injection Habs' as <-.
    rewrite known_mirror, Hk in Hk'. injection Hk' as <-.
    do 7 eexists. split; [exact Hw|]. split.
    + rewrite Hw'. do 2 f_equal; [f_equal|].
      * by destruct (want_example a).
      * by destruct (_ && _).
    + intros Hfp. rewrite Hfp in *.
      rewrite canonical_mirror_abs, Hm in Hm'. by injection Hm' as <-.
  - destruct e'.
    + exfalso.
      destruct (mirror_closed (mirror_args a) st') as (st2 & Htr2 & _);
        [cbn; lia|done|].
      rewrite (mirror_args_involutive a Hcfg) in Htr2.
      cbn [mirror_args cap] in Htr2. congruence.
    + do 7 eexists. split; [exact Hres|]. split; [exact Hres'|done].
Qed.

Lemma worker_mirror_symmetry_witness :
  ∃ (lab : string) (ex : option (Z * list Z)) (h : bool)
    (fp cyc : option (list Z)) (h' : bool) (fp' : option (list Z)),
    worker (WorkerArgs 17 "W-1" "W" (-1) 100 true true true)
    = Done (lab, ex, h, fp, cyc)
    ∧ worker (mirror_args (WorkerArgs 17 "W-1" "W" (-1) 100 true true true))
      = Done (lab, fmap (M:=option)
                (fun e : Z * list Z => (- e.1, fmap (M:=list) Z.opp e.2)) ex,
              h',
              fp', fmap (M:=option) (fmap (M:=list) Z.opp) cyc)
    ∧ (true = true → fp' = fp).
Proof.
  apply (worker_mirror_symmetry
           (WorkerArgs 17 "W-1" "W" (-1) 100 true true true)).
  - split; [rewrite !elem_of_cons; auto | reflexivity].
  - cbn. lia.
Defined.

(** ** Further properties: the sweep *)

Lemma bump_comm `{Countable K} (k1 k2 : K) (m : gmap K Z) :
  bump k1 (bump k2 m) = bump k2 (bump k1 m).
Proof.
  unfold bump. destruct (decide (k1 = k2)) as [->|Hne]; [done|].
  rewrite !lookup_insert_ne by done. by apply insert_insert_ne.
Qed.

Lemma add_unknown_cycle_count (cfg : settings)
    (reg : gmap (list Z) cycle_info) (f : list Z) (starter : option Z)
    (c : list Z) :
  count <$> add_unknown_cycle cfg reg (Some f) starter (Some c)
  = bump f (count <$> reg).
Proof.
  unfold add_unknown_cycle, bump. rewrite lookup_fmap.
  destruct (reg !! f) as [info|]; by rewrite fmap_insert.
Qed.

Lemma aggregate_summary (cfg : settings) (examples : bool)
    (no_example : option Z) (st : sweep_state) (r : worker_result) :
  sweep_summary (aggregate cfg examples no_example st r)
  = summary_step cfg r (sweep_summary st).
Proof.
  destruct r as [[[[lab ex] h] fp] cyc]. unfold sweep_summary. cbn.
  f_equal; [unfold bump; destruct h; cbn; f_equal; lia|].
  destruct (REPORT_CYCLES cfg); [|done].
  destruct fp as [f|], cyc as [c|]; try done.
  apply add_unknown_cycle_count.
Qed.

Lemma summary_step_comm (cfg : settings) (r1 r2 : worker_result)
    (s : gmap string Z * Z * Z * gmap (list Z) Z) :
  summary_step cfg r1 (summary_step cfg r2 s)
  = summary_step cfg r2 (summary_step cfg r1 s).
Proof.
  destruct r1 as [[[[lab1 ex1] h1] fp1] cyc1].
  destruct r2 as [[[[lab2 ex2] h2] fp2] cyc2].
  destruct s as [[[cnt yes] no] reg]. cbn.
  f_equal; [f_equal; [f_equal; [apply bump_comm|lia]|lia]|].
  destruct (REPORT_CYCLES cfg); [|done].
  destruct fp1, cyc1, fp2, cyc2; try done. apply bump_comm.
Qed.

(** The worker never raises. *)
Lemma worker_returns (a : worker_args) : ∃ r, worker a = Done r.
Proof.
  destruct (worker_full_spec a) as ([] & st & _ & _ & _ & Hres).
  - destruct Hres as (? & ? & ? & ? & _ & _ & _ & _ & ->). eauto.
  - eauto.
Qed.

Section Sweep.

Context (cfg : settings) (type_tag even_type : string) (odd_sign cap : Z)
        (examples : bool).

(** The loop over the results never raises, and its summary is the fold of
    the summary steps. *)
Lemma sweep_loop_same_order (p1 p2 : bool) (todo : list Z)
    (st1 st2 : sweep_state) :
  sweep_summary st1 = sweep_summary st2 →
  ∃ s1 s2,
    sweep_loop cfg type_tag even_type odd_sign cap examples p1 todo st1 = Done s1
    ∧ sweep_loop cfg type_tag even_type odd_sign cap examples p2 todo st2 = Done s2
    ∧ sweep_summary s1 = sweep_summary s2.
Proof.
  revert st1 st2. induction todo as [|x todo IH]; intros st1 st2 Hsum; cbn.
  { by exists st1, st2. }
  destruct (worker_returns
      (WorkerArgs x type_tag even_type odd_sign cap examples
                  (REPORT_CYCLES cfg) (FINGERPRINT_ABS cfg))) as [r Hr].
  rewrite Hr. cbn. apply IH. by rewrite !aggregate_summary, Hsum.
Qed.

Lemma sweep_loop_permutation (p1 p2 : bool) (l1 l2 : list Z) :
  l1 ≡ₚ l2 →
  ∀ st1 st2,
    sweep_summary st1 = sweep_summary st2 →
    ∃ s1 s2,
      sweep_loop cfg type_tag even_type odd_sign cap examples p1 l1 st1 = Done s1
      ∧ sweep_loop cfg type_tag even_type odd_sign cap examples p2 l2 st2 = Done s2
      ∧ sweep_summary s1 = sweep_summary s2.
Proof.
  intros Hperm. revert p1 p2.
  induction Hperm as [|x l1 l2 _ IH|x y l|l1 l2 l3 _ IH1 _ IH2];
    intros p1 p2 st1 st2 Hsum.
  - by exists st1, st2.
  - cbn. destruct (worker_returns
      (WorkerArgs x type_tag even_type odd_sign cap examples
                  (REPORT_CYCLES cfg) (FINGERPRINT_ABS cfg))) as [r Hr].
    rewrite Hr. cbn. apply IH. by rewrite !aggregate_summary, Hsum.
  - cbn.
    destruct (worker_returns
      (WorkerArgs x type_tag even_type odd_sign cap examples
                  (REPORT_CYCLES cfg) (FINGERPRINT_ABS cfg))) as [rx Hx].
    destruct (worker_returns
      (WorkerArgs y type_tag even_type odd_sign cap examples
                  (REPORT_CYCLES cfg) (FINGERPRINT_ABS cfg))) as [ry Hy].
    rewrite ?Hx, ?Hy. cbn. rewrite ?Hx, ?Hy. cbn.
    apply sweep_loop_same_order.
    rewrite !aggregate_summary, Hsum. apply summary_step_comm.
  - destruct (IH1 p1 p1 st1 st1 eq_refl) as (s1 & s2 & H1 & H2 & H12).
    destruct (IH2 p1 p2 st1 st2 Hsum) as (s2' & s3 & H2' & H3 & H23).
    exists s1, s3. split_and!; [done..|]. congruence.
Qed.

End Sweep.

(** X16. The aggregates of a sweep do not depend on the order in which the
    results arrive: for a non-empty type tag and every arrival order that is
    a permutation of the range, the parallel sweep and the sequential sweep
    both return, with the same label counts, the same hit-1 counts and the
    same occurrence count for every fingerprint of the registry. *)
Theorem sweep_summary_order_independent (cfg : settings) (lo hi : Z)
    (type_tag : string) (cap : Z) (examples : bool) (arrival : list Z) :
  type_tag ≠ "" →
  arrival ≡ₚ py_range lo (hi + 1) →
  ∃ sp ss,
    run_sweep cfg lo hi type_tag cap examples true arrival = Done sp
    ∧ run_sweep cfg lo hi type_tag cap examples false [] = Done ss
    ∧ counts sp = counts ss
    ∧ hit1_yes sp = hit1_yes ss ∧ hit1_no sp = hit1_no ss
    ∧ count <$> cycle_registry sp = count <$> cycle_registry ss.
Proof.
  intros Htag Hperm. unfold run_sweep.
  destruct type_tag as [|ch tag]; [done|]. cbn [parse_type mbind run_bind].
  set (init := SweepState _ 0 0 ∅ ∅).
  edestruct (sweep_loop_permutation cfg) as (sp & ss & Hp & Hs & Hsum);
    [exact Hperm|reflexivity|].
  exists sp, ss. split; [exact Hp|]. split; [exact Hs|].
  unfold sweep_summary in Hsum. by simplify_eq.
Qed.

Lemma sweep_summary_order_independent_witness :
  ∃ sp ss,
    run_sweep shipped_settings 5 7 "W-1" 1000 true true [7; 5; 6] = Done sp
    ∧ run_sweep shipped_settings 5 7 "W-1" 1000 true false [] = Done ss
    ∧ counts sp = counts ss
    ∧ hit1_yes sp = hit1_yes ss ∧ hit1_no sp = hit1_no ss
    ∧ count <$> cycle_registry sp = count <$> cycle_registry ss.
Proof.
  apply (sweep_summary_order_independent
           shipped_settings 5 7 "W-1" 1000 true [7; 5; 6]).
  - discriminate.
  - change (py_range 5 (7 + 1)) with [5; 6; 7].
    etransitivity; [apply Permutation_swap|].
    apply Permutation_skip, Permutation_swap.
Defined.

(** What the sweep relies on in a worker result. *)
Lemma worker_shape (a : worker_args) :
  ∃ lab ex h fp cyc,
    worker a = Done (lab, ex, h, fp, cyc)
    ∧ (lab = "ABS1" ∨ lab = "NON-ABS1" ∨ lab = "CAP")
    ∧ (∀ e, ex = Some e → e.1 = n0 a ∧ want_example a = true ∧ lab ≠ "CAP")
    ∧ ((fp = None ∧ cyc = None)
       ∨ ∃ f c, fp = Some f ∧ cyc = Some c
                ∧ canonical_cycle c (fp_abs a) = Done f
                ∧ is_known_small_loop c = Done false).
Proof.
  destruct (worker_full_spec a) as ([] & st & _ & _ & _ & Hres).
  - destruct Hres as (i & abs1 & known & m & _ & _ & Hk & Hm & Hw).
    do 5 eexists. split; [exact Hw|]. split_and!.
    + destruct abs1; auto.
    + intros e He. destruct (want_example a); [|done].
      injection He as <-. by destruct abs1.
    + destruct (report_cycles a), abs1, known; cbn; eauto 10.
  - do 5 eexists. split; [exact Hres|]. split_and!; auto. done.
Qed.

Lemma label_count_aggregate (cfg : settings) (examples : bool)
    (no_example : option Z) (st : sweep_state) (r : worker_result)
    (lab : string) :
  label_count (aggregate cfg examples no_example st r) lab
  = label_count st lab + (if decide (lab = r.1.1.1.1) then 1 else 0).
Proof.
  destruct r as [[[[lab' ex] h] fp] cyc]. unfold label_count. cbn.
  destruct (decide (lab = lab')) as [->|Hne].
  - by rewrite lookup_insert_eq.
  - rewrite lookup_insert_ne by done. lia.
Qed.

Lemma add_unknown_cycle_entry_ok (cfg : settings) (processed : list Z)
    (reg : gmap (list Z) cycle_info) (f c : list Z) (starter : option Z)
    (x : Z) :
  (∀ fp info, reg !! fp = Some info → registry_entry_ok cfg processed fp info) →
  canonical_cycle c (FINGERPRINT_ABS cfg) = Done f →
  is_known_small_loop c = Done false →
  (∀ s, starter = Some s → s = x) →
  ∀ fp info,
    add_unknown_cycle cfg reg (Some f) starter (Some c) !! fp = Some info →
    registry_entry_ok cfg (processed ++ [x]) fp info.
Proof.
  intros Hreg Hkey Hunk Hst fp info. unfold add_unknown_cycle.
  assert (Hold : ∀ fp info, reg !! fp = Some info →
                            registry_entry_ok cfg (processed ++ [x]) fp info).
  { intros fp' info' Hl. destruct (Hreg _ _ Hl). split; try done.
    intros s Hs. apply elem_of_app. auto. }
  destruct (reg !! f) as [old|] eqn:Hlook.
  - destruct (decide (fp = f)) as [->|Hne];
      [rewrite lookup_insert_eq|rewrite lookup_insert_ne by done; apply Hold].
    intros [= <-]. destruct (Hold _ _ Hlook) as [? ? ? ? Hsc Hcap Hfrom].
    split; cbn; try done; try lia.
    + destruct starter as [s|]; [|lia].
      destruct (Z.ltb_spec (Z.of_nat (length (samples old)))
                           (MAX_SAMPLES_PER_CYCLE cfg));
        rewrite ?length_app; cbn; lia.
    + destruct starter as [s|]; [|lia].
      destruct (Z.ltb_spec (Z.of_nat (length (samples old)))
                           (MAX_SAMPLES_PER_CYCLE cfg));
        rewrite ?length_app; cbn; lia.
    + intros s. destruct starter as [s'|]; [|apply Hfrom].
      destruct (_ <? _); [|apply Hfrom].
      rewrite (Hst s' eq_refl). intros [?| ->%list_elem_of_singleton]%elem_of_app;
        [by apply Hfrom|]. apply elem_of_app. right. left.
  - destruct (decide (fp = f)) as [->|Hne];
      [rewrite lookup_insert_eq|rewrite lookup_insert_ne by done; apply Hold].
    intros [= <-]. split; cbn; try done.
    + destruct starter; cbn; lia.
    + destruct starter; cbn; lia.
    + intros s. destruct starter as [s'|]; [|by intros ?%elem_of_nil].
      rewrite (Hst s' eq_refl). intros ->%list_elem_of_singleton.
      apply elem_of_app. right. left.
Qed.

Section SweepInvariant.

Context (cfg : settings) (type_tag even_type : string) (odd_sign cap : Z)
        (examples parallel : bool).

(** What the loop over the results keeps, with [processed] the starts
    handled so far. *)
Lemma sweep_loop_invariant (todo processed : list Z) (st : sweep_state) :
  (∀ fp info, cycle_registry st !! fp = Some info →
              registry_entry_ok cfg processed fp info) →
  (REPORT_CYCLES cfg = false → cycle_registry st = ∅) →
  ∃ st',
    sweep_loop cfg type_tag even_type odd_sign cap examples parallel todo st
    = Done st'
    ∧ (∀ fp info, cycle_registry st' !! fp = Some info →
                  registry_entry_ok cfg (processed ++ todo) fp info)
    ∧ (REPORT_CYCLES cfg = false → cycle_registry st' = ∅)
    ∧ label_count st' "ABS1" + label_count st' "NON-ABS1" + label_count st' "CAP"
      = label_count st "ABS1" + label_count st "NON-ABS1" + label_count st "CAP"
        + Z.of_nat (length todo)
    ∧ hit1_yes st' + hit1_no st'
      = hit1_yes st + hit1_no st + Z.of_nat (length todo)
    ∧ hit1_yes st ≤ hit1_yes st' ∧ hit1_no st ≤ hit1_no st'
    ∧ dom (counts st) ⊆ dom (counts st')
    ∧ (∀ lab, lab ∈ dom (counts st') →
              lab ∈ dom (counts st) ∨ lab ∈ ["ABS1"; "NON-ABS1"; "CAP"]).
Proof.
  revert processed st.
  induction todo as [|x todo IH]; intros processed st Hreg Hoff; cbn [sweep_loop].
  { exists st. rewrite app_nil_r. split_and!; try done; try (cbn; lia).
    auto. }
  destruct (worker_shape
              (WorkerArgs x type_tag even_type odd_sign cap examples
                          (REPORT_CYCLES cfg) (FINGERPRINT_ABS cfg)))
    as (lab & ex & h & fp & cyc & Hw & Hlab & Hex & Hfp).
  rewrite Hw. cbn [mbind run_bind].
  set (st1 := aggregate cfg examples _ st _).
  destruct (IH (processed ++ [x]) st1) as (st' & Hloop & Hreg' & Hoff' & Hcnt
                                           & Hhit & Hyes & Hno & Hsub & Hdom).
  - subst st1. cbn. destruct (REPORT_CYCLES cfg) eqn:Hrep.
    2:{ intros fp' info' Hl. rewrite Hoff in Hl by done. done. }
    destruct Hfp as [[-> ->]|(f & c & -> & -> & Hkey & Hunk)].
    { cbn. intros fp' info' Hl. destruct (Hreg _ _ Hl). split; try done.
      intros s Hs. apply elem_of_app. auto. }
    apply add_unknown_cycle_entry_ok; try done.
    intros s. destruct ex as [e|].
    + intros [= <-]. by destruct (Hex e eq_refl) as [-> _].
    + by destruct parallel; intros [= <-].
  - subst st1. cbn. intros Hrep. rewrite Hrep. auto.
  - exists st'. split; [exact Hloop|].
    rewrite <- (assoc_L (++)) in Hreg'. cbn in Hreg'.
    split_and!; [done|done| | | | | |].
    + rewrite Hcnt. subst st1. rewrite !label_count_aggregate. cbn.
      destruct Hlab as [-> | [-> | ->]]; repeat case_decide; try done; lia.
    + rewrite Hhit. subst st1. cbn. destruct h; cbn; lia.
    + subst st1. cbn in Hyes. destruct h; lia.
    + subst st1. cbn in Hno. destruct h; cbn in Hno; lia.
    + etransitivity; [|exact Hsub]. subst st1. cbn.
      rewrite dom_insert. set_solver.
    + intros l Hl. apply Hdom in Hl as [Hl|?]; [|auto].
      subst st1. cbn in Hl. rewrite dom_insert in Hl.
      apply elem_of_union in Hl as [->%elem_of_singleton|?]; [right|auto].
      destruct Hlab as [-> | [-> | ->]]; rewrite !elem_of_cons; auto.
Qed.

End SweepInvariant.

Lemma run_sweep_invariant (cfg : settings) (lo hi : Z) (type_tag : string)
    (cap : Z) (examples parallel : bool) (arrival : list Z) :
  type_tag ≠ "" →
  ∃ st,
    run_sweep cfg lo hi type_tag cap examples parallel arrival = Done st
    ∧ (∀ fp info, cycle_registry st !! fp = Some info →
         registry_entry_ok cfg (sweep_order lo hi parallel arrival) fp info)
    ∧ (REPORT_CYCLES cfg = false → cycle_registry st = ∅)
    ∧ label_count st "ABS1" + label_count st "NON-ABS1" + label_count st "CAP"
      = Z.of_nat (length (sweep_order lo hi parallel arrival))
    ∧ hit1_yes st + hit1_no st
      = Z.of_nat (length (sweep_order lo hi parallel arrival))
    ∧ 0 ≤ hit1_yes st ∧ 0 ≤ hit1_no st
    ∧ dom (counts st) = {[ "ABS1"; "NON-ABS1"; "CAP" ]}.
Proof.
  intros Htag. unfold run_sweep.
  destruct type_tag as [|ch tag]; [done|]. cbn [parse_type mbind run_bind].
  set (init := SweepState _ 0 0 ∅ ∅).
  fold (sweep_order lo hi parallel arrival).
  edestruct (sweep_loop_invariant cfg (String ch tag)) with (processed := @nil Z)
    (st := init) as (st & Hloop & Hreg & Hoff & Hcnt & Hhit & Hyes & Hno & Hsub
                     & Hdom).
  - subst init. cbn. intros fp info Hl. by rewrite lookup_empty in Hl.
  - done.
  - exists st. split; [exact Hloop|]. cbn in *.
    split_and!; try done; try lia.
    apply set_eq. intros lab. split.
    + intros [Hl|Hl]%Hdom.
      * subst init. cbn in Hl. by rewrite !dom_insert_L, dom_empty_L in Hl.
      * rewrite !elem_of_cons, elem_of_nil in Hl. set_solver.
    + intros Hl. apply Hsub. subst init. cbn.
      by rewrite !dom_insert_L, dom_empty_L.
Qed.

Lemma length_py_range (lo hi : Z) :
  Z.of_nat (length (py_range lo hi)) = Z.max 0 (hi - lo).
Proof. unfold py_range. rewrite length_fmap, length_seq. lia. Qed.

(** X17. [run_sweep] raises (IndexError, from [parse_type]) exactly on the
    empty type tag.  Otherwise it returns after classifying every start once:
    the three label counts add up to the number of starts, so do the two
    hit-1 counts, and no other label is counted; a sequential sweep handles
    [max 0 (hi - lo + 1)] starts. *)
Theorem sweep_counts_every_start_once (cfg : settings) (lo hi : Z)
    (type_tag : string) (cap : Z) (examples parallel : bool)
    (arrival : list Z) :
  (type_tag = "" →
   run_sweep cfg lo hi type_tag cap examples parallel arrival
   = Raise IndexError)
  ∧ (type_tag ≠ "" →
     ∃ st,
       run_sweep cfg lo hi type_tag cap examples parallel arrival = Done st
       ∧ label_count st "ABS1" + label_count st "NON-ABS1"
         + label_count st "CAP"
         = Z.of_nat (length (sweep_order lo hi parallel arrival))
       ∧ hit1_yes st + hit1_no st
         = Z.of_nat (length (sweep_order lo hi parallel arrival))
       ∧ 0 ≤ hit1_yes st ∧ 0 ≤ hit1_no st
       ∧ dom (counts st) = {[ "ABS1"; "NON-ABS1"; "CAP" ]})
  ∧ Z.of_nat (length (sweep_order lo hi false arrival)) = Z.max 0 (hi - lo + 1).
Proof.
  split_and!.
  - by intros ->.
  - intros Htag.
    destruct (run_sweep_invariant cfg lo hi type_tag cap examples parallel
                arrival Htag) as (st & Hrun & _ & _ & Hrest).
    by exists st.
  - cbn. rewrite length_py_range. lia.
Qed.

(** X18. Every entry of the registry a sweep returns is sound: its key is
    the fingerprint of the cycle it stores, that cycle is not a known small
    loop, [len] is its length, the count is at least one, the samples are
    starts of the sweep, no more of them than the count nor than
    [max 1 MAX_SAMPLES_PER_CYCLE]; and with reporting off the registry is
    empty. *)
Theorem sweep_registry_sound (cfg : settings) (lo hi : Z)
    (type_tag : string) (cap : Z) (examples parallel : bool)
    (arrival : list Z) :
  type_tag ≠ "" →
  ∃ st,
    run_sweep cfg lo hi type_tag cap examples parallel arrival = Done st
    ∧ (∀ fp info, cycle_registry st !! fp = Some info →
         registry_entry_ok cfg (sweep_order lo hi parallel arrival) fp info)
    ∧ (REPORT_CYCLES cfg = false → cycle_registry st = ∅).
Proof.
  intros Htag.
  destruct (run_sweep_invariant cfg lo hi type_tag cap examples parallel
              arrival Htag) as (st & Hrun & Hreg & Hoff & _).
  by exists st.
Qed.

Lemma sweep_registry_sound_witness :
  ∃ st,
    run_sweep shipped_settings (-20) 20 "W-1" 200 true false [] = Done st
    ∧ (∀ fp info, cycle_registry st !! fp = Some info →
         registry_entry_ok shipped_settings
           (sweep_order (-20) 20 false []) fp info)
    ∧ (REPORT_CYCLES shipped_settings = false → cycle_registry st = ∅).
Proof.
  apply (sweep_registry_sound shipped_settings (-20) 20 "W-1" 200 true false []).
  discriminate.
Defined.

(** With examples wanted, every closed run carries one. *)
Lemma worker_example_present (a : worker_args) (lab : string)
    (ex : option (Z * list Z)) (h : bool) (fp cyc : option (list Z)) :
  worker a = Done (lab, ex, h, fp, cyc) →
  want_example a = true → lab ≠ "CAP" → ex ≠ None.
Proof.
  intros Hw Hwant Hlab.
  destruct (worker_full_spec a) as ([] & st & _ & _ & _ & Hres).
  - destruct Hres as (i & abs1 & known & m & _ & _ & _ & _ & Hw').
    rewrite Hw' in Hw. rewrite Hwant in Hw. by injection Hw as _ <- _ _ _.
  - rewrite Hres in Hw. by injection Hw as <- _ _ _ _.
Qed.

Section SweepExamples.

Context (cfg : settings) (type_tag even_type : string) (odd_sign cap : Z)
        (examples parallel : bool).

(** What the loop keeps about [examples_found], with [processed] the starts
    handled so far: an example stored for a label comes from the first start
    that got the label, and a label without example has had no run that
    carried one. *)
Lemma sweep_loop_examples (todo processed : list Z) (st : sweep_state) :
  (∀ lab e, examples_found st !! lab = Some e →
     examples = true
     ∧ ∃ pre post h fp cyc,
         processed = pre ++ e.1 :: post
         ∧ worker (WorkerArgs e.1 type_tag even_type odd_sign cap examples
                              (REPORT_CYCLES cfg) (FINGERPRINT_ABS cfg))
           = Done (lab, Some e, h, fp, cyc)
         ∧ ∀ x r, x ∈ pre →
             worker (WorkerArgs x type_tag even_type odd_sign cap examples
                                (REPORT_CYCLES cfg) (FINGERPRINT_ABS cfg))
             = Done r → r.1.1.1.1 ≠ lab) →
  (∀ lab, examples_found st !! lab = None →
     ∀ x r, x ∈ processed →
       worker (WorkerArgs x type_tag even_type odd_sign cap examples
                          (REPORT_CYCLES cfg) (FINGERPRINT_ABS cfg))
       = Done r → r.1.1.1.1 = lab → r.1.1.1.2 = None ∨ examples = false) →
  ∃ st',
    sweep_loop cfg type_tag even_type odd_sign cap examples parallel todo st
    = Done st'
    ∧ ∀ lab e, examples_found st' !! lab = Some e →
        examples = true
        ∧ ∃ pre post h fp cyc,
            processed ++ todo = pre ++ e.1 :: post
            ∧ worker (WorkerArgs e.1 type_tag even_type odd_sign cap examples
                                 (REPORT_CYCLES cfg) (FINGERPRINT_ABS cfg))
              = Done (lab, Some e, h, fp, cyc)
            ∧ ∀ x r, x ∈ pre →
                worker (WorkerArgs x type_tag even_type odd_sign cap examples
                                   (REPORT_CYCLES cfg) (FINGERPRINT_ABS cfg))
                = Done r → r.1.1.1.1 ≠ lab.
Proof.
  revert processed st.
  induction todo as [|x todo IH]; intros processed st Hsome Hnone;
    cbn [sweep_loop].
  { exists st. by rewrite app_nil_r. }
  destruct (worker_shape
              (WorkerArgs x type_tag even_type odd_sign cap examples
                          (REPORT_CYCLES cfg) (FINGERPRINT_ABS cfg)))
    as (lab & ex & h & fp & cyc & Hw & _ & Hex & _).
  rewrite Hw. cbn [mbind run_bind].
  set (st1 := aggregate cfg examples _ st _).
  assert (Hef : examples_found st1
                = match ex with
                  | Some e =>
                      if examples
                         && negb (bool_decide
                                    (is_Some (examples_found st !! lab)))
                      then <[ lab := e ]> (examples_found st)
                      else examples_found st
                  | None => examples_found st
                  end) by done.
  clearbody st1.
  destruct (IH (processed ++ [x]) st1) as (st' & Hloop & Hres).
  - intros lab' e' Hl. rewrite Hef in Hl.
    assert (Hold : examples_found st !! lab' = Some e' →
      examples = true
      ∧ ∃ pre post h fp cyc,
          processed ++ [x] = pre ++ e'.1 :: post
          ∧ worker (WorkerArgs e'.1 type_tag even_type odd_sign cap examples
                               (REPORT_CYCLES cfg) (FINGERPRINT_ABS cfg))
            = Done (lab', Some e', h, fp, cyc)
          ∧ ∀ y r, y ∈ pre →
              worker (WorkerArgs y type_tag even_type odd_sign cap examples
                                 (REPORT_CYCLES cfg) (FINGERPRINT_ABS cfg))
              = Done r → r.1.1.1.1 ≠ lab').
    { intros Hl'. destruct (Hsome _ _ Hl')
        as (Hexs & pre & post & h' & fp' & cyc' & -> & Hw' & Hpre).
      split; [done|]. exists pre, (post ++ [x]), h', fp', cyc'.
      by rewrite <- (assoc_L (++)). }
    destruct ex as [e|]; [|by apply Hold].
    destruct examples eqn:Hexs; [|by apply Hold].
    destruct (examples_found st !! lab) as [old|] eqn:Hlab.
    { rewrite bool_decide_eq_true_2 in Hl by eauto. by apply Hold. }
    rewrite bool_decide_eq_false_2 in Hl by (by intros [? ?]). cbn in Hl.
    destruct (decide (lab' = lab)) as [->|Hne];
      [rewrite lookup_insert_eq in Hl|
       rewrite lookup_insert_ne in Hl by done; by apply Hold].
    injection Hl as <-. split; [done|].
    destruct (Hex e eq_refl) as (He1 & _ & Hnotcap). cbn in He1.
    exists processed, [], h, fp, cyc. rewrite He1. split_and!; [done..|].
    intros y r Hy Hr Hry.
    destruct r as [[[[lab_y ex_y] h_y] fp_y] cyc_y]. cbn in Hry. subst lab_y.
    destruct (Hnone lab Hlab y _ Hy Hr eq_refl) as [Hn|?]; [|done].
    cbn in Hn. subst ex_y.
    by apply (worker_example_present _ _ _ _ _ _ Hr).
  - intros lab' Hl y r Hy Hr Hry. rewrite Hef in Hl.
    assert (Hl' : examples_found st !! lab' = None).
    { destruct ex as [e|]; [|done]. destruct (_ && _); [|done].
      apply lookup_insert_None in Hl. tauto. }
    apply elem_of_app in Hy as [Hy| ->%list_elem_of_singleton];
      [by eapply Hnone|].
    rewrite Hw in Hr. injection Hr as <-. cbn in Hry. subst lab'. cbn.
    destruct ex as [e|]; [|auto]. destruct examples; [|auto]. exfalso.
    rewrite Hl', bool_decide_eq_false_2 in Hl by (by intros [? ?]). cbn in Hl.
    by rewrite lookup_insert_eq in Hl.
  - exists st'. split; [exact Hloop|]. intros lab' e' Hl.
    destruct (Hres _ _ Hl) as (? & pre & post & h' & fp' & cyc' & Heq & ?).
    split; [done|]. exists pre, post, h', fp', cyc'.
    by rewrite <- (assoc_L (++)) in Heq.
Qed.

End SweepExamples.

(** X19. The example a sweep keeps for a label is the first one in
    processing order: it is returned by the worker on a start [s] of the
    sweep with that label, and no start processed before [s] got the label.
    Examples are kept only when asked for. *)
Theorem sweep_keeps_first_example (cfg : settings) (lo hi : Z)
    (type_tag : string) (cap : Z) (examples parallel : bool)
    (arrival : list Z) :
  type_tag ≠ "" →
  ∃ st even_type odd_sign,
    run_sweep cfg lo hi type_tag cap examples parallel arrival = Done st
    ∧ parse_type type_tag = Done (even_type, odd_sign)
    ∧ ∀ lab e, examples_found st !! lab = Some e →
        examples = true
        ∧ ∃ pre post h fp cyc,
            sweep_order lo hi parallel arrival = pre ++ e.1 :: post
            ∧ worker (WorkerArgs e.1 type_tag even_type odd_sign cap examples
                                 (REPORT_CYCLES cfg) (FINGERPRINT_ABS cfg))
              = Done (lab, Some e, h, fp, cyc)
            ∧ ∀ x r, x ∈ pre →
                worker (WorkerArgs x type_tag even_type odd_sign cap examples
                                   (REPORT_CYCLES cfg) (FINGERPRINT_ABS cfg))
                = Done r → r.1.1.1.1 ≠ lab.
Proof.
  intros Htag. unfold run_sweep.
  destruct type_tag as [|ch tag]; [done|]. cbn [parse_type mbind run_bind].
  set (init := SweepState _ 0 0 ∅ ∅).
  fold (sweep_order lo hi parallel arrival).
  edestruct (sweep_loop_examples cfg (String ch tag)) with
    (processed := @nil Z) (st := init) as (st & Hloop & Hres).
  - subst init. cbn. intros lab e Hl. by rewrite lookup_empty in Hl.
  - intros lab _ x r Hx. by apply elem_of_nil in Hx.
  - eexists st, _, _. split; [exact Hloop|]. split; [reflexivity|].
    exact Hres.
Qed.

Lemma sweep_keeps_first_example_witness :
  ∃ st even_type odd_sign,
    run_sweep shipped_settings 3 9 "W-1" 200 true false [] = Done st
    ∧ parse_type "W-1" = Done (even_type, odd_sign)
    ∧ ∀ lab e, examples_found st !! lab = Some e →
        true = true
        ∧ ∃ pre post h fp cyc,
            sweep_order 3 9 false [] = pre ++ e.1 :: post
            ∧ worker (WorkerArgs e.1 "W-1" even_type odd_sign 200 true
                                 (REPORT_CYCLES shipped_settings)
                                 (FINGERPRINT_ABS shipped_settings))
              = Done (lab, Some e, h, fp, cyc)
            ∧ ∀ x r, x ∈ pre →
                worker (WorkerArgs x "W-1" even_type odd_sign 200 true
                                   (REPORT_CYCLES shipped_settings)
                                   (FINGERPRINT_ABS shipped_settings))
                = Done r → r.1.1.1.1 ≠ lab.
Proof.
  apply (sweep_keeps_first_example shipped_settings 3 9 "W-1" 200 true false []).
  discriminate.
Defined.

(** ** Further properties: the inverse tree *)

Lemma parent_of_even (n s : Z) (op : string) (y : Z) :
  n mod 2 = 0 →
  parent_of n s op = y ↔ n = (if (op =? "B")%string then -2 else 2) * y.
Proof.
  intros Hev. unfold parent_of. rewrite Hev. cbn.
  destruct (op =? "B")%string.
  - pose proof (Z.div_mod n (-2)). pose proof (Z.mod_opp_r_z n 2).
    change (- (2)) with (-2) in *. lia.
  - pose proof (Z.div_mod n 2). lia.
Qed.

Lemma parent_of_odd (n s : Z) (op : string) (y : Z) :
  n mod 2 ≠ 0 → parent_of n s op = y ↔ 3 * n + s = y.
Proof.
  intros Hodd. unfold parent_of.
  by destruct (Z.eqb_spec (n mod 2) 0).
Qed.

Lemma odd_preimage (y s n : Z) :
  s = 1 ∨ s = -1 →
  (n mod 2 ≠ 0 ∧ 3 * n + s = y)
  ↔ ((y - (-2 * s)) mod 6 = 0 ∧ n = (y - s) / 3).
Proof.
  intros Hs. split.
  - intros [Hodd <-]. split.
    + destruct Hs as [-> | ->]; Z.div_mod_to_equations; lia.
    + destruct Hs as [-> | ->]; Z.div_mod_to_equations; lia.
  - intros [Hmod ->].
    destruct Hs as [-> | ->]; Z.div_mod_to_equations; lia.
Qed.

Lemma preimages_spec (y s n : Z) (odd_zero : bool) (op : string) :
  s = 1 ∨ s = -1 →
  n ∈ (if (op =? "B")%string then preimages_B y s odd_zero
       else preimages_W y s odd_zero)
  ↔ parent_of n s op = y ∨ (odd_zero = true ∧ n = 0 ∧ y = s).
Proof.
  intros Hs.
  assert (Hin : n ∈ (if (op =? "B")%string then preimages_B y s odd_zero
                     else preimages_W y s odd_zero)
                ↔ n = (if (op =? "B")%string then -2 else 2) * y
                  ∨ ((y - (-2 * s)) mod 6 = 0 ∧ n = (y - s) / 3)
                  ∨ (odd_zero = true ∧ n = 0 ∧ y = s)).
  { unfold preimages_B, preimages_W.
    destruct (op =? "B")%string;
      rewrite !elem_of_app, list_elem_of_singleton;
      destruct (Z.eqb_spec ((y - -2 * s) mod 6) 0), odd_zero, (Z.eqb_spec y s);
      cbn; rewrite ?list_elem_of_singleton, ?elem_of_nil; intuition lia. }
  rewrite Hin, <- odd_preimage by done.
  destruct (Z.eq_dec (n mod 2) 0) as [Hev|Hodd].
  - rewrite (parent_of_even n s op y Hev). intuition lia.
  - rewrite (parent_of_odd n s op y Hodd).
    split; [intros [->|[?|?]]|intros [?|?]]; auto; try tauto.
    destruct (op =? "B")%string; exfalso; apply Hodd;
      Z.div_mod_to_equations; lia.
Qed.

(** X20. The preimage generators invert the forward step: for a sign [+1] or
    [-1], [preimages_B(y, s)] (and [preimages_W(y, s)]) yields exactly the
    integers whose parent, as [edges_from_levels] computes it under the same
    shape, is [y], and with the odd-zero flag also [0] for [y = s]. *)
Theorem preimages_invert_parent (y s n : Z) (odd_zero : bool) :
  s = 1 ∨ s = -1 →
  (n ∈ preimages_B y s odd_zero
   ↔ parent_of n s "B" = y ∨ (odd_zero = true ∧ n = 0 ∧ y = s))
  ∧ (n ∈ preimages_W y s odd_zero
     ↔ parent_of n s "W" = y ∨ (odd_zero = true ∧ n = 0 ∧ y = s)).
Proof.
  intros Hs. split.
  - apply (preimages_spec y s n odd_zero "B" Hs).
  - apply (preimages_spec y s n odd_zero "W" Hs).
Qed.

Lemma preimages_invert_parent_witness :
  (-3 ∈ preimages_B (-8) 1 true
   ↔ parent_of (-3) 1 "B" = -8 ∨ (true = true ∧ -3 = 0 ∧ -8 = 1))
  ∧ (-3 ∈ preimages_W (-8) 1 true
     ↔ parent_of (-3) 1 "W" = -8 ∨ (true = true ∧ -3 = 0 ∧ -8 = 1)).
Proof. apply (preimages_invert_parent (-8) 1 (-3) true). left. reflexivity. Defined.

(** Even steps undo a power of the divisor. *)
Lemma raw_even_steps (s q : Z) (op : string) (k : nat) :
  Nat.iter k (fun v => parent_of v s op)
           (q * (if (op =? "B")%string then -2 else 2) ^ Z.of_nat k)
  = q.
Proof.
  induction k as [|k IH]; [cbn; lia|].
  rewrite Nat.iter_succ_r, Nat2Z.inj_succ, Z.pow_succ_r by lia.
  set (b := if (op =? "B")%string then -2 else 2) in *.
  remember (q * b ^ Z.of_nat k) as z eqn:Ez.
  replace (parent_of (q * (b * b ^ Z.of_nat k)) s op) with z; [done|].
  symmetry. apply parent_of_even.
  - replace (q * (b * b ^ Z.of_nat k)) with (z * b) by (subst z; ring).
    subst b. destruct (op =? "B")%string; Z.div_mod_to_equations; lia.
  - fold b. subst z. ring.
Qed.

(** X21. One accelerated step is a run of forward steps of the inverse
    tree's dynamics: from an odd [n], with sign [s] and shape [op], the odd
    step followed by [v2(3n + s)] even steps, each the parent computed by
    [edges_from_levels], ends on [T_step_accel(n, op, s)], an odd value. *)
Theorem accelerated_step_is_raw_steps (n s : Z) (op : string) :
  Z.odd n = true →
  s = 1 ∨ s = -1 →
  op = "W" ∨ op = "B" →
  ∃ q, T_step_accel n op s = Done q ∧ Z.odd q = true
       ∧ Nat.iter (S (Z.to_nat (v2 (3 * n + s))))
                  (fun v => parent_of v s op) n = q.
Proof.
  intros Hn Hs Hop.
  destruct (T_step_accel_exact n op s) as (q & Hq & Hodd & Heq).
  exists q. split_and!; [done..|].
  replace (if s =? 1 then 1 else -1) with s in Heq
    by (by destruct Hs as [-> | ->]).
  assert (Hb : (if (op =? "W")%string then 2 else -2)
               = (if (op =? "B")%string then -2 else 2))
    by (by destruct Hop as [-> | ->]).
  rewrite Hb in Heq. clear Hb.
  rewrite Nat.iter_succ_r.
  assert (Hfirst : parent_of n s op = 3 * n + s).
  { apply parent_of_odd; [|done]. by apply odd_mod2. }
  rewrite Hfirst. pose proof (v2_nonneg (3 * n + s)) as Hk.
  rewrite Heq at 2. rewrite <- (Z2Nat.id (v2 (3 * n + s))) at 2 by done.
  apply raw_even_steps.
Qed.

Lemma accelerated_step_is_raw_steps_witness :
  ∃ q, T_step_accel 13 "B" 1 = Done q ∧ Z.odd q = true
       ∧ Nat.iter (S (Z.to_nat (v2 (3 * 13 + 1))))
                  (fun v => parent_of v 1 "B") 13 = q.
Proof.
  apply (accelerated_step_is_raw_steps 13 1 "B"); [reflexivity|auto..].
Defined.

(** ** Further properties: the breadth-first search *)

Lemma concat_insert_snoc (levels : list (list Z)) (i : nat) (lv : list Z)
    (n : Z) :
  levels !! i = Some lv →
  concat (<[ i := lv ++ [n] ]> levels) ≡ₚ n :: concat levels.
Proof.
  revert i. induction levels as [|l levels IH]; intros [|i] Hi; try done.
  - injection Hi as ->.
    change ((lv ++ [n]) ++ concat levels ≡ₚ n :: lv ++ concat levels).
    rewrite <- (assoc_L (++)). symmetry. apply Permutation_middle.
  - change (l ++ concat (<[ i := lv ++ [n] ]> levels)
            ≡ₚ n :: l ++ concat levels).
    rewrite (IH i Hi). symmetry. apply Permutation_middle.
Qed.

Lemma py_append_at_spec (levels : list (list Z)) (i : nat) (lv : list Z)
    (n : Z) :
  levels !! i = Some lv →
  py_append_at levels (Z.of_nat i) n = Done (<[ i := lv ++ [n] ]> levels).
Proof.
  intros Hi. unfold py_append_at.
  destruct (Z.ltb_spec (Z.of_nat i) 0); [lia|].
  destruct (Z.ltb_spec (Z.of_nat i) 0); [lia|].
  by rewrite Nat2Z.id, Hi.
Qed.

Section Bfs.

Context (s depth : Z) (pre : Z → list Z).
Hypothesis pre_short : ∀ y, (length (pre y) ≤ 3)%nat.

(** One dequeued node [(y, d)] with [d < depth]: the loop over the
    preimages that are left. *)
Lemma bfs_visit_spec (y d : Z) (ns : list Z) (st : bfs_state) :
  0 ≤ d < depth →
  bfs_inv s depth pre ((y, d) :: bfs_queue st) (bfs_levels st) (bfs_seen st) →
  (∀ n, n ∈ ns → n ∈ pre y) →
  ∃ st',
    bfs_visit d ns st = Done st'
    ∧ bfs_inv s depth pre ((y, d) :: bfs_queue st')
              (bfs_levels st') (bfs_seen st')
    ∧ (∀ n, n ∈ ns → n ∈ bfs_seen st')
    ∧ bfs_seen st ⊆ bfs_seen st'
    ∧ (bfs_measure depth (bfs_queue st')
       ≤ bfs_measure depth (bfs_queue st)
         + length ns * tree_size (Z.to_nat (depth - (d + 1))))%nat.
Proof.
  intros Hd. revert st.
  induction ns as [|n ns IH]; intros st Hinv Hns; cbn [bfs_visit].
  { exists st. split_and!; [done..| |done|cbn; lia].
    intros n Hn. by apply elem_of_nil in Hn. }
  assert (Hns' : ∀ n', n' ∈ ns → n' ∈ pre y).
  { intros n' Hn'. apply Hns. by right. }
  case_bool_decide as Hseen.
  { destruct (IH st Hinv Hns') as (st' & Hv & Hinv' & Hall & Hsub & Hm).
    exists st'. split_and!; [done..| |done|cbn; lia].
    intros n' [->|Hn']%elem_of_cons; [by apply Hsub|by apply Hall]. }
  destruct Hinv as [Hlen Hroot Hpend Hsl Hnd Hsound Hcomp].
  destruct (Hpend y d) as (_ & lvy & Hlvy & Hy); [left|].
  assert (Hidx : ∃ lv, bfs_levels st !! Z.to_nat (d + 1) = Some lv).
  { apply lookup_lt_is_Some. rewrite Hlen. lia. }
  destruct Hidx as [lv Hlv].
  rewrite <- (Z2Nat.id (d + 1)) by lia.
  rewrite (py_append_at_spec _ _ lv n Hlv). cbn [mbind run_bind].
  set (i := Z.to_nat (d + 1)) in *.
  assert (Hi : i = S (Z.to_nat d)) by lia.
  set (levels' := <[ i := lv ++ [n] ]> (bfs_levels st)).
  assert (Hkeep : ∀ j l x, bfs_levels st !! j = Some l → x ∈ l →
                           ∃ l', levels' !! j = Some l' ∧ x ∈ l').
  { intros j l x Hj Hx. destruct (decide (j = i)) as [->|Hne].
    - exists (lv ++ [n]). subst levels'.
      rewrite list_lookup_insert_eq by (by eapply lookup_lt_Some).
      split; [done|]. rewrite elem_of_app. left. congruence.
    - exists l. subst levels'. by rewrite list_lookup_insert_ne. }
  assert (Hnew : ∀ j l x, levels' !! j = Some l → x ∈ l →
                          (∃ l0, bfs_levels st !! j = Some l0 ∧ x ∈ l0)
                          ∨ (j = i ∧ x = n)).
  { intros j l x Hj Hx. destruct (decide (j = i)) as [->|Hne].
    - subst levels'.
      rewrite list_lookup_insert_eq in Hj by (by eapply lookup_lt_Some).
      injection Hj as <-.
      apply elem_of_app in Hx as [?| ->%list_elem_of_singleton]; eauto.
    - subst levels'. rewrite list_lookup_insert_ne in Hj by done. eauto. }
  edestruct (IH (BfsState levels' ({[n]} ∪ bfs_seen st)
                          (bfs_queue st ++ [(n, Z.of_nat i)])))
    as (st' & Hv & Hinv' & Hall & Hsub & Hm); [|done|].
  - cbn. split.
    + subst levels'. by rewrite length_insert.
    + subst levels'. rewrite list_lookup_insert_ne by lia. done.
    + intros y' d' [[= -> ->]|[Hin|Hin%list_elem_of_singleton]%elem_of_app]%elem_of_cons.
      * split; [lia|]. eapply Hkeep; eauto.
      * destruct (Hpend y' d') as (? & l & Hl & Hy'); [by right|].
        split; [done|]. eapply Hkeep; eauto.
      * injection Hin as -> ->. split; [lia|]. rewrite Nat2Z.id.
        exists (lv ++ [n]). subst levels'.
        rewrite list_lookup_insert_eq by (by eapply lookup_lt_Some).
        split; [done|]. rewrite elem_of_app, list_elem_of_singleton. auto.
    + intros x. subst levels'. rewrite (concat_insert_snoc _ _ _ _ Hlv).
      rewrite elem_of_union, elem_of_singleton, elem_of_cons, Hsl. done.
    + subst levels'. rewrite (concat_insert_snoc _ _ _ _ Hlv).
      apply NoDup_cons. split; [|done]. by rewrite <- Hsl.
    + intros j l x Hj Hx.
      destruct (Hnew _ _ _ Hj Hx) as [(l0 & Hl0 & Hx0)|[Hji ->]].
      * destruct (Hsound _ _ _ Hl0 Hx0) as (y' & l' & Hl' & Hy' & Hpre).
        destruct (Hkeep _ _ _ Hl' Hy') as (l'' & ? & ?). eauto 6.
      * assert (j = Z.to_nat d) as -> by lia.
        destruct (Hkeep _ _ _ Hlvy Hy) as (l'' & ? & ?).
        exists y, l''. split_and!; [done..|]. apply Hns. left.
    + intros j l x Hj Hx Hjd.
      destruct (Hnew _ _ _ Hj Hx) as [(l0 & Hl0 & Hx0)|[-> ->]].
      * destruct (Hcomp _ _ _ Hl0 Hx0 Hjd) as [Hq|Hdone].
        -- left. rewrite app_comm_cons, elem_of_app. by left.
        -- right. intros m Hm. apply elem_of_union. right. by apply Hdone.
      * left. rewrite app_comm_cons, elem_of_app. right. left.
  - exists st'. cbn in *. split_and!; [done..| | |].
    + intros n' [->|Hn']%elem_of_cons; [|by apply Hall].
      apply Hsub. set_solver.
    + set_solver.
    + etransitivity; [exact Hm|]. unfold bfs_measure.
      rewrite sum_list_with_app. cbn.
      replace (Z.to_nat (depth - (d + 1))) with (Z.to_nat (depth - Z.of_nat i))
        by lia. lia.
Qed.

Lemma tree_size_pos (j : nat) : (1 ≤ tree_size j)%nat.
Proof. destruct j; cbn; lia. Qed.

Lemma bfs_measure_cons (y d : Z) (q : list (Z * Z)) :
  bfs_measure depth ((y, d) :: q)
  = (tree_size (Z.to_nat (depth - d)) + bfs_measure depth q)%nat.
Proof. done. Qed.

(** The search empties its queue within the fuel of its measure. *)
Lemma bfs_loop_spec (fuel : nat) (st : bfs_state) :
  bfs_inv s depth pre (bfs_queue st) (bfs_levels st) (bfs_seen st) →
  (bfs_measure depth (bfs_queue st) ≤ fuel)%nat →
  ∃ st',
    bfs_loop fuel pre depth st = Done st'
    ∧ bfs_inv s depth pre [] (bfs_levels st') (bfs_seen st').
Proof.
  revert st. induction fuel as [|fuel IH]; intros [levels seen q] Hinv Hfuel;
    cbn [bfs_loop bfs_queue bfs_levels bfs_seen] in *.
  { destruct q as [|[y d] q]; [by eexists|].
    rewrite bfs_measure_cons in Hfuel.
    pose proof (tree_size_pos (Z.to_nat (depth - d))). lia. }
  destruct q as [|[y d] q]; [by eexists|].
  rewrite bfs_measure_cons in Hfuel.
  pose proof (tree_size_pos (Z.to_nat (depth - d))) as Hpos.
  destruct (bfs_pending _ _ _ _ _ _ Hinv y d) as (Hd & _); [left|].
  destruct (Z.leb_spec depth d) as [Hge|Hlt].
  - apply IH; cbn [bfs_queue bfs_levels bfs_seen]; [|lia].
    destruct Hinv as [? ? Hpend ? ? ? Hcomp].
    split; try done.
    + intros y' d' Hin. apply Hpend. by right.
    + intros j l x Hj Hx Hjd.
      destruct (Hcomp _ _ _ Hj Hx Hjd) as [[[= -> ?]|?]%elem_of_cons|?];
        [lia|auto..].
  - destruct (bfs_visit_spec y d (pre y) (BfsState levels seen q))
      as (st' & Hv & Hinv' & Hall & _ & Hm); [lia|done|done|].
    rewrite Hv. cbn [mbind run_bind]. apply IH.
    + destruct Hinv' as [? ? Hpend ? ? ? Hcomp]. split; try done.
      * intros y' d' Hin. apply Hpend. by right.
      * intros j l x Hj Hx Hjd.
        destruct (Hcomp _ _ _ Hj Hx Hjd) as [[[= -> ?]|?]%elem_of_cons|?];
          auto.
    + cbn [bfs_queue] in Hm. pose proof (pre_short y).
      replace (Z.to_nat (depth - d)) with (S (Z.to_nat (depth - (d + 1))))
        in Hfuel by lia.
      cbn [tree_size] in Hfuel. nia.
Qed.

Lemma bfs_loop_fuel_mono (fuel fuel' : nat) (st st' : bfs_state) :
  (fuel ≤ fuel')%nat →
  bfs_loop fuel pre depth st = Done st' →
  bfs_loop fuel' pre depth st = Done st'.
Proof.
  revert fuel' st. induction fuel as [|fuel IH]; intros fuel' st Hle;
    cbn [bfs_loop].
  { destruct fuel'; cbn [bfs_loop]; by destruct (bfs_queue st) as [|[]]. }
  destruct fuel' as [|fuel']; [lia|]. cbn [bfs_loop].
  destruct (bfs_queue st) as [|[y d] q]; [done|].
  destruct (depth <=? d); [apply IH; lia|].
  destruct (bfs_visit _ _ _); cbn; [apply IH; lia|done..].
Qed.

End Bfs.

Lemma preimages_short (op : string) (s y : Z) :
  (length (bfs_pre op s y) ≤ 3)%nat.
Proof.
  unfold bfs_pre, preimages_B, preimages_W.
  destruct (op =? "B")%string; rewrite !length_app;
    destruct (_ =? 0), (true && _); cbn; lia.
Qed.

Lemma concat_replicate_nil (k : nat) : concat (replicate k (@nil Z)) = [].
Proof. induction k; [done|]. by cbn. Qed.

(** The search up to the sorting of the levels. *)
Lemma bfs_search_spec (fuel : nat) (s depth : Z) (op : string) :
  0 ≤ depth →
  (tree_size (Z.to_nat depth) ≤ fuel)%nat →
  ∃ levels seen,
    bfs_inverse_levels fuel s depth op = Done (sort_ints <$> levels, seen)
    ∧ bfs_inverse_levels (tree_size (Z.to_nat depth)) s depth op
      = Done (sort_ints <$> levels, seen)
    ∧ bfs_inv s depth (bfs_pre op s) [] levels seen.
Proof.
  intros Hdepth Hfuel. unfold bfs_inverse_levels.
  replace (Z.to_nat (depth + 1)) with (S (Z.to_nat depth)) by lia.
  cbn [replicate].
  assert (Happ : py_append_at ([] :: replicate (Z.to_nat depth) []) 0 s
                 = Done ([s] :: replicate (Z.to_nat depth) [])) by done.
  rewrite Happ. cbn [mbind run_bind]. fold (bfs_pre op s).
  set (st0 := BfsState _ _ _).
  destruct (bfs_loop_spec s depth (bfs_pre op s) (preimages_short op s)
              (tree_size (Z.to_nat depth)) st0) as (st' & Hloop & Hinv).
  - subst st0. cbn. split; cbn.
    + rewrite length_replicate. lia.
    + done.
    + intros y d [= -> ->]%list_elem_of_singleton. split; [lia|].
      exists [s]. split; [done|]. left.
    + intros n. rewrite concat_replicate_nil. set_solver.
    + rewrite concat_replicate_nil. apply NoDup_singleton.
    + intros d lv n [-> _]%lookup_replicate Hn. by apply elem_of_nil in Hn.
    + intros [|d] lv y Hlv Hy _.
      * injection Hlv as <-. apply list_elem_of_singleton in Hy as ->.
        left. left.
      * apply lookup_replicate in Hlv as [-> _]. by apply elem_of_nil in Hy.
  - subst st0. unfold bfs_measure. cbn. rewrite Z.sub_0_r. lia.
  - exists (bfs_levels st'), (bfs_seen st').
    rewrite (bfs_loop_fuel_mono _ _ _ _ _ _ Hfuel Hloop), Hloop. done.
Qed.

Lemma sort_ints_elem_of (l : list Z) (x : Z) : x ∈ sort_ints l ↔ x ∈ l.
Proof. unfold sort_ints. by rewrite merge_sort_Permutation. Qed.

Lemma concat_sort_ints (levels : list (list Z)) :
  concat (sort_ints <$> levels) ≡ₚ concat levels.
Proof.
  induction levels as [|l levels IH]; [done|]. cbn.
  unfold sort_ints at 1. by rewrite merge_sort_Permutation, IH.
Qed.

Lemma sort_ints_strict (l : list Z) :
  NoDup l → StronglySorted Z.lt (sort_ints l).
Proof.
  intros Hnd.
  assert (Hs : StronglySorted Z.le (sort_ints l))
    by apply (StronglySorted_merge_sort Z.le).
  assert (Hnd' : NoDup (sort_ints l)).
  { unfold sort_ints. by rewrite merge_sort_Permutation. }
  induction Hs as [|x l' Hs IH Hall]; [constructor|].
  apply NoDup_cons in Hnd' as [Hx Hnd']. constructor; [by apply IH|].
  apply Forall_forall. intros y Hy.
  pose proof (proj1 (Forall_forall _ _) Hall y Hy).
  assert (x ≠ y) by (by intros ->). lia.
Qed.

Lemma NoDup_concat_elem (levels : list (list Z)) (lv : list Z) :
  NoDup (concat levels) → lv ∈ levels → NoDup lv.
Proof.
  intros Hnd Hin. induction levels as [|l levels IH]; [by apply elem_of_nil in Hin|].
  cbn in Hnd. apply NoDup_app in Hnd as (? & _ & ?).
  apply elem_of_cons in Hin as [->|?]; auto.
Qed.

(** The result of the search, in the terms of the sorted levels. *)
Lemma bfs_result_spec (s depth : Z) (op : string) :
  0 ≤ depth →
  ∃ levels seen,
    bfs_inverse_levels (tree_size (Z.to_nat depth)) s depth op
    = Done (levels, seen)
    ∧ length levels = Z.to_nat (depth + 1)
    ∧ levels !! 0%nat = Some [s]
    ∧ (∀ lv, lv ∈ levels → StronglySorted Z.lt lv)
    ∧ NoDup (concat levels)
    ∧ (∀ n, n ∈ seen ↔ n ∈ concat levels)
    ∧ (∀ d lv n, levels !! S d = Some lv → n ∈ lv →
         ∃ y lv', levels !! d = Some lv' ∧ y ∈ lv' ∧ n ∈ bfs_pre op s y)
    ∧ (∀ d lv y n, levels !! d = Some lv → y ∈ lv → Z.of_nat d < depth →
         n ∈ bfs_pre op s y → n ∈ seen).
Proof.
  intros Hdepth.
  destruct (bfs_search_spec (tree_size (Z.to_nat depth)) s depth op)
    as (lv0 & seen & _ & Hrun & [Hlen Hroot _ Hsl Hnd Hsound Hcomp]);
    [done..|].
  exists (sort_ints <$> lv0), seen.
  assert (Hget : ∀ d lv, (sort_ints <$> lv0) !! d = Some lv →
                         ∃ l0, lv0 !! d = Some l0 ∧ lv = sort_ints l0).
  { intros d lv Hl. rewrite list_lookup_fmap in Hl.
    destruct (lv0 !! d) as [l0|]; [|done]. injection Hl as <-. eauto. }
  split_and!.
  - done.
  - by rewrite length_fmap.
  - by rewrite list_lookup_fmap, Hroot.
  - intros lv (l0 & -> & Hl0)%list_elem_of_fmap.
    apply sort_ints_strict. by eapply NoDup_concat_elem.
  - by rewrite concat_sort_ints.
  - intros n. by rewrite concat_sort_ints.
  - intros d lv n (l0 & Hl0 & ->)%Hget Hn. rewrite sort_ints_elem_of in Hn.
    destruct (Hsound _ _ _ Hl0 Hn) as (y & l' & Hl' & Hy & Hpre).
    exists y, (sort_ints l'). rewrite list_lookup_fmap, Hl'.
    split_and!; [done| |done]. by apply sort_ints_elem_of.
  - intros d lv y n (l0 & Hl0 & ->)%Hget Hy Hd Hn.
    rewrite sort_ints_elem_of in Hy.
    destruct (Hcomp _ _ _ Hl0 Hy Hd) as [Hq|Hdone]; [|by apply Hdone].
    by apply elem_of_nil in Hq.
Qed.

Lemma elem_of_concat (levels : list (list Z)) (x : Z) :
  x ∈ concat levels ↔ ∃ lv, lv ∈ levels ∧ x ∈ lv.
Proof.
  induction levels as [|l levels IH]; cbn.
  - rewrite elem_of_nil. split; [done|]. by intros (? & ?%elem_of_nil & _).
  - rewrite elem_of_app, IH. split.
    + intros [?|(lv & ? & ?)]; [exists l|exists lv]; split; try done;
        [left|by right].
    + intros (lv & [->|?]%elem_of_cons & ?); eauto.
Qed.

Lemma NoDup_concat_levels (levels : list (list Z)) (i j : nat)
    (l1 l2 : list Z) (x : Z) :
  NoDup (concat levels) →
  levels !! i = Some l1 → levels !! j = Some l2 →
  x ∈ l1 → x ∈ l2 → i = j.
Proof.
  revert i j. induction levels as [|l levels IH]; intros i j Hnd Hi Hj H1 H2;
    [done|].
  cbn in Hnd. apply NoDup_app in Hnd as (_ & Hdisj & Hnd').
  destruct i as [|i], j as [|j]; cbn in Hi, Hj; simplify_eq; try done.
  - destruct (Hdisj x H1). apply elem_of_concat.
    exists l2. split; [by eapply list_elem_of_lookup_2|done].
  - destruct (Hdisj x H2). apply elem_of_concat.
    exists l1. split; [by eapply list_elem_of_lookup_2|done].
  - f_equal. by eapply IH.
Qed.

Lemma edges_from_levels_spec (levels : list (list Z)) (s : Z) (op : string)
    (v p : Z) :
  (v, p) ∈ edges_from_levels levels s op
  ↔ ∃ d lv lp, levels !! S d = Some lv ∧ v ∈ lv
               ∧ levels !! d = Some lp ∧ p ∈ lp
               ∧ p = parent_of v s op.
Proof.
  unfold edges_from_levels. rewrite list_elem_of_bind. split.
  - intros (d & Hin & Hd%elem_of_seq).
    apply list_elem_of_bind in Hin as (v' & Hin & Hv').
    case_bool_decide as Hp; [|by apply elem_of_nil in Hin].
    apply list_elem_of_singleton in Hin as [= <- ->].
    destruct d as [|d]; [lia|].
    replace (S d - 1)%nat with d in Hp by lia.
    destruct (levels !! S d) as [lv|] eqn:Hlv; [|by apply elem_of_nil in Hv'].
    destruct (levels !! d) as [lp|] eqn:Hlp; [|by apply elem_of_nil in Hp].
    by exists d, lv, lp.
  - intros (d & lv & lp & Hlv & Hv & Hlp & Hp & ->).
    exists (S d). split.
    + apply list_elem_of_bind. exists v. rewrite Hlv. split; [|done].
      replace (S d - 1)%nat with d by lia. rewrite Hlp. cbn.
      rewrite bool_decide_eq_true_2 by done. left.
    + apply elem_of_seq. apply lookup_lt_Some in Hlv. lia.
Qed.

(** X22. [bfs_inverse_levels] raises [IndexError] for a negative depth (the
    root has no level to go to).  For a depth of zero or more it returns,
    whatever the fuel beyond the size of the full ternary tree of that
    height, [depth + 1] levels of which the first is the root alone. *)
Theorem bfs_inverse_levels_returns (fuel : nat) (s depth : Z) (op : string) :
  (depth < 0 → bfs_inverse_levels fuel s depth op = Raise IndexError)
  ∧ (0 ≤ depth → (tree_size (Z.to_nat depth) ≤ fuel)%nat →
     ∃ levels seen,
       bfs_inverse_levels fuel s depth op = Done (levels, seen)
       ∧ bfs_inverse_levels (tree_size (Z.to_nat depth)) s depth op
         = Done (levels, seen)
       ∧ length levels = Z.to_nat (depth + 1)
       ∧ levels !! 0%nat = Some [s]).
Proof.
  split.
  - intros Hneg. unfold bfs_inverse_levels.
    replace (Z.to_nat (depth + 1)) with 0%nat by lia. done.
  - intros Hdepth Hfuel.
    destruct (bfs_search_spec fuel s depth op Hdepth Hfuel)
      as (lv0 & seen & Hrun & Hrun' & [Hlen Hroot _ _ _ _ _]).
    exists (sort_ints <$> lv0), seen.
    split_and!; [done..|by rewrite length_fmap|].
    by rewrite list_lookup_fmap, Hroot.
Qed.

(** X23. The levels of the search partition the set of values seen: every
    level is strictly increasing, no value occurs in two levels, and the set
    returned holds exactly the values of the levels. *)
Theorem bfs_levels_partition_seen (s depth : Z) (op : string) :
  0 ≤ depth →
  ∃ levels seen,
    bfs_inverse_levels (tree_size (Z.to_nat depth)) s depth op
    = Done (levels, seen)
    ∧ (∀ lv, lv ∈ levels → StronglySorted Z.lt lv)
    ∧ NoDup (concat levels)
    ∧ (∀ n, n ∈ seen ↔ ∃ lv, lv ∈ levels ∧ n ∈ lv).
Proof.
  intros Hdepth.
  destruct (bfs_result_spec s depth op Hdepth)
    as (levels & seen & Hrun & _ & _ & Hsorted & Hnd & Hseen & _).
  exists levels, seen. split_and!; [done..|].
  intros n. by rewrite Hseen, elem_of_concat.
Qed.

Lemma bfs_levels_partition_seen_witness :
  ∃ levels seen,
    bfs_inverse_levels (tree_size (Z.to_nat 4)) 1 4 "B" = Done (levels, seen)
    ∧ (∀ lv, lv ∈ levels → StronglySorted Z.lt lv)
    ∧ NoDup (concat levels)
    ∧ (∀ n, n ∈ seen ↔ ∃ lv, lv ∈ levels ∧ n ∈ lv).
Proof. apply (bfs_levels_partition_seen 1 4 "B"). lia. Defined.

(** X24. The levels are the layers of the inverse tree: every value of a
    level past the root is yielded by the preimage generator on some value of
    the level before, and every value the generator yields on a node above
    the last level has been seen. *)
Theorem bfs_levels_follow_preimages (s depth : Z) (op : string) :
  0 ≤ depth →
  ∃ levels seen,
    bfs_inverse_levels (tree_size (Z.to_nat depth)) s depth op
    = Done (levels, seen)
    ∧ (∀ d lv n, levels !! S d = Some lv → n ∈ lv →
         ∃ y lv', levels !! d = Some lv' ∧ y ∈ lv' ∧ n ∈ bfs_pre op s y)
    ∧ (∀ d lv y n, levels !! d = Some lv → y ∈ lv → Z.of_nat d < depth →
         n ∈ bfs_pre op s y → n ∈ seen).
Proof.
  intros Hdepth.
  destruct (bfs_result_spec s depth op Hdepth)
    as (levels & seen & Hrun & _ & _ & _ & _ & _ & Hsound & Hcomp).
  by exists levels, seen.
Qed.

Lemma bfs_levels_follow_preimages_witness :
  ∃ levels seen,
    bfs_inverse_levels (tree_size (Z.to_nat 3)) (-1) 3 "W"
    = Done (levels, seen)
    ∧ (∀ d lv n, levels !! S d = Some lv → n ∈ lv →
         ∃ y lv', levels !! d = Some lv' ∧ y ∈ lv' ∧ n ∈ bfs_pre "W" (-1) y)
    ∧ (∀ d lv y n, levels !! d = Some lv → y ∈ lv → Z.of_nat d < 3 →
         n ∈ bfs_pre "W" (-1) y → n ∈ seen).
Proof. apply (bfs_levels_follow_preimages (-1) 3 "W"). lia. Defined.

(** X25. The edges drawn on the levels of a search with sign [+1] or [-1]
    join every non-zero node below the root to its parent in the level
    before, and nothing else.  The node [0], which the odd-zero convention
    puts among the preimages of the root, is seen as soon as the depth is at
    least one but is the source of no edge: [edges_from_levels] takes it for
    an even value whose parent is [0] itself. *)
Theorem bfs_edges_join_parents (s depth : Z) (op : string) :
  s = 1 ∨ s = -1 →
  0 ≤ depth →
  ∃ levels seen,
    bfs_inverse_levels (tree_size (Z.to_nat depth)) s depth op
    = Done (levels, seen)
    ∧ (∀ v p, (v, p) ∈ edges_from_levels levels s op →
         p = parent_of v s op
         ∧ ∃ d lv lp, levels !! S d = Some lv ∧ v ∈ lv
                      ∧ levels !! d = Some lp ∧ p ∈ lp)
    ∧ (∀ d lv v, levels !! S d = Some lv → v ∈ lv → v ≠ 0 →
         (v, parent_of v s op) ∈ edges_from_levels levels s op)
    ∧ (1 ≤ depth → 0 ∈ seen)
    ∧ (∀ p, (0, p) ∉ edges_from_levels levels s op).
Proof.
  intros Hs Hdepth.
  destruct (bfs_result_spec s depth op Hdepth)
    as (levels & seen & Hrun & _ & Hroot & _ & Hnd & Hseen & Hsound & Hcomp).
  exists levels, seen. split_and!; [done|..].
  - intros v p (d & lv & lp & ? & ? & ? & ? & ?)%edges_from_levels_spec.
    eauto 10.
  - intros d lv v Hlv Hv Hv0. apply edges_from_levels_spec.
    destruct (Hsound _ _ _ Hlv Hv) as (y & lp & Hlp & Hy & Hpre).
    unfold bfs_pre in Hpre.
    apply (preimages_spec y s v true op Hs) in Hpre as [Hpar|(_ & ? & _)];
      [|done].
    exists d, lv, lp. by rewrite Hpar.
  - intros Hd. apply (Hcomp 0%nat [s] s 0 Hroot); [left|lia|].
    unfold bfs_pre.
    apply (preimages_spec s s 0 true op Hs). auto.
  - intros p (d & lv & lp & Hlv & Hv & Hlp & Hp & ->)%edges_from_levels_spec.
    change (parent_of 0 s op) with (if (op =? "B")%string then 0 else 0) in Hp.
    assert (0 ∈ lp) as H0 by (by destruct (op =? "B")%string).
    pose proof (NoDup_concat_levels _ _ _ _ _ 0 Hnd Hlv Hlp Hv H0). lia.
Qed.

Lemma bfs_edges_join_parents_witness :
  ∃ levels seen,
    bfs_inverse_levels (tree_size (Z.to_nat 3)) 1 3 "B" = Done (levels, seen)
    ∧ (∀ v p, (v, p) ∈ edges_from_levels levels 1 "B" →
         p = parent_of v 1 "B"
         ∧ ∃ d lv lp, levels !! S d = Some lv ∧ v ∈ lv
                      ∧ levels !! d = Some lp ∧ p ∈ lp)
    ∧ (∀ d lv v, levels !! S d = Some lv → v ∈ lv → v ≠ 0 →
         (v, parent_of v 1 "B") ∈ edges_from_levels levels 1 "B")
    ∧ (1 ≤ 3 → 0 ∈ seen)
    ∧ (∀ p, (0, p) ∉ edges_from_levels levels 1 "B").
Proof. apply (bfs_edges_join_parents 1 3 "B"); [auto|lia]. Defined.

Lemma unpruned_visit_agrees (d : Z) (ns : list Z) (st st' : bfs_state) :
  bfs_visit d ns st = Done st' →
  unpruned_visit d ns (bfs_seen st) (bfs_queue st)
  = (bfs_seen st', bfs_queue st').
Proof.
  revert st. induction ns as [|n ns IH]; intros st;
    cbn [bfs_visit unpruned_visit].
  { by intros [= <-]. }
  case_bool_decide; [apply IH|].
  destruct (py_append_at _ _ _) as [levels'| |]; cbn [mbind run_bind];
    [|done..].
  intros Hv. by apply IH in Hv.
Qed.

Lemma unpruned_loop_agrees (fuel : nat) (depth : Z) (st st' : bfs_state) :
  bfs_loop fuel (fun y => preimages_B y 1 true) depth st = Done st' →
  unpruned_loop fuel depth (bfs_seen st) (bfs_queue st) = Done (bfs_seen st').
Proof.
  revert st.
  induction fuel as [|fuel IH]; intros [levels seen [|[y d] q]];
    cbn [bfs_loop unpruned_loop bfs_queue bfs_seen bfs_levels];
    try (by intros [= <-]); try done.
  destruct (depth <=? d); [apply IH|].
  destruct (bfs_visit _ _ _) as [st1| |] eqn:Hv; cbn [mbind run_bind];
    [|done..].
  apply unpruned_visit_agrees in Hv.
  cbn [bfs_queue bfs_seen bfs_levels] in Hv. rewrite Hv. apply IH.
Qed.

(** X26. [bfs_unpruned_seen] and [bfs_inverse_levels] agree: for a depth of
    zero or more the set the former returns is the set of values seen that
    the latter returns for the root [+1] under Bridge.  For a negative depth
    the former returns the root alone, where the latter raises. *)
Theorem bfs_unpruned_seen_agrees (fuel : nat) (depth : Z) :
  (0 ≤ depth → (tree_size (Z.to_nat depth) ≤ fuel)%nat →
   ∃ levels seen,
     bfs_inverse_levels fuel 1 depth "B" = Done (levels, seen)
     ∧ bfs_unpruned_seen fuel depth = Done seen)
  ∧ (depth < 0 → (1 ≤ fuel)%nat →
     bfs_unpruned_seen fuel depth = Done {[ 1 ]}
     ∧ bfs_inverse_levels fuel 1 depth "B" = Raise IndexError).
Proof.
  split.
  - intros Hdepth Hfuel.
    destruct (bfs_search_spec fuel 1 depth "B" Hdepth Hfuel)
      as (lv0 & seen & Hrun & _ & _).
    exists (sort_ints <$> lv0), seen. split; [done|].
    unfold bfs_inverse_levels in Hrun.
    destruct (py_append_at _ _ _) as [levels| |]; cbn [mbind run_bind] in Hrun;
      [|done..].
    destruct (bfs_loop _ _ _ _) as [st'| |] eqn:Hloop;
      cbn [mbind run_bind] in Hrun; [|done..].
    injection Hrun as _ <-.
    apply (unpruned_loop_agrees fuel depth _ st') in Hloop. exact Hloop.
  - intros Hneg Hfuel. split.
    + destruct fuel as [|fuel]; [lia|]. unfold bfs_unpruned_seen.
      cbn [unpruned_loop].
      destruct (Z.leb_spec depth 0); [|lia]. by destruct fuel.
    + unfold bfs_inverse_levels.
      replace (Z.to_nat (depth + 1)) with 0%nat by lia. done.
Qed.
